(** * cfchat: the relay worker and its browser client

    A shallow embedding of [src/worker.js]: the edge side ([ChatRoom],
    [handleWebSocket], [isValidRoomId]) and the client script embedded in the
    page ([normalizePassword], the key derivation, the cipher wrappers, the
    chunked transfer of files).

    JavaScript strings are lists of UTF-16 code units, [Uint8Array]s are lists
    of bytes, the [Map] of assemblies is a [gmap], objects shared between
    suspended handlers live in an explicit heap. *)

From Stdlib Require Import ZArith NArith Lia Ascii String.
From Stdlib.Strings Require Import Byte.
From stdpp Require Import base numbers list gmap option.

Local Open Scope Z_scope.

(** ** JavaScript values *)

Module JS.

(** A string is its sequence of UTF-16 code units; [length] is the number of
    code units, as [String.prototype.length]. *)
Definition jsstring : Type := list N.

(** An ASCII literal of the source. *)
Definition lit (s : string) : jsstring := map N_of_ascii (list_ascii_of_string s).

Definition js_length (s : jsstring) : Z := Z.of_nat (length s).

(** How a statement completes: normally, or by a thrown exception. *)
Inductive JsError := TypeError | RangeError | InvalidCharacterError | OperationError.

Inductive Completion (A : Type) : Type :=
| Normal (a : A)
| Abrupt (e : JsError).
Arguments Normal {A} a.
Arguments Abrupt {A} e.

Definition bind {A B} (c : Completion A) (k : A -> Completion B) : Completion B :=
  match c with
  | Normal a => k a
  | Abrupt e => Abrupt e
  end.

(** [promise.catch(() => null)] and [try { ... } catch (error) { }] both turn
    an exception into a default value. *)
Definition catch {A} (c : Completion A) (handler : A) : A :=
  match c with
  | Normal a => a
  | Abrupt _ => handler
  end.

Definition byte_of_N (n : N) : byte :=
  match Byte.of_N (n mod 256)%N with
  | Some b => b
  | None => x00
  end.

#[global] Instance byte_eq_dec : EqDecision byte.
Proof. intros a b. destruct (Byte.eqb a b) eqn:E.
  - left. by apply Byte.byte_dec_bl.
  - right. intros ->. by rewrite (Byte.byte_dec_lb eq_refl) in E.
Defined.

Definition in_range (lo hi c : N) : bool := ((lo <=? c) && (c <=? hi))%N.

(** *** [String.prototype.trim]

    The code units removed are ECMAScript's WhiteSpace and LineTerminator. *)
Definition is_white_space (c : N) : bool :=
  (in_range 9 13 c || (c =? 32) || (c =? 160) || (c =? 0x1680)
   || in_range 0x2000 0x200A c || (c =? 0x2028) || (c =? 0x2029)
   || (c =? 0x202F) || (c =? 0x205F) || (c =? 0x3000) || (c =? 0xFEFF))%N.

Fixpoint trim_start (s : jsstring) : jsstring :=
  match s with
  | c :: rest => if is_white_space c then trim_start rest else s
  | [] => []
  end.

Definition trim_end (s : jsstring) : jsstring := rev (trim_start (rev s)).

Definition trim (s : jsstring) : jsstring := trim_end (trim_start s).

(** *** [TextEncoder.prototype.encode]: UTF-16 to UTF-8

    A surrogate pair is one code point of four bytes, a lone surrogate is
    replaced by U+FFFD. *)
Definition is_high_surrogate (c : N) : bool := in_range 0xD800 0xDBFF c.
Definition is_low_surrogate (c : N) : bool := in_range 0xDC00 0xDFFF c.

Definition utf8_of_code_point (cp : N) : list byte :=
  (if cp <? 0x80 then [byte_of_N cp]
   else if cp <? 0x800 then
     [byte_of_N (0xC0 + cp / 64); byte_of_N (0x80 + cp mod 64)]
   else if cp <? 0x10000 then
     [byte_of_N (0xE0 + cp / 4096); byte_of_N (0x80 + (cp / 64) mod 64);
      byte_of_N (0x80 + cp mod 64)]
   else
     [byte_of_N (0xF0 + cp / 262144); byte_of_N (0x80 + (cp / 4096) mod 64);
      byte_of_N (0x80 + (cp / 64) mod 64); byte_of_N (0x80 + cp mod 64)])%N.

Fixpoint TextEncoder_encode (s : jsstring) : list byte :=
  match s with
  | [] => []
  | c :: rest =>
      if is_high_surrogate c then
        match rest with
        | d :: rest' =>
            if is_low_surrogate d then
              utf8_of_code_point (0x10000 + (c - 0xD800) * 1024 + (d - 0xDC00))%N
                ++ TextEncoder_encode rest'
            else utf8_of_code_point 0xFFFD ++ TextEncoder_encode rest
        | [] => utf8_of_code_point 0xFFFD
        end
      else if is_low_surrogate c then
        utf8_of_code_point 0xFFFD ++ TextEncoder_encode rest
      else utf8_of_code_point c ++ TextEncoder_encode rest
  end.

(** *** [TextDecoder.prototype.decode]: UTF-8 to UTF-16

    The decoder of the Encoding standard: an ill-formed sequence yields
    U+FFFD and the offending byte is looked at again as a lead byte; a byte
    order mark at the start is dropped. *)
Record Utf8Decoder := {
  code_point : N;
  bytes_seen : N;
  bytes_needed : N;
  lower_boundary : N;
  upper_boundary : N
}.

Definition decoder_reset : Utf8Decoder :=
  {| code_point := 0; bytes_seen := 0; bytes_needed := 0;
     lower_boundary := 0x80; upper_boundary := 0xBF |}.

Definition utf16_of_code_point (cp : N) : jsstring :=
  (if cp <? 0x10000 then [cp]
   else [0xD800 + (cp - 0x10000) / 1024; 0xDC00 + (cp - 0x10000) mod 1024])%N.

Definition decode_lead (b : N) : jsstring * Utf8Decoder :=
  (if b <=? 0x7F then ([b], decoder_reset)
   else if in_range 0xC2 0xDF b then
     ([], {| code_point := N.land b 0x1F; bytes_seen := 0; bytes_needed := 1;
             lower_boundary := 0x80; upper_boundary := 0xBF |})
   else if in_range 0xE0 0xEF b then
     ([], {| code_point := N.land b 0xF; bytes_seen := 0; bytes_needed := 2;
             lower_boundary := if b =? 0xE0 then 0xA0 else 0x80;
             upper_boundary := if b =? 0xED then 0x9F else 0xBF |})
   else if in_range 0xF0 0xF4 b then
     ([], {| code_point := N.land b 0x7; bytes_seen := 0; bytes_needed := 3;
             lower_boundary := if b =? 0xF0 then 0x90 else 0x80;
             upper_boundary := if b =? 0xF4 then 0x8F else 0xBF |})
   else ([0xFFFD], decoder_reset))%N.

Definition decode_byte (d : Utf8Decoder) (b : N) : jsstring * Utf8Decoder :=
  (if bytes_needed d =? 0 then decode_lead b
   else if negb (in_range (lower_boundary d) (upper_boundary d) b) then
     let '(out, d') := decode_lead b in (0xFFFD :: out, d')
   else
     let cp := N.lor (N.shiftl (code_point d) 6) (N.land b 0x3F) in
     if bytes_seen d + 1 =? bytes_needed d then (utf16_of_code_point cp, decoder_reset)
     else ([], {| code_point := cp; bytes_seen := bytes_seen d + 1;
                  bytes_needed := bytes_needed d;
                  lower_boundary := 0x80; upper_boundary := 0xBF |}))%N.

Fixpoint decode_from (d : Utf8Decoder) (bytes : list byte) : jsstring :=
  match bytes with
  | [] => if (bytes_needed d =? 0)%N then [] else [0xFFFD%N]
  | b :: rest =>
      let '(out, d') := decode_byte d (Byte.to_N b) in
      out ++ decode_from d' rest
  end.

Definition strip_bom (bytes : list byte) : list byte :=
  match bytes with
  | xef :: xbb :: xbf :: rest => rest
  | _ => bytes
  end.

Definition TextDecoder_decode (bytes : list byte) : jsstring :=
  decode_from decoder_reset (strip_bom bytes).

End JS.

Import JS.

(** ** The edge side: the worker and the [ChatRoom] durable object *)

Module Relay.

(** A frame handed to [webSocketMessage]: a string or an [ArrayBuffer]. *)
Inductive Message :=
| MsgString (s : jsstring)
| MsgBuffer (b : list byte).

Inductive ReadyState := OPEN | CLOSED.

#[global] Instance ReadyState_eq_dec : EqDecision ReadyState.
Proof. solve_decision. Defined.

(** The server end of a socket pair: what was sent through it reaches the
    remote peer, in order. *)
Record WebSocket := {
  readyState : ReadyState;
  sent : list jsstring;
  closeFrame : option (Z * jsstring)
}.

(** The durable object. Sockets are named by handles; [accepted] is the set
    kept by [state.acceptWebSocket]. *)
Record ChatRoom := {
  accepted : gmap nat WebSocket;
  maxMessageSize : Z
}.

Definition constructor : ChatRoom :=
  {| accepted := ∅; maxMessageSize := 1000000 |}.

Definition getWebSockets (room : ChatRoom) : list nat :=
  (map_to_list (accepted room)).*1.

(** [socket.send(text)] throws unless the socket is open. *)
Definition send (socket : nat) (text : jsstring) (room : ChatRoom) : Completion ChatRoom :=
  match accepted room !! socket with
  | Some s =>
      match readyState s with
      | OPEN =>
          Normal {| accepted :=
                      <[socket := {| readyState := OPEN; sent := sent s ++ [text];
                                     closeFrame := closeFrame s |}]> (accepted room);
                    maxMessageSize := maxMessageSize room |}
      | CLOSED => Abrupt TypeError
      end
  | None => Abrupt TypeError
  end.

Definition close (ws : nat) (code : Z) (reason : jsstring) (room : ChatRoom) : ChatRoom :=
  match accepted room !! ws with
  | Some s =>
      {| accepted :=
           <[ws := {| readyState := CLOSED; sent := sent s;
                      closeFrame := match closeFrame s with
                                    | Some f => Some f
                                    | None => Some (code, reason)
                                    end |}]> (accepted room);
         maxMessageSize := maxMessageSize room |}
  | None => room
  end.

Definition message_text (message : Message) : jsstring :=
  match message with
  | MsgString s => s
  | MsgBuffer b => TextDecoder_decode b
  end.

(** The body of the [for ... of] loop. *)
Definition forward (ws : nat) (text : jsstring) (room : ChatRoom) (socket : nat) : ChatRoom :=
  if decide (socket ≠ ws) then catch (send socket text room) room else room.

Definition webSocketMessage (ws : nat) (message : Message) (room : ChatRoom) : ChatRoom :=
  let text := message_text message in
  if js_length text >? maxMessageSize room then
    close ws 1009 (lit "Message too large") room
  else
    let sockets := getWebSockets room in
    foldl (forward ws text) room sockets.

(** *** Routing *)

Record Request := {
  upgrade : option jsstring
}.

Record Response := {
  status : Z;
  webSocket : option nat
}.

Definition createErrorResponse (code : Z) : Response :=
  {| status := code; webSocket := None |}.

(** [ChatRoom.fetch]: the new server socket is accepted, the client end is
    returned with status 101. *)
Definition fetch (request : Request) (room : ChatRoom) : Response * ChatRoom :=
  if decide (upgrade request = Some (lit "websocket")) then
    let server := fresh (dom (accepted room)) in
    ({| status := 101; webSocket := Some server |},
     {| accepted := <[server := {| readyState := OPEN; sent := []; closeFrame := None |}]>
                      (accepted room);
        maxMessageSize := maxMessageSize room |})
  else (createErrorResponse 400, room).

(** Canonicalization of a code unit under the [i] flag (without [u]): the
    upper-case mapping; a code unit outside ASCII never maps into ASCII. *)
Definition canonicalize (c : N) : N :=
  if in_range 97 122 c then (c - 32)%N else c.

Definition range_members (lo hi : N) : list N :=
  map (fun k => (lo + N.of_nat k)%N) (seq 0 (N.to_nat (hi + 1 - lo))).

(** A character class given by its ranges. *)
Definition class_matches (ignoreCase : bool) (ranges : list (N * N)) (c : N) : bool :=
  existsb (fun r =>
    if ignoreCase then
      existsb (fun m => (canonicalize m =? canonicalize c)%N) (range_members r.1 r.2)
    else in_range r.1 r.2 c) ranges.

(** [/^[...]{n}$/]: the whole input is [n] members of the class. *)
Definition test_anchored_repeat (ignoreCase : bool) (ranges : list (N * N)) (n : nat)
    (input : jsstring) : bool :=
  (length input =? n)%nat && forallb (class_matches ignoreCase ranges) input.

Definition hex_class : list (N * N) := [(97, 102); (48, 57)]%N.

(** [/^[a-f0-9]{64}$/i.test(roomId)] *)
Definition isValidRoomId (roomId : jsstring) : bool :=
  test_anchored_repeat true hex_class 64 roomId.

(** The namespace binding [env.CHAT_ROOM]: the instances that exist, and the
    names that were resolved through [idFromName]/[get]. *)
Record Env := {
  instances : gmap jsstring ChatRoom;
  resolved : list jsstring
}.

Definition stub_fetch (roomId : jsstring) (request : Request) (env : Env) : Response * Env :=
  let room := default constructor (instances env !! roomId) in
  let '(response, room') := fetch request room in
  (response, {| instances := <[roomId := room']> (instances env);
                resolved := resolved env ++ [roomId] |}).

Definition handleWebSocket (request : Request) (env : Env) (pathname : jsstring)
    : Response * Env :=
  let roomId := drop (length (lit "/ws/")) pathname in
  if negb (isValidRoomId roomId) then (createErrorResponse 400, env)
  else stub_fetch roomId request env.

End Relay.

(** ** The client script *)

Module Client.

(** *** What the browser provides

    [crypto.subtle] (SHA-256, AES-GCM), [btoa]/[atob] and the random sources
    are not part of the repository. A draw from a random source is indexed by
    its position in the sequence of draws. *)
Record CryptoKey := { raw : list byte }.

Class WebPlatform := {
  digest_SHA256 : list byte -> list byte;
  AES_GCM_encrypt : CryptoKey -> list byte -> list byte -> list byte;
  AES_GCM_decrypt : CryptoKey -> list byte -> list byte -> Completion (list byte);
  btoa : jsstring -> Completion jsstring;
  atob : jsstring -> Completion jsstring;
  getRandomValues : nat -> nat -> list byte;
  randomUUID : nat -> jsstring
}.

(** A value read from a parsed JSON envelope. [JNumber] is an integral
    number, [JFraction] any other number. *)
Inductive JsValue :=
| JUndefined
| JNull
| JBool (b : bool)
| JNumber (n : Z)
| JFraction
| JString (s : jsstring).

#[global] Instance JsValue_eq_dec : EqDecision JsValue.
Proof. solve_decision. Defined.

Definition truthy (v : JsValue) : bool :=
  match v with
  | JUndefined | JNull => false
  | JBool b => b
  | JNumber n => negb (n =? 0)
  | JFraction => true
  | JString s => negb (bool_decide (s = []))
  end.

(** [a || b] *)
Definition js_or (a b : JsValue) : JsValue := if truthy a then a else b.

(** [Number.isInteger(v)], with the integer when it holds. *)
Definition isInteger (v : JsValue) : option Z :=
  match v with
  | JNumber n => Some n
  | _ => None
  end.

Definition DEFAULT_PASSWORD : jsstring := lit "noset".
Definition MAX_FILE_BYTES : Z := 5 * 1024 * 1024.
Definition MAX_CHUNK_BYTES : Z := 240 * 1024.
Definition CHUNK_TTL : Z := 2 * 60 * 1000.

(** The text U+6587 U+4EF6 used as the default file name. *)
Definition default_name : jsstring := [0x6587; 0x4EF6]%N.

(** [value] is [None] for [null] and [undefined]. *)
Definition normalizePassword (value : option jsstring) : jsstring :=
  let trimmed := trim (default [] value) in
  if bool_decide (trimmed = []) then DEFAULT_PASSWORD else trimmed.

(** The envelope of the wire, as [handleFileChunk] reads it. [iv] and [data]
    are strings, as every sender writes them. *)
Record Payload := {
  p_v : JsValue;
  p_type : JsValue;
  p_sender : JsValue;
  p_time : JsValue;
  p_id : JsValue;
  p_index : JsValue;
  p_total : JsValue;
  p_iv : jsstring;
  p_data : jsstring;
  p_name : JsValue;
  p_mime : JsValue;
  p_size : JsValue
}.

Record Meta := {
  m_name : JsValue;
  m_mime : JsValue;
  m_size : JsValue;
  m_time : JsValue
}.

(** The assembly record of one transfer. [chunks] is a sparse array: [None]
    is a hole. The record's timer is named by the record's own address. *)
Record ChunkState := {
  total : Z;
  received : Z;
  chunks : list (option (list byte));
  meta : Meta
}.

(** A state object is addressed by the transfer id it was created for and a
    serial number. *)
Abbreviation Ref := (jsstring * nat)%type.

(** A call of [handleFileChunk] suspended at [await decryptBytes(payload)]:
    its payload, the [state] it holds, and what the awaited promise (with its
    [catch]) settles to, [None] standing for [null]. *)
Record Task := {
  t_payload : Payload;
  t_id : jsstring;
  t_index : Z;
  t_state : nat;
  t_settled : option (list byte)
}.

(** What [addFileMessage] appended to the page. A shown file carries the
    address of the assembly it was merged from, for reference only. *)
Inductive FileMessage :=
| FileShown (from : Ref) (m : Meta) (merged : list byte)
| FileFailed (payload : Payload).

Record Session := {
  cryptoKey : option CryptoKey;
  incomingChunks : gmap jsstring nat;
  objects : gmap Ref ChunkState;
  timers : gmap Ref Z;
  suspended : gmap nat Task;
  next_serial : nat;
  next_task : nat;
  clock : Z;
  messagesEl : list FileMessage;
  rejections : list JsError
}.

Definition initial (key : option CryptoKey) : Session :=
  {| cryptoKey := key; incomingChunks := ∅; objects := ∅; timers := ∅;
     suspended := ∅; next_serial := 0; next_task := 0; clock := 0;
     messagesEl := []; rejections := [] |}.

(** *** Sparse arrays and typed arrays *)

Definition new_Array (n : Z) : Completion (list (option (list byte))) :=
  if (0 <=? n) && (n <=? 4294967295) then Normal (replicate (Z.to_nat n) None)
  else Abrupt RangeError.

(** [a[i] = x]: beyond the end the array grows, with holes in between. *)
Definition array_set {A} (i : nat) (x : A) (a : list (option A)) : list (option A) :=
  if (i <? length a)%nat then <[i := Some x]> a
  else a ++ replicate (i - length a) None ++ [Some x].

(** [a[i]] as a condition: a stored [Uint8Array] is truthy, a hole is not. *)
Definition slot_filled {A} (i : nat) (a : list (option A)) : bool :=
  match a !! i with
  | Some (Some _) => true
  | _ => false
  end.

(** [Array.prototype.some] and [reduce] do not visit holes. *)
Definition array_some {A} (f : A -> bool) (a : list (option A)) : bool :=
  existsb (fun slot => match slot with Some x => f x | None => false end) a.

Definition array_reduce {A B} (f : B -> A -> B) (init : B) (a : list (option A)) : B :=
  foldl (fun acc slot => match slot with Some x => f acc x | None => acc end) init a.

(** [bytes.slice(start, end)] for [0 <= start]. *)
Definition slice {A} (start end_ : Z) (l : list A) : list A :=
  take (Z.to_nat (end_ - start)) (drop (Z.to_nat start) l).

(** [merged.set(chunk, offset)] *)
Definition typed_array_set (merged : list byte) (chunk : option (list byte)) (offset : nat)
    : Completion (list byte) :=
  match chunk with
  | None => Abrupt TypeError
  | Some c =>
      if (offset + length c <=? length merged)%nat then
        Normal (take offset merged ++ c ++ drop (offset + length c) merged)
      else Abrupt RangeError
  end.

(** The loop [for (const chunk of state.chunks)]: the iterator visits holes
    too, as [undefined]. *)
Fixpoint merge_loop (cs : list (option (list byte))) (merged : list byte) (offset : nat)
    : Completion (list byte) :=
  match cs with
  | [] => Normal merged
  | chunk :: rest =>
      bind (typed_array_set merged chunk offset) (fun merged' =>
      merge_loop rest merged' (offset + length (default [] chunk)))
  end.

Definition merge (cs : list (option (list byte))) : Completion (list byte) :=
  let totalBytes := array_reduce (fun sum chunk => (sum + length chunk)%nat) 0%nat cs in
  merge_loop cs (replicate totalBytes x00) 0.

(** *** Hex *)

Definition hex_digit (d : N) : N := (if d <? 10 then 48 + d else 87 + d)%N.

(** [b.toString(16)] for [0 <= b < 256]. *)
Definition toString16 (b : N) : jsstring :=
  (if b <? 16 then [hex_digit b] else [hex_digit (b / 16); hex_digit (b mod 16)])%N.

Definition padStart (n : nat) (fill : N) (s : jsstring) : jsstring :=
  replicate (n - length s) fill ++ s.

Definition bytesToHex (bytes : list byte) : jsstring :=
  concat (map (fun b => padStart 2 48%N (toString16 (Byte.to_N b))) bytes).

Section WithPlatform.
Context {platform : WebPlatform}.

(** *** Base64 wrappers *)

Definition fromCharCode (bytes : list byte) : jsstring := map Byte.to_N bytes.

(** The loop of [bytesToBase64], [chunk = 0x8000] bytes at a time. *)
Fixpoint binary_loop (fuel : nat) (i : Z) (bytes : list byte) (binary : jsstring) : jsstring :=
  match fuel with
  | O => binary
  | S fuel' =>
      if i <? Z.of_nat (length bytes) then
        binary_loop fuel' (i + 0x8000) bytes
          (binary ++ fromCharCode (slice i (Z.min (i + 0x8000) (Z.of_nat (length bytes))) bytes))
      else binary
  end.

Definition bytesToBase64 (bytes : list byte) : Completion jsstring :=
  btoa (binary_loop (S (length bytes)) 0 bytes []).

Definition base64ToBytes (base64 : jsstring) : Completion (list byte) :=
  bind (atob base64) (fun binary => Normal (map byte_of_N binary)).

(** *** Cipher wrappers *)

Record Encrypted := { e_iv : jsstring; e_data : jsstring }.

(** [draw] is the position in the sequence of random draws. *)
Definition encryptBytes (key : option CryptoKey) (draw : nat) (bytes : list byte)
    : Completion Encrypted :=
  let iv := getRandomValues draw 12 in
  match key with
  | None => Abrupt TypeError
  | Some k =>
      let cipher := AES_GCM_encrypt k iv bytes in
      bind (bytesToBase64 iv) (fun iv64 =>
      bind (bytesToBase64 cipher) (fun data64 =>
      Normal {| e_iv := iv64; e_data := data64 |}))
  end.

(** [None] is the [null] returned without a key. *)
Definition decryptBytes (key : option CryptoKey) (iv64 data64 : jsstring)
    : Completion (option (list byte)) :=
  match key with
  | None => Normal None
  | Some k =>
      bind (base64ToBytes iv64) (fun iv =>
      bind (base64ToBytes data64) (fun data =>
      bind (AES_GCM_decrypt k iv data) (fun plain =>
      Normal (Some plain))))
  end.

Definition encryptText (key : option CryptoKey) (draw : nat) (text : jsstring) :=
  encryptBytes key draw (TextEncoder_encode text).

(** [None] is the [null] returned without a key. *)
Definition decryptText (key : option CryptoKey) (iv64 data64 : jsstring)
    : Completion (option jsstring) :=
  bind (decryptBytes key iv64 data64) (fun bytes =>
  match bytes with
  | None => Normal None
  | Some plain => Normal (Some (TextDecoder_decode plain))
  end).

(** *** Key derivation *)

(** [importKey('raw', hash, 'AES-GCM', ...)] takes 128, 192 or 256 bits. *)
Definition importKey (material : list byte) : Completion CryptoKey :=
  if bool_decide (length material ∈ [16; 24; 32]%nat) then Normal {| raw := material |}
  else Abrupt OperationError.

Definition deriveKey (password : jsstring) : Completion CryptoKey :=
  importKey (digest_SHA256 (TextEncoder_encode password)).

Definition hashRoomId (password : jsstring) : jsstring :=
  bytesToHex (digest_SHA256 (TextEncoder_encode password)).

(** What [applyPassword] derives from the raw input. *)
Definition derive (rawPassword : option jsstring) : jsstring * Completion CryptoKey :=
  let password := normalizePassword rawPassword in
  (hashRoomId password, deriveKey password).

(** *** Sending a file *)

Definition ceil_div (a b : Z) : Z := (a + b - 1) / b.

Record FileMeta := { f_name : jsstring; f_mime : jsstring; f_size : Z }.

Definition file_payload (type : jsstring) (sender : jsstring) (time : Z)
    (id index total_ : JsValue) (encrypted : Encrypted) (fm : FileMeta) : Payload :=
  {| p_v := JNumber 1; p_type := JString type; p_sender := JString sender;
     p_time := JNumber time; p_id := id; p_index := index; p_total := total_;
     p_iv := e_iv encrypted; p_data := e_data encrypted;
     p_name := JString (f_name fm); p_mime := JString (f_mime fm);
     p_size := JNumber (f_size fm) |}.

(** The [for] loop of [sendFileInChunks], [n] iterations from [index] on.
    The result is what was handed to [ws.send], and how the loop ended. *)
Fixpoint chunk_loop (n : nat) (index total_ : Z) (id sender : jsstring)
    (key : option CryptoKey) (draw : nat) (bytes : list byte) (fm : FileMeta) (time : Z)
    : list Payload * Completion unit :=
  match n with
  | O => ([], Normal tt)
  | S n' =>
      let start := index * MAX_CHUNK_BYTES in
      let end_ := Z.min (start + MAX_CHUNK_BYTES) (Z.of_nat (length bytes)) in
      let slice_ := slice start end_ bytes in
      match encryptBytes key draw slice_ with
      | Abrupt e => ([], Abrupt e)
      | Normal encrypted =>
          let payload :=
            file_payload (lit "file_chunk") sender time (JString id) (JNumber index)
              (JNumber total_) encrypted fm in
          let '(sent, outcome) :=
            chunk_loop n' (index + 1) total_ id sender key (S draw) bytes fm time in
          (payload :: sent, outcome)
      end
  end.

Definition sendFileInChunks (sender : jsstring) (key : option CryptoKey) (draw : nat)
    (bytes : list byte) (fm : FileMeta) (time : Z) : list Payload * Completion unit :=
  let id := randomUUID draw in
  let total_ := ceil_div (Z.of_nat (length bytes)) MAX_CHUNK_BYTES in
  chunk_loop (Z.to_nat total_) 0 total_ id sender key (S draw) bytes fm time.

Inductive Notice := FileTooLarge | NoKey | NotConnected.

(** [sendFile], without the page: a notice, or the frames sent. *)
Definition sendFile (sender : jsstring) (key : option CryptoKey) (roomId : jsstring)
    (connected : bool) (draw : nat) (bytes : list byte) (name type : jsstring) (time : Z)
    : Notice + list Payload * Completion unit :=
  if Z.of_nat (length bytes) >? MAX_FILE_BYTES then inl FileTooLarge
  else if negb (bool_decide (is_Some key)) || bool_decide (roomId = []) then inl NoKey
  else if negb connected then inl NotConnected
  else
    let fm := {| f_name := if bool_decide (name = []) then default_name else name;
                 f_mime := if bool_decide (type = []) then lit "application/octet-stream"
                           else type;
                 f_size := Z.of_nat (length bytes) |} in
    if Z.of_nat (length bytes) <=? MAX_CHUNK_BYTES then
      match encryptBytes key draw bytes with
      | Abrupt e => inr ([], Abrupt e)
      | Normal encrypted =>
          inr ([file_payload (lit "file") sender time JUndefined JUndefined JUndefined
                  encrypted fm], Normal tt)
      end
    else inr (sendFileInChunks sender key draw bytes fm time).

(** *** Receiving chunks *)

Definition upd_incomingChunks (f : gmap jsstring nat -> gmap jsstring nat) (c : Session) :=
  {| cryptoKey := cryptoKey c; incomingChunks := f (incomingChunks c);
     objects := objects c; timers := timers c; suspended := suspended c;
     next_serial := next_serial c; next_task := next_task c; clock := clock c;
     messagesEl := messagesEl c; rejections := rejections c |}.

Definition upd_objects (f : gmap Ref ChunkState -> gmap Ref ChunkState) (c : Session) :=
  {| cryptoKey := cryptoKey c; incomingChunks := incomingChunks c;
     objects := f (objects c); timers := timers c; suspended := suspended c;
     next_serial := next_serial c; next_task := next_task c; clock := clock c;
     messagesEl := messagesEl c; rejections := rejections c |}.

Definition upd_timers (f : gmap Ref Z -> gmap Ref Z) (c : Session) :=
  {| cryptoKey := cryptoKey c; incomingChunks := incomingChunks c;
     objects := objects c; timers := f (timers c); suspended := suspended c;
     next_serial := next_serial c; next_task := next_task c; clock := clock c;
     messagesEl := messagesEl c; rejections := rejections c |}.

Definition upd_suspended (f : gmap nat Task -> gmap nat Task) (c : Session) :=
  {| cryptoKey := cryptoKey c; incomingChunks := incomingChunks c;
     objects := objects c; timers := timers c; suspended := f (suspended c);
     next_serial := next_serial c; next_task := next_task c; clock := clock c;
     messagesEl := messagesEl c; rejections := rejections c |}.

Definition addFileMessage (m : FileMessage) (c : Session) :=
  {| cryptoKey := cryptoKey c; incomingChunks := incomingChunks c;
     objects := objects c; timers := timers c; suspended := suspended c;
     next_serial := next_serial c; next_task := next_task c; clock := clock c;
     messagesEl := messagesEl c ++ [m]; rejections := rejections c |}.

Definition reject (e : JsError) (c : Session) :=
  {| cryptoKey := cryptoKey c; incomingChunks := incomingChunks c;
     objects := objects c; timers := timers c; suspended := suspended c;
     next_serial := next_serial c; next_task := next_task c; clock := clock c;
     messagesEl := messagesEl c; rejections := rejections c ++ [e] |}.

(** [createChunkState]: the new object, its timer and its entry in the map.
    The result is the serial of the object, [None] for [null]. *)
Definition createChunkState (payload : Payload) (c : Session)
    : Completion (Session * option nat) :=
  match p_id payload with
  | JString id =>
      match isInteger (p_total payload) with
      | Some total_ =>
          if total_ <=? 0 then Normal (c, None)
          else
            bind (new_Array total_) (fun slots =>
            let n := next_serial c in
            let state :=
              {| total := total_; received := 0; chunks := slots;
                 meta := {| m_name := js_or (p_name payload) (JString default_name);
                            m_mime := js_or (p_mime payload)
                                        (JString (lit "application/octet-stream"));
                            m_size := js_or (p_size payload) (JNumber 0);
                            m_time := js_or (p_time payload) (JNumber (clock c)) |} |} in
            Normal
              ({| cryptoKey := cryptoKey c;
                  incomingChunks := <[id := n]> (incomingChunks c);
                  objects := <[(id, n) := state]> (objects c);
                  timers := <[(id, n) := clock c + CHUNK_TTL]> (timers c);
                  suspended := suspended c;
                  next_serial := S n; next_task := next_task c; clock := clock c;
                  messagesEl := messagesEl c; rejections := rejections c |},
               Some n))
      | None => Normal (c, None)
      end
  | _ => Normal (c, None)
  end.

(** What [await decryptBytes(payload).catch(() => null)] will yield. *)
Definition decrypt_or_null (key : option CryptoKey) (payload : Payload) : option (list byte) :=
  catch (decryptBytes key (p_iv payload) (p_data payload)) None.

Definition suspend (task : Task) (c : Session) : Session :=
  {| cryptoKey := cryptoKey c; incomingChunks := incomingChunks c;
     objects := objects c; timers := timers c;
     suspended := <[next_task c := task]> (suspended c);
     next_serial := next_serial c; next_task := S (next_task c); clock := clock c;
     messagesEl := messagesEl c; rejections := rejections c |}.

(** [handleFileChunk] up to its [await]. *)
Definition handleFileChunk (payload : Payload) (c : Session) : Completion Session :=
  match p_id payload with
  | JString id =>
      match isInteger (p_total payload) with
      | Some total_ =>
          if total_ <=? 0 then Normal c
          else
            match isInteger (p_index payload) with
            | Some index =>
                if (index <? 0) || (index >=? total_) then Normal c
                else
                  bind (match incomingChunks c !! id with
                        | Some n => Normal (c, Some n)
                        | None => createChunkState payload c
                        end) (fun '(c1, state) =>
                  match state with
                  | None => Normal c1
                  | Some n =>
                      match objects c1 !! (id, n) with
                      | None => Normal c1
                      | Some st =>
                          if bool_decide (total st ≠ total_) then Normal c1
                          else if slot_filled (Z.to_nat index) (chunks st) then Normal c1
                          else
                            Normal (suspend {| t_payload := payload; t_id := id;
                                               t_index := index; t_state := n;
                                               t_settled :=
                                                 decrypt_or_null (cryptoKey c1) payload |}
                                      c1)
                      end
                  end)
            | None => Normal c
            end
      | None => Normal c
      end
  | _ => Normal c
  end.

(** [handleFileChunk] from its [await] to its end, for the suspended call
    [t]. *)
Definition resume (t : nat) (c : Session) : Session :=
  match suspended c !! t with
  | None => c
  | Some task =>
      let c := upd_suspended (delete t) c in
      let id := t_id task in
      let r : Ref := (id, t_state task) in
      match t_settled task with
      | None =>
          addFileMessage (FileFailed (t_payload task)) (upd_incomingChunks (delete id) c)
      | Some bytes =>
          match objects c !! r with
          | None => c
          | Some st =>
              let st' := {| total := total st; received := received st + 1;
                            chunks := array_set (Z.to_nat (t_index task)) bytes (chunks st);
                            meta := meta st |} in
              let c := upd_objects (insert r st') c in
              if bool_decide (received st' ≠ total st') then c
              else
                let c := upd_incomingChunks (delete id) (upd_timers (delete r) c) in
                if array_some (fun _ : list byte => false) (chunks st') then c
                else
                  match merge (chunks st') with
                  | Normal merged =>
                      addFileMessage
                        (FileShown r
                           {| m_name := m_name (meta st');
                              m_mime := js_or (m_mime (meta st'))
                                          (JString (lit "application/octet-stream"));
                              m_size := m_size (meta st');
                              m_time := m_time (meta st') |}
                           merged) c
                  | Abrupt e => reject e c
                  end
          end
      end
  end.

(** The timer callback of the record at [r]. *)
Definition expire (r : Ref) (c : Session) : Session :=
  match timers c !! r with
  | Some deadline =>
      if deadline <=? clock c then
        upd_incomingChunks (delete r.1) (upd_timers (delete r) c)
      else c
  | None => c
  end.

Definition elapse (ms : Z) (c : Session) : Session :=
  {| cryptoKey := cryptoKey c; incomingChunks := incomingChunks c;
     objects := objects c; timers := timers c; suspended := suspended c;
     next_serial := next_serial c; next_task := next_task c;
     clock := clock c + Z.max 0 ms;
     messagesEl := messagesEl c; rejections := rejections c |}.

(** The event loop runs one of these at a time, each to its next [await] or
    to its end. *)
Inductive Event :=
| Receive (payload : Payload)
| Settle (t : nat)
| Expire (r : Ref)
| Elapse (ms : Z).

Definition step (c : Session) (e : Event) : Session :=
  match e with
  | Receive payload =>
      match handleFileChunk payload c with
      | Normal c' => c'
      | Abrupt err => reject err c
      end
  | Settle t => resume t c
  | Expire r => expire r c
  | Elapse ms => elapse ms c
  end.

Definition run (c : Session) (events : list Event) : Session := foldl step c events.

End WithPlatform.

(** *** A stand-in platform

    A toy instance, to run the definitions on concrete inputs: the digest
    pads or cuts to 32 bytes, the cipher prefixes the text with the first
    byte of the key, base64 is replaced by the identity on binary strings. *)
Module Sample.

Definition sample_digest (m : list byte) : list byte := take 32 (m ++ replicate 32 x2a).

Definition key_tag (k : CryptoKey) : byte := default x00 (head (raw k)).

Definition sample_encrypt (k : CryptoKey) (iv plain : list byte) : list byte :=
  key_tag k :: plain.

Definition sample_decrypt (k : CryptoKey) (iv cipher : list byte) : Completion (list byte) :=
  match cipher with
  | tag :: plain => if bool_decide (tag = key_tag k) then Normal plain else Abrupt OperationError
  | [] => Abrupt OperationError
  end.

Definition sample_b64 (s : jsstring) : Completion jsstring :=
  if forallb (fun c => (c <=? 255)%N) s then Normal s else Abrupt InvalidCharacterError.

Definition sample_platform : WebPlatform :=
  {| digest_SHA256 := sample_digest;
     AES_GCM_encrypt := sample_encrypt;
     AES_GCM_decrypt := sample_decrypt;
     btoa := sample_b64;
     atob := sample_b64;
     getRandomValues := fun draw n => replicate n (byte_of_N (N.of_nat draw));
     randomUUID := fun draw => lit "transfer-" ++ [N.of_nat draw] |}.

Definition sample_key : CryptoKey := {| raw := [x07] |}.

(** A chunk of the transfer "x": its ciphertext is the tag and one byte. It
    decrypts under [sample_key] exactly when the tag is 7. *)
Definition sample_chunk (index total_ : Z) (tag content : N) : Payload :=
  {| p_v := JNumber 1; p_type := JString (lit "file_chunk");
     p_sender := JString (lit "peer"); p_time := JNumber 5;
     p_id := JString (lit "x"); p_index := JNumber index; p_total := JNumber total_;
     p_iv := []; p_data := [tag; content];
     p_name := JString (lit "a.bin"); p_mime := JUndefined; p_size := JNumber 3 |}.

(** A file one byte longer than a chunk. *)
Definition sample_file : list byte := replicate (Z.to_nat 245761) x00.

Definition sample_meta : FileMeta :=
  {| f_name := lit "a.bin"; f_mime := lit "application/octet-stream"; f_size := 245761 |}.

End Sample.

End Client.

(** ** The worker's entry point *)

Module Worker.
Import Relay.

(** [s.startsWith(prefix)] *)
Definition startsWith (prefix s : jsstring) : bool :=
  bool_decide (take (length prefix) s = prefix).

(** Replies are kept by their status and socket, as [Response] has them. *)
Definition createJSONResponse (code : Z) : Response :=
  {| status := code; webSocket := None |}.

Definition createHomeResponse : Response := {| status := 200; webSocket := None |}.

(** The [fetch] of the default export. [url] is how [new URL(request.url)]
    completes: with the pathname, or by the exception that the [catch] turns
    into the 500 reply. *)
Definition fetch (url : Completion jsstring) (request : Request) (env : Env)
    : Response * Env :=
  match url with
  | Normal pathname =>
      if bool_decide (pathname = lit "/health") then (createJSONResponse 200, env)
      else if bool_decide (pathname = lit "/") then (createHomeResponse, env)
      else if startsWith (lit "/ws/") pathname then handleWebSocket request env pathname
      else (createErrorResponse 404, env)
  | Abrupt _ => (createErrorResponse 500, env)
  end.

End Worker.

(** ** More of the page's script *)

Module Page.
Import Client.

(** *** [formatBytes] *)

(** Decimal digits, the most significant first. *)
Fixpoint digits (u : Decimal.uint) : jsstring :=
  match u with
  | Decimal.Nil => []
  | Decimal.D0 u => 48%N :: digits u
  | Decimal.D1 u => 49%N :: digits u
  | Decimal.D2 u => 50%N :: digits u
  | Decimal.D3 u => 51%N :: digits u
  | Decimal.D4 u => 52%N :: digits u
  | Decimal.D5 u => 53%N :: digits u
  | Decimal.D6 u => 54%N :: digits u
  | Decimal.D7 u => 55%N :: digits u
  | Decimal.D8 u => 56%N :: digits u
  | Decimal.D9 u => 57%N :: digits u
  end.

Definition decimal (n : N) : jsstring := digits (N.to_uint n).

(** The digits [m] of an integer with a point before the last [f] of them,
    as the last steps of [Number.prototype.toFixed] place it. *)
Definition point (f : nat) (m : jsstring) : jsstring :=
  if (f =? 0)%nat then m
  else
    let m := if (length m <=? f)%nat then replicate (S f - length m) 48%N ++ m else m in
    take (length m - f) m ++ [46%N] ++ drop (length m - f) m.

(** [x.toFixed(f)] for the number [x = num / den] with [0 < den] and
    [|x| < 10^21]: the digits of the integer [n] for which [n / 10^f] is
    closest to [|x|], the larger one if there are two. *)
Definition toFixed (num den : Z) (f : nat) : jsstring :=
  let sign := if num <? 0 then [45%N] else [] in
  let n := (2 * Z.abs num * 10 ^ Z.of_nat f + den) / (2 * den) in
  sign ++ point f (decimal (Z.to_N n)).

Definition units : list jsstring := [lit "B"; lit "KB"; lit "MB"].

(** The [while] loop: [size] is the fraction [num / den]; a division by
    1024 is exact on a number. *)
Fixpoint scale (fuel : nat) (num den : Z) (unitIndex : nat) : Z * Z * nat :=
  match fuel with
  | O => (num, den, unitIndex)
  | S fuel' =>
      if (1024 * den <=? num) && (unitIndex <? length units - 1)%nat
      then scale fuel' num (den * 1024) (S unitIndex)
      else (num, den, unitIndex)
  end.

(** [formatBytes(bytes)] for an integral number of bytes. *)
Definition formatBytes (bytes : Z) : jsstring :=
  if bytes =? 0 then lit "0 B"
  else
    let '(num, den, unitIndex) := scale (length units - 1) bytes 1 0 in
    toFixed num den (if (10 * den <=? num) || (unitIndex =? 0)%nat then 0 else 1)
      ++ lit " " ++ default (lit "undefined") (units !! unitIndex).

(** *** [applyPassword] *)

Section WithPlatform.
Context {platform : WebPlatform}.

Inductive Stage := AwaitsKey | AwaitsRoom.

(** A call of [applyPassword] suspended at one of its two [await]s, with
    its [password] and [version]. *)
Record Applying := {
  a_password : jsstring;
  a_version : Z;
  a_stage : Stage
}.

(** The variables [applyPassword] works on. [storedPassword] is the entry
    [STORAGE_PASSWORD] of [localStorage]; [loaded] and [connected] are the
    rooms [loadHistory] and [connect] were called for, in order. *)
Record Keys := {
  cryptoKey : option CryptoKey;
  currentRoomId : jsstring;
  currentPassword : jsstring;
  passwordVersion : Z;
  storedPassword : option jsstring;
  fingerprint : jsstring;
  loaded : list jsstring;
  connected : list jsstring;
  applying : gmap nat Applying;
  next_call : nat;
  failures : list JsError
}.

Definition start : Keys :=
  {| cryptoKey := None; currentRoomId := []; currentPassword := []; passwordVersion := 0;
     storedPassword := None; fingerprint := []; loaded := []; connected := [];
     applying := ∅; next_call := 0; failures := [] |}.

(** [applyPassword] up to its first [await]. *)
Definition applyPassword (rawPassword : option jsstring) (k : Keys) : Keys :=
  let password := normalizePassword rawPassword in
  if bool_decide (password = currentPassword k) && bool_decide (is_Some (cryptoKey k))
     && negb (bool_decide (currentRoomId k = []))
  then k
  else
    let version := passwordVersion k + 1 in
    {| cryptoKey := cryptoKey k; currentRoomId := currentRoomId k;
       currentPassword := password; passwordVersion := version;
       storedPassword := Some password; fingerprint := fingerprint k;
       loaded := loaded k; connected := connected k;
       applying := <[next_call k := {| a_password := password; a_version := version;
                                       a_stage := AwaitsKey |}]> (applying k);
       next_call := S (next_call k); failures := failures k |}.

(** The text U+6307 U+7EB9 U+FF1A before the fingerprint. *)
Definition fingerprint_label : jsstring := [0x6307; 0x7EB9; 0xFF1A]%N.

(** The call [t] goes on from its [await], to the next one or to its end. *)
Definition proceed (t : nat) (k : Keys) : Keys :=
  match applying k !! t with
  | None => k
  | Some call =>
      let rest := delete t (applying k) in
      match a_stage call with
      | AwaitsKey =>
          match deriveKey (a_password call) with
          | Abrupt e =>
              {| cryptoKey := cryptoKey k; currentRoomId := currentRoomId k;
                 currentPassword := currentPassword k; passwordVersion := passwordVersion k;
                 storedPassword := storedPassword k; fingerprint := fingerprint k;
                 loaded := loaded k; connected := connected k;
                 applying := rest; next_call := next_call k;
                 failures := failures k ++ [e] |}
          | Normal derivedKey =>
              if bool_decide (a_version call ≠ passwordVersion k) then
                {| cryptoKey := cryptoKey k; currentRoomId := currentRoomId k;
                   currentPassword := currentPassword k;
                   passwordVersion := passwordVersion k;
                   storedPassword := storedPassword k; fingerprint := fingerprint k;
                   loaded := loaded k; connected := connected k;
                   applying := rest; next_call := next_call k; failures := failures k |}
              else
                {| cryptoKey := Some derivedKey; currentRoomId := currentRoomId k;
                   currentPassword := currentPassword k;
                   passwordVersion := passwordVersion k;
                   storedPassword := storedPassword k; fingerprint := fingerprint k;
                   loaded := loaded k; connected := connected k;
                   applying := <[t := {| a_password := a_password call;
                                         a_version := a_version call;
                                         a_stage := AwaitsRoom |}]> rest;
                   next_call := next_call k; failures := failures k |}
          end
      | AwaitsRoom =>
          let roomId := hashRoomId (a_password call) in
          if bool_decide (a_version call ≠ passwordVersion k) then
            {| cryptoKey := cryptoKey k; currentRoomId := currentRoomId k;
               currentPassword := currentPassword k; passwordVersion := passwordVersion k;
               storedPassword := storedPassword k; fingerprint := fingerprint k;
               loaded := loaded k; connected := connected k;
               applying := rest; next_call := next_call k; failures := failures k |}
          else
            {| cryptoKey := cryptoKey k; currentRoomId := roomId;
               currentPassword := currentPassword k; passwordVersion := passwordVersion k;
               storedPassword := storedPassword k;
               fingerprint := fingerprint_label ++ take 12 roomId;
               loaded := loaded k ++ [roomId];
               connected := connected k ++ (if bool_decide (roomId = []) then []
                                            else [roomId]);
               applying := rest; next_call := next_call k; failures := failures k |}
      end
  end.

(** The input changes or loses the focus, or a derivation settles. *)
Inductive KeyEvent :=
| Apply (rawPassword : option jsstring)
| Derived (t : nat).

Definition key_step (k : Keys) (e : KeyEvent) : Keys :=
  match e with
  | Apply rawPassword => applyPassword rawPassword k
  | Derived t => proceed t k
  end.

Definition key_run (k : Keys) (events : list KeyEvent) : Keys := foldl key_step k events.

End WithPlatform.

(** *** Messages: [handleIncoming], [sendMessage] and the history *)

(** An entry of [messageStore]: an envelope and its [mine] property. *)
Record Item := { i_payload : Payload; i_mine : bool }.

(** [JSON], as far as the script uses it. [JSON_parse] reads a frame as an
    envelope, through the properties the script looks at; it is [None] when
    [JSON.parse] throws or yields a value that is not truthy.
    [JSON_stringify_items] writes the history. *)
Class JsonPlatform := {
  JSON_stringify : Payload -> jsstring;
  JSON_parse : jsstring -> option Payload;
  JSON_stringify_items : list Item -> jsstring
}.

(** [String.prototype.toLowerCase], as far as a comparison with a name in
    ASCII letters can tell: a code unit becomes an ASCII letter only from
    its upper case or from U+212A (the Kelvin sign), and U+0130 becomes [i]
    followed by U+0307. *)
Definition lower_unit (c : N) : jsstring :=
  (if in_range 65 90 c then [c + 32]
   else if c =? 0x212A then [107]
   else if c =? 0x130 then [105; 0x307]
   else [c])%N.

Definition toLowerCase (s : jsstring) : jsstring := concat (map lower_unit s).

Definition STORAGE_MESSAGES_PREFIX : jsstring := lit "cfchat.messages.".
Definition STORAGE_PASSWORD : jsstring := lit "cfchat.password".
Definition MAX_HISTORY : nat := 200.

Definition storageKey (roomId : jsstring) : jsstring := STORAGE_MESSAGES_PREFIX ++ roomId.

(** What was appended to the list of messages: by [addTextMessage], with
    its arguments, or by [addFileMessage], with the bytes behind the URL and
    the [payload] it was given. *)
Inductive Entry :=
| TextEntry (text : option jsstring) (time : JsValue) (mine failed : bool)
| FileEntry (bytes : list byte) (time : JsValue) (mine : bool) (name mime size : JsValue)
| FileFailedEntry (time : JsValue) (mine : bool).

(** The socket [ws]. *)
Inductive Socket := NoSocket | Connecting | Open | Closing.

#[global] Instance Socket_eq_dec : EqDecision Socket.
Proof. solve_decision. Defined.

Inductive Notice := NoKeyYet | NotReady.

(** What a call of the page ended with when it threw: an exception of the
    cipher wrappers, or one of [ws.send]. *)
Inductive Thrown :=
| ThrownBy (e : JsError)
| NoSocketToSend
| InvalidStateError.

(** A call suspended at its [await]: [handleIncoming] at [decryptText] or at
    [decryptBytes], [sendMessage] at [encryptText], each with what the
    awaited promise settles to. *)
Inductive Waiting :=
| IncomingText (payload : Payload) (settled : option jsstring)
| IncomingFile (payload : Payload) (payloadType : jsstring) (settled : option (list byte))
| OutgoingText (text : jsstring) (settled : Completion Encrypted).

Section Messages.
Context {platform : WebPlatform} {json : JsonPlatform}.
(** The page: the session of the chunked transfers, with the key and the
    clock, and what the messages need besides. [roomId] is [currentRoomId];
    [draws] counts the draws from the random source; [localStorage] is
    taken to have room for what is written. *)
Record Desk := {
  session : Session;
  clientId : jsstring;
  roomId : jsstring;
  ws : Socket;
  outbox : list jsstring;
  messageInput : jsstring;
  messageStore : list Item;
  localStorage : gmap jsstring jsstring;
  entries : list Entry;
  notices : list Notice;
  waiting : gmap nat Waiting;
  next_waiting : nat;
  draws : nat;
  rejected : list Thrown
}.

Definition with_session (f : Session -> Session) (d : Desk) : Desk :=
  {| session := f (session d); clientId := clientId d; roomId := roomId d; ws := ws d;
     outbox := outbox d; messageInput := messageInput d; messageStore := messageStore d;
     localStorage := localStorage d; entries := entries d; notices := notices d;
     waiting := waiting d; next_waiting := next_waiting d; draws := draws d;
     rejected := rejected d |}.

Definition addEntry (e : Entry) (d : Desk) : Desk :=
  {| session := session d; clientId := clientId d; roomId := roomId d; ws := ws d;
     outbox := outbox d; messageInput := messageInput d; messageStore := messageStore d;
     localStorage := localStorage d; entries := entries d ++ [e]; notices := notices d;
     waiting := waiting d; next_waiting := next_waiting d; draws := draws d;
     rejected := rejected d |}.

Definition addTextMessage (text : option jsstring) (time : JsValue) (mine failed : bool) :=
  addEntry (TextEntry text time mine failed).

Definition showNotice (n : Notice) (d : Desk) : Desk :=
  {| session := session d; clientId := clientId d; roomId := roomId d; ws := ws d;
     outbox := outbox d; messageInput := messageInput d; messageStore := messageStore d;
     localStorage := localStorage d; entries := entries d; notices := notices d ++ [n];
     waiting := waiting d; next_waiting := next_waiting d; draws := draws d;
     rejected := rejected d |}.

Definition await (w : Waiting) (d : Desk) : Desk :=
  {| session := session d; clientId := clientId d; roomId := roomId d; ws := ws d;
     outbox := outbox d; messageInput := messageInput d; messageStore := messageStore d;
     localStorage := localStorage d; entries := entries d; notices := notices d;
     waiting := <[next_waiting d := w]> (waiting d); next_waiting := S (next_waiting d);
     draws := draws d; rejected := rejected d |}.

Definition push (item : Item) (d : Desk) : Desk :=
  {| session := session d; clientId := clientId d; roomId := roomId d; ws := ws d;
     outbox := outbox d; messageInput := messageInput d;
     messageStore := messageStore d ++ [item];
     localStorage := localStorage d; entries := entries d; notices := notices d;
     waiting := waiting d; next_waiting := next_waiting d; draws := draws d;
     rejected := rejected d |}.

(** [(item.type || 'text') === 'text'] *)
Definition is_text (item : Item) : bool :=
  bool_decide (js_or (p_type (i_payload item)) (JString (lit "text")) = JString (lit "text")).

(** [array.slice(-n)] *)
Definition slice_last {A} (n : nat) (l : list A) : list A := drop (length l - n) l.

Definition saveHistory (d : Desk) : Desk :=
  if bool_decide (roomId d = []) then d
  else
    let trimmed := slice_last MAX_HISTORY (filter (fun item => is_text item = true)
                                             (messageStore d)) in
    {| session := session d; clientId := clientId d; roomId := roomId d; ws := ws d;
       outbox := outbox d; messageInput := messageInput d; messageStore := messageStore d;
       localStorage := <[storageKey (roomId d) := JSON_stringify_items trimmed]>
                         (localStorage d);
       entries := entries d; notices := notices d;
       waiting := waiting d; next_waiting := next_waiting d; draws := draws d;
       rejected := rejected d |}.

Definition with_type (type : JsValue) (p : Payload) : Payload :=
  {| p_v := p_v p; p_type := type; p_sender := p_sender p; p_time := p_time p;
     p_id := p_id p; p_index := p_index p; p_total := p_total p;
     p_iv := p_iv p; p_data := p_data p;
     p_name := p_name p; p_mime := p_mime p; p_size := p_size p |}.

(** The text U+672A U+77E5 U+6D88 U+606F U+7C7B U+578B shown for a type
    that is not known. *)
Definition unknown_type : jsstring := [0x672A; 0x77E5; 0x6D88; 0x606F; 0x7C7B; 0x578B]%N.

(** [typeof payload.type === 'string' ? payload.type.toLowerCase() : ''] *)
Definition payloadType (payload : Payload) : jsstring :=
  match p_type payload with
  | JString type => toLowerCase type
  | _ => []
  end.

(** [handleIncoming] up to its first [await]. For a chunk that is the call
    of [handleFileChunk], which goes on in the session. *)
Definition handleIncoming (raw : jsstring) (d : Desk) : Desk :=
  match JSON_parse raw with
  | None => d
  | Some payload =>
      if bool_decide (p_sender payload = JString (clientId d)) then d
      else if bool_decide (p_data payload = []) || bool_decide (p_iv payload = []) then d
      else
        let type := payloadType payload in
        if bool_decide (type = lit "image_chunk")
           || bool_decide (type = lit "file_chunk") then
          with_session (fun c => step c (Receive payload)) d
        else if bool_decide (type = lit "file") || bool_decide (type = lit "image") then
          await (IncomingFile payload type
                   (decrypt_or_null (Client.cryptoKey (session d)) payload)) d
        else if negb (bool_decide (type = [])) && negb (bool_decide (type = lit "text")) then
          addTextMessage (Some unknown_type) (p_time payload) false true d
        else
          await (IncomingText payload
                   (catch (decryptText (Client.cryptoKey (session d)) (p_iv payload)
                             (p_data payload)) None)) d
  end.

(** [sendMessage] up to its [await]. *)
Definition sendMessage (d : Desk) : Desk :=
  let text := trim (messageInput d) in
  if bool_decide (text = []) then d
  else if negb (bool_decide (is_Some (Client.cryptoKey (session d)))) || bool_decide (roomId d = [])
  then showNotice NoKeyYet d
  else if negb (bool_decide (ws d = Open)) then showNotice NotReady d
  else
    let d' :=
      await (OutgoingText text
               (encryptText (Client.cryptoKey (session d)) (draws d) text)) d in
    {| session := session d'; clientId := clientId d'; roomId := roomId d'; ws := ws d';
       outbox := outbox d'; messageInput := messageInput d'; messageStore := messageStore d';
       localStorage := localStorage d'; entries := entries d'; notices := notices d';
       waiting := waiting d'; next_waiting := next_waiting d'; draws := S (draws d');
       rejected := rejected d' |}.

(** [ws.send(frame)]: nothing is sent through a socket that is closing or
    closed, and the call throws on one that is still connecting or when
    there is no socket. *)
Definition ws_send (frame : jsstring) (d : Desk) : Thrown + Desk :=
  match ws d with
  | NoSocket => inl NoSocketToSend
  | Connecting => inl InvalidStateError
  | Closing => inr d
  | Open =>
      inr {| session := session d; clientId := clientId d; roomId := roomId d;
                ws := ws d; outbox := outbox d ++ [frame];
                messageInput := messageInput d; messageStore := messageStore d;
                localStorage := localStorage d; entries := entries d;
                notices := notices d; waiting := waiting d;
                next_waiting := next_waiting d; draws := draws d;
                rejected := rejected d |}
  end.

Definition fail (e : Thrown) (d : Desk) : Desk :=
  {| session := session d; clientId := clientId d; roomId := roomId d; ws := ws d;
     outbox := outbox d; messageInput := messageInput d; messageStore := messageStore d;
     localStorage := localStorage d; entries := entries d; notices := notices d;
     waiting := waiting d; next_waiting := next_waiting d; draws := draws d;
     rejected := rejected d ++ [e] |}.

Definition clear_input (d : Desk) : Desk :=
  {| session := session d; clientId := clientId d; roomId := roomId d; ws := ws d;
     outbox := outbox d; messageInput := []; messageStore := messageStore d;
     localStorage := localStorage d; entries := entries d; notices := notices d;
     waiting := waiting d; next_waiting := next_waiting d; draws := draws d;
     rejected := rejected d |}.

Definition forget (t : nat) (d : Desk) : Desk :=
  {| session := session d; clientId := clientId d; roomId := roomId d; ws := ws d;
     outbox := outbox d; messageInput := messageInput d; messageStore := messageStore d;
     localStorage := localStorage d; entries := entries d; notices := notices d;
     waiting := delete t (waiting d); next_waiting := next_waiting d; draws := draws d;
     rejected := rejected d |}.

(** The call [t] goes on from its [await] to its end. *)
Definition continue (t : nat) (d : Desk) : Desk :=
  match waiting d !! t with
  | None => d
  | Some w =>
      let d := forget t d in
      match w with
      | IncomingText payload text =>
          let failed := match text with Some (_ :: _) => false | _ => true end in
          saveHistory
            (push {| i_payload := with_type (JString (lit "text")) payload;
                     i_mine := false |}
               (addTextMessage text (p_time payload) false failed d))
      | IncomingFile payload payloadType None =>
          addEntry (FileFailedEntry (p_time payload) false) d
      | IncomingFile payload payloadType (Some bytes) =>
          let mime := js_or (p_mime payload)
                        (JString (if bool_decide (payloadType = lit "image")
                                  then lit "image/png"
                                  else lit "application/octet-stream")) in
          addEntry (FileEntry bytes (p_time payload) false
                      (js_or (p_name payload) (JString default_name))
                      mime
                      (js_or (p_size payload) (JNumber (Z.of_nat (length bytes))))) d
      | OutgoingText text (Abrupt e) => fail (ThrownBy e) d
      | OutgoingText text (Normal encrypted) =>
          let payload :=
            {| p_v := JNumber 1; p_type := JString (lit "text");
               p_sender := JString (clientId d); p_time := JNumber (clock (session d));
               p_id := JUndefined; p_index := JUndefined; p_total := JUndefined;
               p_iv := e_iv encrypted; p_data := e_data encrypted;
               p_name := JUndefined; p_mime := JUndefined; p_size := JUndefined |} in
          match ws_send (JSON_stringify payload) d with
          | inl e => fail e d
          | inr d =>
              clear_input
                (addTextMessage (Some text) (p_time payload) true false
                   (saveHistory (push {| i_payload := payload; i_mine := true |} d)))
          end
      end
  end.

(** What happens on the page, one call at a time: a frame arrives, the
    input is edited, the message is sent off (the button, or Enter), a
    suspended call goes on, and the events of the session. *)
Inductive DeskEvent :=
| Deliver (raw : jsstring)
| Edit (text : jsstring)
| Send
| Continue (t : nat)
| Settled (t : nat)
| Expired (r : Ref)
| Elapsed (ms : Z).

Definition edit (text : jsstring) (d : Desk) : Desk :=
  {| session := session d; clientId := clientId d; roomId := roomId d; ws := ws d;
     outbox := outbox d; messageInput := text; messageStore := messageStore d;
     localStorage := localStorage d; entries := entries d; notices := notices d;
     waiting := waiting d; next_waiting := next_waiting d; draws := draws d;
     rejected := rejected d |}.

Definition desk_step (d : Desk) (e : DeskEvent) : Desk :=
  match e with
  | Deliver raw => handleIncoming raw d
  | Edit text => edit text d
  | Send => sendMessage d
  | Continue t => continue t d
  | Settled t => with_session (fun c => step c (Settle t)) d
  | Expired r => with_session (fun c => step c (Expire r)) d
  | Elapsed ms => with_session (fun c => step c (Elapse ms)) d
  end.

Definition desk_run (d : Desk) (events : list DeskEvent) : Desk := foldl desk_step d events.

End Messages.

(** *** A stand-in for [JSON]

    A toy codec, to run the definitions on concrete inputs: a value is
    written as a tag followed by its content, a string with its length
    first. *)
Module Sample.

Definition write_value (v : JsValue) : jsstring :=
  match v with
  | JUndefined => [0%N]
  | JNull => [1%N]
  | JBool b => [2%N; if b then 1%N else 0%N]
  | JNumber n => [3%N; if n <? 0 then 1%N else 0%N; Z.to_N (Z.abs n)]
  | JFraction => [4%N]
  | JString s => 5%N :: N.of_nat (length s) :: s
  end.

Definition read_value (l : jsstring) : option (JsValue * jsstring) :=
  match l with
  | tag :: rest =>
      if (tag =? 0)%N then Some (JUndefined, rest)
      else if (tag =? 1)%N then Some (JNull, rest)
      else if (tag =? 4)%N then Some (JFraction, rest)
      else
        match rest with
        | x :: rest' =>
            if (tag =? 2)%N then Some (JBool (negb (x =? 0)%N), rest')
            else if (tag =? 5)%N then
              if (N.to_nat x <=? length rest')%nat
              then Some (JString (take (N.to_nat x) rest'), drop (N.to_nat x) rest')
              else None
            else if (tag =? 3)%N then
              match rest' with
              | n :: rest'' =>
                  Some (JNumber (if (x =? 0)%N then Z.of_N n else - Z.of_N n), rest'')
              | [] => None
              end
            else None
        | [] => None
        end
  | [] => None
  end.

Definition write_payload (p : Payload) : jsstring :=
  write_value (p_v p) ++ write_value (p_type p) ++ write_value (p_sender p)
    ++ write_value (p_time p) ++ write_value (p_id p) ++ write_value (p_index p)
    ++ write_value (p_total p) ++ write_value (JString (p_iv p))
    ++ write_value (JString (p_data p)) ++ write_value (p_name p)
    ++ write_value (p_mime p) ++ write_value (p_size p).

Definition read_string (l : jsstring) : option (jsstring * jsstring) :=
  match read_value l with
  | Some (JString s, rest) => Some (s, rest)
  | _ => None
  end.

Definition read_payload (l : jsstring) : option (Payload * jsstring) :=
  '(v, l) ← read_value l; '(type, l) ← read_value l; '(sender, l) ← read_value l;
  '(time, l) ← read_value l; '(id, l) ← read_value l; '(index, l) ← read_value l;
  '(total_, l) ← read_value l; '(iv, l) ← read_string l; '(data, l) ← read_string l;
  '(name, l) ← read_value l; '(mime, l) ← read_value l; '(size, l) ← read_value l;
  Some ({| p_v := v; p_type := type; p_sender := sender; p_time := time; p_id := id;
           p_index := index; p_total := total_; p_iv := iv; p_data := data;
           p_name := name; p_mime := mime; p_size := size |}, l).

Definition sample_parse (raw : jsstring) : option Payload :=
  match read_payload raw with
  | Some (p, []) => Some p
  | _ => None
  end.

Definition write_item (item : Item) : jsstring :=
  (if i_mine item then 1%N else 0%N) :: write_payload (i_payload item).

Definition sample_json : JsonPlatform :=
  {| JSON_stringify := write_payload;
     JSON_parse := sample_parse;
     JSON_stringify_items := fun items => concat (map write_item items) |}.

(** A page with the sample key, in the room "room", its socket open. *)
Definition sample_desk (id input : jsstring) : Desk :=
  {| session := initial (Some Client.Sample.sample_key); clientId := id;
     roomId := lit "room"; ws := Open; outbox := []; messageInput := input;
     messageStore := []; localStorage := ∅; entries := []; notices := [];
     waiting := ∅; next_waiting := 0; draws := 0; rejected := [] |}.

End Sample.

End Page.

(** * Vocabulary of the properties *)

Import Relay Client.

(** ** Of the relay *)

(** The pattern as the interface table writes it, without the [i] flag. *)
Definition lowercase_hex64 (roomId : jsstring) : bool :=
  test_anchored_repeat false hex_class 64 roomId.

Definition hex_either_case (c : N) : Prop :=
  (48 <= c <= 57 \/ 97 <= c <= 102 \/ 65 <= c <= 70)%N.

#[global] Instance hex_either_case_dec c : Decision (hex_either_case c).
Proof. unfold hex_either_case. apply _. Defined.

Definition upgrade_request : Request := {| upgrade := Some (lit "websocket") |}.
Definition empty_env : Env := {| instances := ∅; resolved := [] |}.

(** What a broadcast of [text] from [ws] does to the socket [peer]. *)
Definition delivered_to (ws peer : nat) (text : jsstring) (s : WebSocket) : WebSocket :=
  if decide (peer ≠ ws /\ readyState s = OPEN) then
    {| readyState := OPEN; sent := sent s ++ [text]; closeFrame := closeFrame s |}
  else s.

(** What the refusal of a frame from [ws] does to the socket [peer]. *)
Definition refused_at (ws peer : nat) (s : WebSocket) : WebSocket :=
  if decide (peer = ws) then
    {| readyState := CLOSED; sent := sent s;
       closeFrame := match closeFrame s with
                     | Some f => Some f
                     | None => Some (1009, lit "Message too large")
                     end |}
  else s.

(** The payload a frame carries on the wire: a text frame is UTF-8. *)
Definition payload_bytes (m : Message) : list byte :=
  match m with
  | MsgString s => TextEncoder_encode s
  | MsgBuffer b => b
  end.

Definition open_socket : WebSocket := {| readyState := OPEN; sent := []; closeFrame := None |}.
Definition closed_socket : WebSocket :=
  {| readyState := CLOSED; sent := []; closeFrame := Some (1000, lit "bye") |}.

(** Three sockets: 0 sends, 1 has gone away, 2 listens. *)
Definition room_of_three : ChatRoom :=
  {| accepted := <[0%nat := open_socket]> (<[1%nat := closed_socket]>
                   (<[2%nat := open_socket]> ∅));
     maxMessageSize := maxMessageSize constructor |}.

(** A text of a million CJK ideographs: a million code units, three million
    bytes of UTF-8. *)
Definition wide_text : jsstring := replicate (Z.to_nat 1000000) 0x4E2D%N.

(** What happens to a room, one handler call at a time: a request for an
    upgrade reaches [ChatRoom.fetch], a frame reaches [webSocketMessage]. *)
Inductive RoomEvent :=
| Upgrade (request : Request)
| Incoming (ws : nat) (message : Message).

Definition room_step (room : ChatRoom) (e : RoomEvent) : ChatRoom :=
  match e with
  | Upgrade request => (Relay.fetch request room).2
  | Incoming ws message => webSocketMessage ws message room
  end.

Definition room_run (room : ChatRoom) (events : list RoomEvent) : ChatRoom :=
  foldl room_step room events.

(** The texts of the frames of other sockets that are within [limit], in the
    order of the frames. *)
Definition heard_by (peer : nat) (limit : Z) (events : list RoomEvent) : list jsstring :=
  omap (fun e =>
          match e with
          | Incoming ws message =>
              if decide (ws ≠ peer /\ js_length (message_text message) <= limit)
              then Some (message_text message) else None
          | Upgrade _ => None
          end) events.

(** The socket [peer] sends no frame over [limit] in [events]. *)
Definition keeps_within (peer : nat) (limit : Z) (events : list RoomEvent) : Prop :=
  forall message, Incoming peer message ∈ events ->
    js_length (message_text message) <= limit.

(** ** Of texts *)

(** [String.prototype.toWellFormed]: a surrogate that is not part of a pair
    is replaced by U+FFFD. *)
Fixpoint toWellFormed (s : jsstring) : jsstring :=
  match s with
  | [] => []
  | c :: rest =>
      if is_high_surrogate c then
        match rest with
        | d :: rest' =>
            if is_low_surrogate d then c :: d :: toWellFormed rest'
            else 0xFFFD%N :: toWellFormed rest
        | [] => [0xFFFD%N]
        end
      else if is_low_surrogate c then 0xFFFD%N :: toWellFormed rest
      else c :: toWellFormed rest
  end.

(** The elements of a string are 16-bit code units. *)
Definition code_units (s : jsstring) : Prop := Forall (fun c => (c < 65536)%N) s.

(** What [TextDecoder] does with a byte order mark, on the decoded text. *)
Definition without_bom (s : jsstring) : jsstring :=
  match s with
  | 0xFEFF%N :: rest => rest
  | _ => s
  end.

(** A code point that is not a surrogate. *)
Definition scalar_value (cp : N) : Prop := (cp < 0xD800 \/ 0xE000 <= cp < 0x110000)%N.

(** ** Of the client *)

Section ClientVocabulary.
Context {platform : WebPlatform}.

(** What is assumed of the browser. *)
Definition digest_is_256_bits : Prop :=
  forall m, length (digest_SHA256 m) = 32%nat.

Definition cipher_round_trip : Prop :=
  forall k iv plain, AES_GCM_decrypt k iv (AES_GCM_encrypt k iv plain) = Normal plain.

Definition base64_round_trip : Prop :=
  forall binary, Forall (fun c => (c <= 255)%N) binary ->
    exists encoded, btoa binary = Normal encoded /\ atob encoded = Normal binary.

Definition lowercase_hex (c : N) : Prop := (48 <= c <= 57 \/ 97 <= c <= 102)%N.

(** The payloads handed to [handleFileChunk] in a run, in order. *)
Definition receives (events : list Event) : list Payload :=
  omap (fun e => match e with Receive p => Some p | _ => None end) events.

(** The record [createChunkState] builds for [payload]. *)
Definition fresh_state (payload : Payload) (total_ : Z) (c : Session) : ChunkState :=
  {| total := total_; received := 0; chunks := replicate (Z.to_nat total_) None;
     meta := {| m_name := js_or (p_name payload) (JString default_name);
                m_mime := js_or (p_mime payload) (JString (lit "application/octet-stream"));
                m_size := js_or (p_size payload) (JNumber 0);
                m_time := js_or (p_time payload) (JNumber (clock c)) |} |}.

(** The session once that record, its timer and its map entry exist. *)
Definition with_fresh_state (id : jsstring) (st : ChunkState) (c : Session) : Session :=
  {| cryptoKey := cryptoKey c;
     incomingChunks := <[id := next_serial c]> (incomingChunks c);
     objects := <[(id, next_serial c) := st]> (objects c);
     timers := <[(id, next_serial c) := clock c + CHUNK_TTL]> (timers c);
     suspended := suspended c;
     next_serial := S (next_serial c); next_task := next_task c; clock := clock c;
     messagesEl := messagesEl c; rejections := rejections c |}.

Definition task_for (payload : Payload) (id : jsstring) (index : Z) (n : nat) (c : Session) : Task :=
  {| t_payload := payload; t_id := id; t_index := index; t_state := n;
     t_settled := decrypt_or_null (cryptoKey c) payload |}.

(** The ways a call of [handleFileChunk] can go, up to its [await]. *)
Inductive Received (payload : Payload) (c : Session) : Session -> Prop :=
| Received_dropped : Received payload c c
| Received_thrown id total_ index :
    p_id payload = JString id -> p_total payload = JNumber total_ ->
    p_index payload = JNumber index -> 0 <= index < total_ ->
    incomingChunks c !! id = None -> 4294967295 < total_ ->
    Received payload c (reject RangeError c)
| Received_joined id total_ index n st :
    p_id payload = JString id -> p_total payload = JNumber total_ ->
    p_index payload = JNumber index -> 0 <= index < total_ ->
    incomingChunks c !! id = Some n -> objects c !! (id, n) = Some st ->
    total st = total_ -> slot_filled (Z.to_nat index) (chunks st) = false ->
    Received payload c (suspend (task_for payload id index n c) c)
| Received_created id total_ index :
    p_id payload = JString id -> p_total payload = JNumber total_ ->
    p_index payload = JNumber index -> 0 <= index < total_ ->
    incomingChunks c !! id = None -> total_ <= 4294967295 ->
    Received payload c
      (suspend (task_for payload id index (next_serial c) c)
         (with_fresh_state id (fresh_state payload total_ c) c)).

(** The ways a suspended call can go on, from its [await] to its end. *)
Definition stored (task : Task) (bytes : list byte) (st : ChunkState) : ChunkState :=
  {| total := total st; received := received st + 1;
     chunks := array_set (Z.to_nat (t_index task)) bytes (chunks st);
     meta := meta st |}.

Definition shown_meta (st : ChunkState) : Meta :=
  {| m_name := m_name (meta st);
     m_mime := js_or (m_mime (meta st)) (JString (lit "application/octet-stream"));
     m_size := m_size (meta st);
     m_time := m_time (meta st) |}.

Definition released (task : Task) (c : Session) : Session :=
  upd_incomingChunks (delete (t_id task))
    (upd_timers (delete (t_id task, t_state task)) c).

Inductive Resumed (t : nat) (c : Session) : Session -> Prop :=
| Resumed_nothing : suspended c !! t = None -> Resumed t c c
| Resumed_failed task :
    suspended c !! t = Some task -> t_settled task = None ->
    Resumed t c
      (addFileMessage (FileFailed (t_payload task))
         (upd_incomingChunks (delete (t_id task)) (upd_suspended (delete t) c)))
| Resumed_lost task bytes :
    suspended c !! t = Some task -> t_settled task = Some bytes ->
    objects c !! (t_id task, t_state task) = None ->
    Resumed t c (upd_suspended (delete t) c)
| Resumed_stored task bytes st :
    suspended c !! t = Some task -> t_settled task = Some bytes ->
    objects c !! (t_id task, t_state task) = Some st ->
    received st + 1 ≠ total st ->
    Resumed t c
      (upd_objects (insert (t_id task, t_state task) (stored task bytes st))
         (upd_suspended (delete t) c))
| Resumed_shown task bytes st merged :
    suspended c !! t = Some task -> t_settled task = Some bytes ->
    objects c !! (t_id task, t_state task) = Some st ->
    received st + 1 = total st ->
    merge (chunks (stored task bytes st)) = Normal merged ->
    Resumed t c
      (addFileMessage
         (FileShown (t_id task, t_state task) (shown_meta st) merged)
         (released task
            (upd_objects (insert (t_id task, t_state task) (stored task bytes st))
               (upd_suspended (delete t) c))))
| Resumed_thrown task bytes st e :
    suspended c !! t = Some task -> t_settled task = Some bytes ->
    objects c !! (t_id task, t_state task) = Some st ->
    received st + 1 = total st ->
    merge (chunks (stored task bytes st)) = Abrupt e ->
    Resumed t c
      (reject e
         (released task
            (upd_objects (insert (t_id task, t_state task) (stored task bytes st))
               (upd_suspended (delete t) c)))).

(** *** A slot that stays empty

    For the transfer [id] of [N] chunks, [hole_of n] names a slot of the
    record with serial [n] that no suspended call will fill. While that holds,
    no file of that transfer is shown. *)
Record holes (id : jsstring) (N : Z) (hole_of : nat -> Z) (c : Session) : Prop := {
  holes_objects : forall n st, objects c !! (id, n) = Some st ->
    total st = N /\ chunks st !! Z.to_nat (hole_of n) = Some None;
  holes_tasks : forall t task, suspended c !! t = Some task -> t_id task = id ->
    0 <= t_index task /\
    (t_index task = hole_of (t_state task) -> t_settled task = None);
  holes_silent : forall n m merged, FileShown (id, n) m merged ∉ messagesEl c
}.

(** The state a chunk of [id] would be stored in, were it received now. *)
Definition joins (id : jsstring) (c : Session) : nat :=
  default (next_serial c) (incomingChunks c !! id).

Definition harmless (id : jsstring) (N : Z) (hole_of : nat -> Z) (c : Session) (e : Event)
    : Prop :=
  match e with
  | Receive p =>
      p_id p = JString id ->
      p_total p = JNumber N /\
      (p_index p = JNumber (hole_of (joins id c)) -> decrypt_or_null (cryptoKey c) p = None)
  | _ => True
  end.

Definition index_of (id : jsstring) (p : Payload) : option Z :=
  if decide (p_id p = JString id) then isInteger (p_index p) else None.

(** The chunk indexes of the transfer [id] handed to the handler in a run,
    with repetitions. *)
Definition delivered (id : jsstring) (events : list Event) : list Z :=
  omap (index_of id) (receives events).

(** Serial numbers in use are below the next one. *)
Record bounded (c : Session) : Prop := {
  bounded_objects : forall id n st, objects c !! (id, n) = Some st -> (n < next_serial c)%nat;
  bounded_tasks : forall t task, suspended c !! t = Some task ->
    (t_state task < next_serial c)%nat;
  bounded_map : forall id n, incomingChunks c !! id = Some n -> (n < next_serial c)%nat
}.

(** Suspended calls are numbered below the next one, and a record of the
    map is on the heap. *)
Record seated (c : Session) : Prop := {
  seated_tasks : forall t task, suspended c !! t = Some task -> (t < next_task c)%nat;
  seated_map : forall id n, incomingChunks c !! id = Some n -> is_Some (objects c !! (id, n))
}.

(** The call suspended for the chunk [corrupt], slot [k] of the transfer
    [id], when its decryption fails. *)
Definition failing_call (corrupt : Payload) (id : jsstring) (k : Z) (c : Session) : Task :=
  {| t_payload := corrupt; t_id := id; t_index := k; t_state := joins id c;
     t_settled := None |}.

(** A timer of the transfer was armed by the delivery of one of its chunks. *)
Definition armed_by (id : jsstring) (N : Z) (seen : list Z) (c : Session) : Prop :=
  forall n deadline, timers c !! (id, n) = Some deadline ->
    exists a, a ∈ seen /\ 0 <= a < N.

(** After an expiry at serial [L], what the map holds for [id] is newer. *)
Definition renewed (id : jsstring) (L : nat) (c : Session) : Prop :=
  (L <= next_serial c)%nat /\
  forall n, incomingChunks c !! id = Some n -> (L <= n)%nat.

Fixpoint filled {A} (a : list (option A)) : nat :=
  match a with
  | [] => 0
  | Some _ :: rest => S (filled rest)
  | None :: rest => filled rest
  end.

(** The invariant of the assemblies in the map: as many slots as declared,
    the count of the filled ones, and not yet complete. *)
Definition consistent (c : Session) : Prop :=
  forall id n st, incomingChunks c !! id = Some n -> objects c !! (id, n) = Some st ->
    length (chunks st) = Z.to_nat (total st) /\
    received st = Z.of_nat (filled (chunks st)) /\
    received st < total st.

(** [task] is suspended on the record the map holds for its transfer. *)
Definition on_live_record (c : Session) (task : Task) : Prop :=
  incomingChunks c !! t_id task = Some (t_state task).

(** What keeps [consistent] true from step to step: a call suspended on a
    record of the map waits to fill an empty slot of it, and no two calls
    wait for the same slot. *)
Record orderly (c : Session) : Prop := {
  orderly_records : consistent c;
  orderly_slots : forall t task st,
    suspended c !! t = Some task -> on_live_record c task ->
    objects c !! (t_id task, t_state task) = Some st ->
    0 <= t_index task < total st /\ chunks st !! Z.to_nat (t_index task) = Some None;
  orderly_apart : forall t t' task task',
    suspended c !! t = Some task -> suspended c !! t' = Some task' -> t ≠ t' ->
    on_live_record c task -> t_id task' = t_id task -> t_state task' = t_state task ->
    t_index task' ≠ t_index task
}.

(** [payload] repeats a chunk that a suspended call is still decrypting for
    the record in the map. *)
Definition overlapping (c : Session) (payload : Payload) : Prop :=
  exists t task, suspended c !! t = Some task /\ on_live_record c task /\
    p_id payload = JString (t_id task) /\ p_index payload = JNumber (t_index task).

(** A run in which no chunk is received while a call for the same slot is
    suspended. *)
Fixpoint calm (c : Session) (events : list Event) : Prop :=
  match events with
  | [] => True
  | e :: rest =>
      match e with
      | Receive payload => ~ overlapping c payload
      | _ => True
      end /\ calm (step c e) rest
  end.

(** The progress of one transfer [id] of [T] chunks whose plaintexts are
    [plains], received under [key]. *)
Section AssemblyVocabulary.
Variables (key : option CryptoKey) (id : jsstring) (T : Z).
Variables (plains : list (list byte)).

Definition task_of (p : Payload) (j : Z) : Task :=
  {| t_payload := p; t_id := id; t_index := j; t_state := 0%nat;
     t_settled := decrypt_or_null key p |}.

(** The transfer is under way: [R] are the chunks received so far, [st] is
    its record. A filled slot holds the right bytes and belongs to a call
    that has ended; a suspended call belongs to a received chunk. *)
Record assembling (R : list Payload) (c : Session) (st : ChunkState) : Prop := {
  asm_key : cryptoKey c = key;
  asm_next : next_task c = length R;
  asm_quiet : messagesEl c = [];
  asm_map : incomingChunks c !! id = Some 0%nat;
  asm_object : objects c !! (id, 0%nat) = Some st;
  asm_total : total st = T;
  asm_length : length (chunks st) = Z.to_nat T;
  asm_received : received st = Z.of_nat (filled (chunks st));
  asm_count : (filled (chunks st) + size (suspended c) = length R)%nat;
  asm_short : (filled (chunks st) < Z.to_nat T)%nat;
  asm_slots : forall j plain, chunks st !! j = Some (Some plain) ->
    plains !! j = Some plain /\
    exists t p, R !! t = Some p /\ p_index p = JNumber (Z.of_nat j) /\
                suspended c !! t = None;
  asm_tasks : forall t task, suspended c !! t = Some task ->
    exists p j, R !! t = Some p /\ p_index p = JNumber (Z.of_nat j) /\
                task = task_of p (Z.of_nat j)
}.

Inductive progress (R : list Payload) (c : Session) : Prop :=
| progress_none : R = [] -> c = initial key -> progress R c
| progress_some st : assembling R c st -> progress R c
| progress_done m :
    messagesEl c = [FileShown (id, 0%nat) m (concat plains)] ->
    suspended c = ∅ -> length R = Z.to_nat T -> progress R c.

End AssemblyVocabulary.

Definition handler_event (e : Event) : Prop :=
  match e with
  | Receive _ | Settle _ => True
  | _ => False
  end.

(** The time that passes in a run. *)
Definition elapsed (events : list Event) : Z :=
  foldr (fun e ms => match e with Elapse d => Z.max 0 d + ms | _ => ms end) 0 events.

(** The calls of the handler in a run, without the clock and the timers. *)
Definition handlers (events : list Event) : list Event :=
  omap (fun e => match e with Receive _ | Settle _ => Some e | _ => None end) events.

(** A session without its clock and its timers. *)
Definition untimed (c : Session) : Session :=
  {| cryptoKey := cryptoKey c; incomingChunks := incomingChunks c;
     objects := objects c; timers := ∅; suspended := suspended c;
     next_serial := next_serial c; next_task := next_task c; clock := 0;
     messagesEl := messagesEl c; rejections := rejections c |}.

(** No timer is due before [CHUNK_TTL] has passed since the page started. *)
Definition early (c : Session) : Prop :=
  0 <= clock c /\
  forall r deadline, timers c !! r = Some deadline -> CHUNK_TTL <= deadline.

(** Handing the chunks over one at a time, each call left to end before the
    next chunk, is one interleaving that leaves no call suspended. *)
Fixpoint one_by_one (t : nat) (order : list Payload) : list Event :=
  match order with
  | [] => []
  | p :: rest => Receive p :: Settle t :: one_by_one (S t) rest
  end.

(** The plaintext of chunk [index]. *)
Definition chunk_slice (bytes : list byte) (index : Z) : list byte :=
  slice (index * MAX_CHUNK_BYTES)
    (Z.min (index * MAX_CHUNK_BYTES + MAX_CHUNK_BYTES) (Z.of_nat (length bytes))) bytes.

(** The metadata [createChunkState] reads off the chunk [p] at time [now]. *)
Definition meta_of (p : Payload) (now : Z) : Meta :=
  {| m_name := js_or (p_name p) (JString default_name);
     m_mime := js_or (p_mime p) (JString (lit "application/octet-stream"));
     m_size := js_or (p_size p) (JNumber 0);
     m_time := js_or (p_time p) (JNumber now) |}.

(** [plain] is the plaintext, under [key], of a chunk among [R] that was
    sent for the slot [j] of the transfer [id]. *)
Definition chunk_of (key : option CryptoKey) (R : list Payload) (id : jsstring) (j : nat)
    (plain : list byte) : Prop :=
  exists p, p ∈ R /\ p_id p = JString id /\ p_index p = JNumber (Z.of_nat j) /\
            decrypt_or_null key p = Some plain.

(** The record [st] was made for a chunk among [R] of the transfer [id]. *)
Definition announced (R : list Payload) (id : jsstring) (st : ChunkState) : Prop :=
  exists p now, p ∈ R /\ p_id p = JString id /\ p_total p = JNumber (total st) /\
                meta st = meta_of p now.

(** Nothing in the session comes from elsewhere than the chunks [R] handed
    to the handler: the slots of the records, what the suspended calls are
    about to store, and the files shown. *)
Record genuine (key : option CryptoKey) (R : list Payload) (c : Session) : Prop := {
  genuine_key : cryptoKey c = key;
  genuine_objects : forall id n st, objects c !! (id, n) = Some st ->
    Z.of_nat (length (chunks st)) = total st /\ announced R id st /\
    forall j plain, chunks st !! j = Some (Some plain) -> chunk_of key R id j plain;
  genuine_tasks : forall t task, suspended c !! t = Some task ->
    t_payload task ∈ R /\ p_id (t_payload task) = JString (t_id task) /\
    p_index (t_payload task) = JNumber (t_index task) /\
    t_settled task = decrypt_or_null key (t_payload task) /\
    0 <= t_index task /\
    forall st, objects c !! (t_id task, t_state task) = Some st -> t_index task < total st;
  genuine_shown : forall id n m merged, FileShown (id, n) m merged ∈ messagesEl c ->
    exists st plains,
      announced R id st /\ m = shown_meta st /\
      Z.of_nat (length plains) = total st /\ merged = concat plains /\
      forall j plain, plains !! j = Some plain -> chunk_of key R id j plain
}.

(** Every assembly in the map has its timer pending, due within
    [CHUNK_TTL] from now. *)
Definition timed (c : Session) : Prop :=
  forall id n, incomingChunks c !! id = Some n ->
    exists deadline, timers c !! (id, n) = Some deadline /\
                     deadline <= clock c + CHUNK_TTL.

End ClientVocabulary.

(** ** Of the page *)

Section PageVocabulary.
Context {platform : WebPlatform}.

(** The passphrases handed to [applyPassword] in a run, in order. *)
Definition applied (events : list Page.KeyEvent) : list (option jsstring) :=
  omap (fun e => match e with Page.Apply raw => Some raw | _ => None end) events.

(** The call made for the passphrase in force is still suspended. *)
Definition pending (k : Page.Keys) : Prop :=
  exists t call, Page.applying k !! t = Some call /\
                 Page.a_version call = Page.passwordVersion k.

(** The key is the one derived from the current passphrase. *)
Definition keyed (k : Page.Keys) : Prop :=
  exists key, Page.cryptoKey k = Some key /\
              deriveKey (Page.currentPassword k) = Normal key.

(** What a run keeps true: no call is ahead of the version counter; the
    call of the current version, while suspended, carries the current
    passphrase and has set its key once past the first [await]; and when it
    is over the key, the room and the connection are those of the current
    passphrase. *)
Record versioned (last_raw : option (option jsstring)) (k : Page.Keys) : Prop := {
  versioned_none : last_raw = None -> k = Page.start;
  versioned_password : forall raw, last_raw = Some raw ->
    Page.currentPassword k = normalizePassword raw /\
    Page.storedPassword k = Some (normalizePassword raw);
  versioned_calls : forall t call, Page.applying k !! t = Some call ->
    Page.a_version call <= Page.passwordVersion k /\
    (Page.a_version call = Page.passwordVersion k ->
       Page.a_password call = Page.currentPassword k /\
       (Page.a_stage call = Page.AwaitsRoom -> keyed k));
  versioned_settled : ~ pending k -> last_raw ≠ None ->
    keyed k /\
    Page.currentRoomId k = hashRoomId (Page.currentPassword k) /\
    list.last (Page.connected k) = Some (hashRoomId (Page.currentPassword k)) /\
    list.last (Page.loaded k) = Some (hashRoomId (Page.currentPassword k))
}.

End PageVocabulary.

Section DeskVocabulary.
Context {platform : WebPlatform} {json : Page.JsonPlatform}.

(** More of what is assumed of the browser: base64 of something is not
    empty, a nonce has the length asked for, a ciphertext carries at least
    its tag. *)
Definition base64_not_empty : Prop :=
  forall binary encoded, binary ≠ [] -> btoa binary = Normal encoded -> encoded ≠ [].

Definition nonce_length : Prop :=
  forall draw n, length (getRandomValues draw n) = n.

Definition ciphertext_not_empty : Prop :=
  forall k iv plain, AES_GCM_encrypt k iv plain ≠ [].

(** The envelope [sendMessage] builds. *)
Definition text_payload (sender : jsstring) (time : Z) (encrypted : Encrypted) : Payload :=
  {| p_v := JNumber 1; p_type := JString (lit "text");
     p_sender := JString sender; p_time := JNumber time;
     p_id := JUndefined; p_index := JUndefined; p_total := JUndefined;
     p_iv := e_iv encrypted; p_data := e_data encrypted;
     p_name := JUndefined; p_mime := JUndefined; p_size := JUndefined |}.

(** What one call does to the store and to the storage: nothing, or one
    more text and the history written anew. *)
Definition shelved (d d' : Page.Desk) : Prop :=
  Page.roomId d' = Page.roomId d /\
  ((Page.messageStore d' = Page.messageStore d /\
    Page.localStorage d' = Page.localStorage d) \/
   exists item,
     Page.is_text item = true /\
     Page.messageStore d' = Page.messageStore d ++ [item] /\
     Page.localStorage d' =
       if bool_decide (Page.roomId d = []) then Page.localStorage d
       else <[Page.storageKey (Page.roomId d) :=
                Page.JSON_stringify_items
                  (Page.slice_last Page.MAX_HISTORY
                     (filter (fun item => Page.is_text item = true)
                        (Page.messageStore d ++ [item])))]> (Page.localStorage d)).

End DeskVocabulary.

(** ** Sample runs *)

Section SampleVocabulary.
Import Sample.

Definition corrupt_run_before : list Event := [Receive (sample_chunk 0 3 7 65); Settle 0].
Definition corrupt_run_after : list Event :=
  [Settle 1; Receive (sample_chunk 2 3 7 67); Settle 2].

Definition stored_first : ChunkState :=
  {| total := 3; received := 1; chunks := [Some [x41]; None; None];
     meta := {| m_name := JString (lit "a.bin");
                m_mime := JString (lit "application/octet-stream");
                m_size := JNumber 3; m_time := JNumber 5 |} |}.

Definition expiry_run_before : list Event :=
  [Receive (sample_chunk 0 2 7 65); Settle 0; Elapse 120000].
Definition expiry_run_after : list Event := [Receive (sample_chunk 1 2 7 66); Settle 1].

(** Both chunks of a transfer of two are handed over before the timer of
    its record is due; the call for the second is still suspended at its
    decryption when the timer runs. *)
Definition late_run_before : list Event :=
  [Receive (sample_chunk 0 2 7 65); Settle 0; Receive (sample_chunk 1 2 7 66);
   Elapse 120000].
Definition late_run_after : list Event := [Settle 1].

(** Both chunks of a transfer of two, each call left to end. *)
Definition whole_run : list Event :=
  [Receive (sample_chunk 1 2 7 66); Settle 0; Receive (sample_chunk 0 2 7 65); Settle 1].

End SampleVocabulary.

(** * Properties *)

(** ** Routing of [/ws/:room] *)

Section Routing.

Lemma class_matches_hex c :
  class_matches true hex_class c = true <-> hex_either_case c.
Proof.
  unfold class_matches, hex_class, hex_either_case.
  cbn [existsb fst snd].
  change (range_members 97 102) with [97; 98; 99; 100; 101; 102]%N.
  change (range_members 48 57) with [48; 49; 50; 51; 52; 53; 54; 55; 56; 57]%N.
  cbn [existsb].
  unfold canonicalize, in_range.
  repeat match goal with
         | |- context [(?a <=? ?b)%N] => destruct (N.leb_spec a b); try lia
         end;
    cbn -[N.eqb]; rewrite ?orb_false_r, ?orb_true_iff, ?N.eqb_eq; try lia.
Qed.

Lemma isValidRoomId_spec roomId :
  isValidRoomId roomId = true <-> length roomId = 64%nat /\ Forall hex_either_case roomId.
Proof.
  unfold isValidRoomId, test_anchored_repeat.
  rewrite andb_true_iff, Nat.eqb_eq, forallb_forall, Forall_forall.
  split; intros [Hlen Hall]; split; try done; intros c Hc.
  - apply class_matches_hex. by apply Hall.
  - apply class_matches_hex. by apply Hall.
Qed.

Lemma pathname_room roomId : drop (length (lit "/ws/")) (lit "/ws/" ++ roomId) = roomId.
Proof. reflexivity. Qed.

(** C5, as amended: the room identifier of [/ws/:room] is accepted exactly
    when it is 64 hexadecimal digits of either case (the pattern carries the
    [i] flag); any other identifier gets the 400 response and leaves the
    namespace as it was: no name resolved, no instance created. *)
Theorem C5_room_id_validated_before_resolution :
  forall (request : Request) (env : Env) (roomId : jsstring),
    handleWebSocket request env (lit "/ws/" ++ roomId) =
      if bool_decide (length roomId = 64%nat /\ Forall hex_either_case roomId)
      then stub_fetch roomId request env
      else (createErrorResponse 400, env).
Proof.
  intros request env roomId. unfold handleWebSocket.
  rewrite pathname_room.
  pose proof (isValidRoomId_spec roomId) as Hspec.
  destruct (isValidRoomId roomId) eqn:E; cbn [negb]; case_bool_decide as H;
    try reflexivity; destruct Hspec as [Hto Hfrom].
  - destruct H. by apply Hto.
  - specialize (Hfrom H). discriminate.
Qed.

(** C5, as stated, fails: 64 upper-case digits do not match
    [^[a-f0-9]{64}$], yet the request is not rejected and the room is
    resolved and created. *)
Lemma C5_uppercase_room_id_accepted :
  let roomId := replicate 64 65%N in
  lowercase_hex64 roomId = false /\
  isValidRoomId roomId = true /\
  status (handleWebSocket upgrade_request empty_env (lit "/ws/" ++ roomId)).1 = 101 /\
  resolved (handleWebSocket upgrade_request empty_env (lit "/ws/" ++ roomId)).2 = [roomId] /\
  is_Some (instances (handleWebSocket upgrade_request empty_env (lit "/ws/" ++ roomId)).2
             !! roomId).
Proof.
  cbv zeta. repeat split; try by vm_compute.
  unfold handleWebSocket. rewrite pathname_room.
  change (isValidRoomId (replicate 64 65%N)) with true. cbn [negb].
  unfold stub_fetch. destruct (fetch _ _) as [response room']. cbn.
  rewrite lookup_insert_eq. by eexists.
Qed.

End Routing.

(** ** The broadcast of [ChatRoom.webSocketMessage] *)

Section Broadcast.

Lemma forward_lookup ws text room socket peer :
  accepted (forward ws text room socket) !! peer =
    if decide (peer = socket) then delivered_to ws peer text <$> accepted room !! peer
    else accepted room !! peer.
Proof.
  unfold forward, send, delivered_to.
  destruct (decide (socket ≠ ws)) as [Hne|Heq].
  - destruct (accepted room !! socket) as [s|] eqn:Hs; cbn.
    + destruct (readyState s) eqn:Hrs; cbn.
      * destruct (decide (peer = socket)) as [->|Hp].
        -- rewrite lookup_insert_eq, Hs. cbn. by rewrite decide_True.
        -- by rewrite lookup_insert_ne.
      * destruct (decide (peer = socket)) as [->|Hp]; [|done].
        rewrite Hs. cbn. rewrite decide_False; [done|]. intros [_ ?]; congruence.
    + destruct (decide (peer = socket)) as [->|Hp]; [|done]. by rewrite Hs.
  - destruct (decide (peer = socket)) as [->|Hp]; [|done].
    destruct (accepted room !! socket) as [s|]; [|done]. cbn.
    rewrite decide_False; [done|]. intros [? _]. by apply Heq.
Qed.

Lemma forward_limit ws text room socket :
  maxMessageSize (forward ws text room socket) = maxMessageSize room.
Proof.
  unfold forward, send. case_decide; [|done].
  destruct (accepted room !! socket) as [s|]; [|done].
  by destruct (readyState s).
Qed.

Lemma broadcast_lookup ws text (sockets : list nat) :
  forall room peer, NoDup sockets ->
    accepted (foldl (forward ws text) room sockets) !! peer =
      if decide (peer ∈ sockets) then delivered_to ws peer text <$> accepted room !! peer
      else accepted room !! peer.
Proof.
  induction sockets as [|socket rest IH]; intros room peer Hnd; cbn [foldl].
  - rewrite decide_False; [done|]. apply not_elem_of_nil.
  - pose proof (NoDup_cons_1_1 _ _ Hnd) as Hfresh. apply NoDup_cons_1_2 in Hnd.
    rewrite IH by done. rewrite forward_lookup.
    destruct (decide (peer = socket)) as [->|Hp].
    + rewrite decide_False by done. rewrite decide_True; [done|]. apply elem_of_cons; auto.
    + destruct (decide (peer ∈ rest)) as [Hin|Hout].
      * rewrite decide_True; [done|]. apply elem_of_cons; auto.
      * rewrite decide_False; [done|]. rewrite elem_of_cons. tauto.
Qed.

Lemma broadcast_limit ws text (sockets : list nat) :
  forall room, maxMessageSize (foldl (forward ws text) room sockets) = maxMessageSize room.
Proof.
  induction sockets as [|socket rest IH]; intros room; cbn [foldl]; [done|].
  by rewrite IH, forward_limit.
Qed.

Lemma getWebSockets_NoDup room : NoDup (getWebSockets room).
Proof. apply NoDup_fst_map_to_list. Qed.

Lemma getWebSockets_elem room peer :
  peer ∈ getWebSockets room <-> is_Some (accepted room !! peer).
Proof.
  unfold getWebSockets. rewrite list_elem_of_fmap. split.
  - intros ([k s] & -> & Hin). apply elem_of_map_to_list in Hin. by eexists.
  - intros [s Hs]. exists (peer, s). split; [done|]. by apply elem_of_map_to_list.
Qed.

(** The handler, socket by socket. *)
Lemma webSocketMessage_lookup ws message room peer :
  accepted (webSocketMessage ws message room) !! peer =
    (if js_length (message_text message) >? maxMessageSize room
     then refused_at ws peer
     else delivered_to ws peer (message_text message)) <$> accepted room !! peer.
Proof.
  unfold webSocketMessage. cbv zeta.
  destruct (js_length (message_text message) >? maxMessageSize room).
  - unfold close, refused_at.
    destruct (accepted room !! ws) as [s|] eqn:Hs; cbn.
    + destruct (decide (peer = ws)) as [->|Hp].
      * by rewrite lookup_insert_eq, Hs.
      * rewrite lookup_insert_ne by done. by destruct (accepted room !! peer).
    + destruct (decide (peer = ws)) as [->|Hp].
      * by rewrite Hs.
      * by destruct (accepted room !! peer).
  - rewrite broadcast_lookup by apply getWebSockets_NoDup.
    destruct (decide (peer ∈ getWebSockets room)) as [Hin|Hout]; [done|].
    destruct (accepted room !! peer) as [s|] eqn:Hs; [|done].
    destruct Hout. apply getWebSockets_elem. by eexists.
Qed.

Lemma webSocketMessage_limit ws message room :
  maxMessageSize (webSocketMessage ws message room) = maxMessageSize room.
Proof.
  unfold webSocketMessage. cbv zeta.
  destruct (js_length (message_text message) >? maxMessageSize room).
  - unfold close. by destruct (accepted room !! ws).
  - apply broadcast_limit.
Qed.

(** C1, as amended: for a frame whose text is within the limit, every other
    open socket of the room is sent that text once (the frame itself when it
    is a text frame, its UTF-8 decoding when it is a binary frame), the
    sending socket is sent nothing, and a peer whose [send] throws neither
    receives anything nor keeps any other peer from receiving. *)
Theorem C1_broadcast_to_every_other_open_socket :
  forall (room : ChatRoom) (ws : nat) (message : Message),
    js_length (message_text message) <= maxMessageSize room ->
    let text := message_text message in
    let room' := webSocketMessage ws message room in
    (forall peer s, accepted room !! peer = Some s -> peer ≠ ws -> readyState s = OPEN ->
       accepted room' !! peer =
         Some {| readyState := OPEN; sent := sent s ++ [text]; closeFrame := closeFrame s |}) /\
    accepted room' !! ws = accepted room !! ws /\
    (forall peer s, accepted room !! peer = Some s -> readyState s = CLOSED ->
       send peer text room = Abrupt TypeError /\ accepted room' !! peer = Some s) /\
    dom (accepted room') = dom (accepted room) /\
    (forall s, message_text (MsgString s) = s).
Proof.
  intros room ws message Hsize text room'.
  assert (Hlook : forall peer,
    accepted room' !! peer = delivered_to ws peer text <$> accepted room !! peer).
  { intros peer. unfold room'. rewrite webSocketMessage_lookup.
    replace (js_length (message_text message) >? maxMessageSize room) with false; [done|].
    symmetry. rewrite Z.gtb_ltb. by apply Z.ltb_ge. }
  repeat split.
  - intros peer s Hs Hne Hopen. rewrite Hlook, Hs. cbn. unfold delivered_to.
    by rewrite decide_True.
  - rewrite Hlook. destruct (accepted room !! ws) as [s|]; [|done]. cbn.
    unfold delivered_to. rewrite decide_False; [done|]. by intros [? _].
  - unfold send. by rewrite H, H0.
  - rewrite Hlook, H. cbn. unfold delivered_to.
    rewrite decide_False; [done|]. intros [_ ?]. congruence.
  - apply set_eq. intros peer. rewrite !elem_of_dom, Hlook.
    by rewrite fmap_is_Some.
Qed.

Lemma C1_broadcast_witness :
  accepted (webSocketMessage 0 (MsgString (lit "hi")) room_of_three) !! 2%nat =
    Some {| readyState := OPEN; sent := [lit "hi"]; closeFrame := None |}.
Proof.
  assert (Hsize : js_length (message_text (MsgString (lit "hi")))
                    <= maxMessageSize room_of_three) by (vm_compute; discriminate).
  destruct (C1_broadcast_to_every_other_open_socket room_of_three 0 (MsgString (lit "hi")) Hsize)
    as [Hpeers _].
  apply (Hpeers 2%nat open_socket); [reflexivity | discriminate | reflexivity].
Defined.

(** C1, as stated, fails on a binary frame: the byte FF is within the limit,
    and the listening socket is sent the text U+FFFD, whose payload is the
    three bytes EF BF BD. *)
Lemma C1_binary_frame_is_decoded :
  let message := MsgBuffer [xff] in
  let room' := webSocketMessage 0 message room_of_three in
  js_length (message_text message) <= maxMessageSize room_of_three /\
  sent <$> accepted room' !! 2%nat = Some [[0xFFFD%N]] /\
  payload_bytes (MsgString [0xFFFD%N]) = [xef; xbf; xbd] /\
  payload_bytes message = [xff] /\
  payload_bytes (MsgString [0xFFFD%N]) ≠ payload_bytes message.
Proof.
  cbv zeta. split; [vm_compute; discriminate|].
  split; [by vm_compute|].
  split; [by vm_compute|].
  split; [by vm_compute|].
  vm_compute. discriminate.
Qed.

Lemma encode_ideographs n :
  length (TextEncoder_encode (replicate n 0x4E2D%N)) = (3 * n)%nat.
Proof.
  induction n as [|n IH]; [done|].
  change (replicate (S n) 0x4E2D%N) with (0x4E2D%N :: replicate n 0x4E2D%N).
  change (TextEncoder_encode (0x4E2D%N :: replicate n 0x4E2D%N))
    with (utf8_of_code_point 0x4E2D ++ TextEncoder_encode (replicate n 0x4E2D%N)).
  rewrite length_app, IH. change (length (utf8_of_code_point 0x4E2D)) with 3%nat. lia.
Qed.

Lemma wide_text_length : js_length wide_text = 1000000.
Proof. unfold js_length, wide_text. rewrite length_replicate. lia. Qed.

Lemma room_of_three_within (text : jsstring) :
  (js_length text >? maxMessageSize room_of_three) = false ->
  let room' := webSocketMessage 0 (MsgString text) room_of_three in
  accepted room' !! 0%nat = Some open_socket /\
  accepted room' !! 2%nat =
    Some {| readyState := OPEN; sent := [text]; closeFrame := None |}.
Proof.
  intros Hsize room'. unfold room'.
  rewrite !webSocketMessage_lookup. cbn [message_text]. rewrite Hsize. by vm_compute.
Qed.

(** C2, as amended: the size compared with the limit of 1,000,000 is the
    number of UTF-16 code units of the frame's text (the frame itself, or the
    UTF-8 decoding of a binary frame). Above the limit the sending socket is
    closed with code 1009 and no socket is sent anything; otherwise that text
    is sent, unchanged, to every other open socket. *)
Theorem C2_size_limit_on_text_length :
  forall (room : ChatRoom) (ws : nat) (message : Message),
    maxMessageSize room = 1000000 ->
    let text := message_text message in
    let room' := webSocketMessage ws message room in
    maxMessageSize constructor = 1000000 /\
    maxMessageSize room' = 1000000 /\
    if js_length text >? 1000000 then
      (forall peer, sent <$> accepted room' !! peer = sent <$> accepted room !! peer) /\
      (forall peer, peer ≠ ws -> accepted room' !! peer = accepted room !! peer) /\
      readyState <$> accepted room' !! ws = (fun _ => CLOSED) <$> accepted room !! ws /\
      closeFrame <$> accepted room' !! ws =
        (fun s => Some (default (1009, lit "Message too large") (closeFrame s)))
          <$> accepted room !! ws
    else
      forall peer,
        accepted room' !! peer = delivered_to ws peer text <$> accepted room !! peer.
Proof.
  intros room ws message Hmax text room'.
  split; [done|]. split; [unfold room'; by rewrite webSocketMessage_limit|].
  assert (Hlook := webSocketMessage_lookup ws message room).
  rewrite Hmax in Hlook. fold text room' in Hlook.
  destruct (js_length text >? 1000000).
  - repeat split.
    + intros peer. rewrite Hlook. destruct (accepted room !! peer) as [s|]; [|done].
      cbn. unfold refused_at. by case_decide.
    + intros peer Hne. rewrite Hlook. destruct (accepted room !! peer) as [s|]; [|done].
      cbn. unfold refused_at. by rewrite decide_False.
    + rewrite Hlook. destruct (accepted room !! ws) as [s|]; [|done].
      cbn. unfold refused_at. by rewrite decide_True.
    + rewrite Hlook. destruct (accepted room !! ws) as [s|]; [|done].
      cbn. unfold refused_at. rewrite decide_True by done. cbn.
      by destruct (closeFrame s).
  - exact Hlook.
Qed.

Lemma C2_size_limit_witness :
  accepted (webSocketMessage 0 (MsgString (lit "hi")) room_of_three) !! 2%nat =
    delivered_to 0 2 (lit "hi") <$> accepted room_of_three !! 2%nat.
Proof.
  assert (Hmax : maxMessageSize room_of_three = 1000000) by reflexivity.
  destruct (C2_size_limit_on_text_length room_of_three 0 (MsgString (lit "hi")) Hmax)
    as (_ & _ & Hwithin).
  exact (Hwithin 2%nat).
Defined.

(** C2, as stated, fails: a text frame of 3,000,000 bytes is not refused; the
    sending socket stays open and the listening socket is sent the frame. *)
Lemma C2_three_megabyte_frame_forwarded :
  let message := MsgString wide_text in
  let room' := webSocketMessage 0 message room_of_three in
  Z.of_nat (length (payload_bytes message)) = 3000000 /\
  maxMessageSize room_of_three = 1000000 /\
  accepted room' !! 0%nat = Some open_socket /\
  accepted room' !! 2%nat =
    Some {| readyState := OPEN; sent := [wide_text]; closeFrame := None |}.
Proof.
  cbv zeta. split.
  - cbn [payload_bytes]. unfold wide_text. rewrite encode_ideographs. lia.
  - split; [reflexivity|]. apply room_of_three_within.
    rewrite wide_text_length. reflexivity.
Qed.

End Broadcast.

(** ** Key derivation and the cipher wrappers *)

Section Derivation.
Context {platform : WebPlatform}.

Lemma trim_start_white s : Forall (fun c => is_white_space c = true) s -> trim_start s = [].
Proof.
  induction 1 as [|c rest Hc _ IH]; [done|]. cbn. by rewrite Hc.
Qed.

Lemma trim_white s : Forall (fun c => is_white_space c = true) s -> trim s = [].
Proof. intros H. unfold trim, trim_end. by rewrite (trim_start_white s). Qed.

Lemma hex_digit_lowercase d : (d < 16)%N -> lowercase_hex (hex_digit d).
Proof.
  intros Hd. unfold hex_digit, lowercase_hex.
  destruct (N.ltb_spec d 10); lia.
Qed.

Lemma hex_pair b :
  let pair := padStart 2 48%N (toString16 (Byte.to_N b)) in
  length pair = 2%nat /\ Forall lowercase_hex pair.
Proof.
  cbv zeta. pose proof (Byte.to_N_bounded b) as Hb.
  unfold toString16, padStart.
  destruct (N.ltb_spec (Byte.to_N b) 16) as [Hlt|Hge]; cbn.
  - split; [done|]. constructor; [|constructor; [|constructor]].
    + unfold lowercase_hex. lia.
    + by apply hex_digit_lowercase.
  - split; [done|]. constructor; [|constructor; [|constructor]]; apply hex_digit_lowercase.
    + apply N.Div0.div_lt_upper_bound. lia.
    + by apply N.mod_lt.
Qed.

Lemma bytesToHex_shape bytes :
  length (bytesToHex bytes) = (2 * length bytes)%nat /\ Forall lowercase_hex (bytesToHex bytes).
Proof.
  unfold bytesToHex. induction bytes as [|b rest [IHlen IHall]]; [by split|].
  destruct (hex_pair b) as [Hlen Hall]. cbn [map concat length].
  rewrite length_app, Hlen, IHlen. split; [lia|]. by apply Forall_app.
Qed.

Lemma importKey_256 material :
  length material = 32%nat -> importKey material = Normal {| raw := material |}.
Proof.
  intros Hlen. unfold importKey. rewrite bool_decide_eq_true_2; [done|].
  rewrite Hlen. set_solver.
Qed.

(** C9: the passphrase is normalized first (trimmed; the default constant
    when that leaves nothing, as for an empty or whitespace-only input), and
    fingerprint and key are functions of the normalized passphrase alone:
    inputs that normalize or trim alike derive the same pair, the
    fingerprint is 64 lower-case hexadecimal digits, and the key import
    succeeds on the digest. *)
Theorem C9_derivation_from_normalized_passphrase :
  digest_is_256_bits ->
  forall value value' : option jsstring,
    (Forall (fun c => is_white_space c = true) (default [] value) ->
       normalizePassword value = DEFAULT_PASSWORD) /\
    normalizePassword value =
      (if bool_decide (trim (default [] value) = []) then DEFAULT_PASSWORD
       else trim (default [] value)) /\
    derive value = (hashRoomId (normalizePassword value), deriveKey (normalizePassword value)) /\
    (normalizePassword value = normalizePassword value' -> derive value = derive value') /\
    (trim (default [] value) = trim (default [] value') -> derive value = derive value') /\
    length (derive value).1 = 64%nat /\
    Forall lowercase_hex (derive value).1 /\
    (derive value).2 =
      Normal {| raw := digest_SHA256 (TextEncoder_encode (normalizePassword value)) |}.
Proof.
  intros Hdigest value value'.
  split; [|split; [|split; [|split; [|split; [|split; [|split]]]]]].
  - intros Hwhite. unfold normalizePassword. by rewrite trim_white.
  - done.
  - done.
  - intros Heq. unfold derive. by rewrite Heq.
  - intros Heq. unfold derive, normalizePassword. by rewrite Heq.
  - cbn. unfold hashRoomId.
    destruct (bytesToHex_shape (digest_SHA256 (TextEncoder_encode (normalizePassword value))))
      as [Hlen _].
    rewrite Hlen, Hdigest. done.
  - cbn. unfold hashRoomId. apply bytesToHex_shape.
  - cbn. unfold deriveKey. by apply importKey_256.
Qed.

Lemma byte_of_to_N b : byte_of_N (Byte.to_N b) = b.
Proof.
  unfold byte_of_N. pose proof (Byte.to_N_bounded b).
  rewrite N.mod_small by lia. by rewrite Byte.of_to_N.
Qed.

Lemma fromCharCode_back bytes : map byte_of_N (fromCharCode bytes) = bytes.
Proof.
  unfold fromCharCode. induction bytes as [|b rest IH]; [done|].
  cbn. by rewrite byte_of_to_N, IH.
Qed.

Lemma fromCharCode_latin1 bytes : Forall (fun c => (c <= 255)%N) (fromCharCode bytes).
Proof.
  unfold fromCharCode. induction bytes as [|b rest IH]; constructor; [|done].
  apply Byte.to_N_bounded.
Qed.

(** The loop of [bytesToBase64] builds the binary string of all the bytes,
    whatever the block size. *)
Lemma binary_loop_prefix bytes :
  forall fuel i binary,
    0 <= i ->
    Z.of_nat (length bytes) - i <= Z.of_nat fuel - 1 ->
    binary = fromCharCode (take (Z.to_nat i) bytes) ->
    binary_loop fuel i bytes binary = fromCharCode bytes.
Proof.
  induction fuel as [|fuel IH]; intros i binary Hi Hfuel ->; cbn [binary_loop].
  - rewrite take_ge by lia. reflexivity.
  - destruct (Z.ltb_spec i (Z.of_nat (length bytes))) as [Hlt|Hge].
    + apply IH; [lia|lia|].
      unfold slice, fromCharCode. rewrite <- map_app, take_take_drop. f_equal.
      destruct (Z.min_spec (i + 32768) (Z.of_nat (length bytes))) as [[Hm ->]|[Hm ->]].
      * f_equal. lia.
      * rewrite !take_ge by lia. done.
    + rewrite take_ge by lia. done.
Qed.

Lemma bytesToBase64_binary bytes :
  bytesToBase64 bytes = btoa (fromCharCode bytes).
Proof.
  unfold bytesToBase64. f_equal. apply binary_loop_prefix; [lia|lia|done].
Qed.

Lemma base64_wrappers_round_trip :
  base64_round_trip ->
  forall bytes, exists encoded,
    bytesToBase64 bytes = Normal encoded /\ base64ToBytes encoded = Normal bytes.
Proof.
  intros Hb64 bytes.
  destruct (Hb64 (fromCharCode bytes) (fromCharCode_latin1 bytes)) as (encoded & Hto & Hfrom).
  exists encoded. rewrite bytesToBase64_binary. split; [done|].
  unfold base64ToBytes. rewrite Hfrom. cbn. by rewrite fromCharCode_back.
Qed.

Lemma encrypt_decrypt_round_trip :
  cipher_round_trip -> base64_round_trip ->
  forall key draw plain, exists encrypted,
    encryptBytes (Some key) draw plain = Normal encrypted /\
    decryptBytes (Some key) (e_iv encrypted) (e_data encrypted) = Normal (Some plain).
Proof.
  intros Hcipher Hb64 key draw plain.
  destruct (base64_wrappers_round_trip Hb64 (getRandomValues draw 12))
    as (iv64 & Hiv & Hiv').
  destruct (base64_wrappers_round_trip Hb64
              (AES_GCM_encrypt key (getRandomValues draw 12) plain))
    as (data64 & Hdata & Hdata').
  exists {| e_iv := iv64; e_data := data64 |}.
  unfold encryptBytes, decryptBytes. rewrite Hiv, Hdata. cbn.
  rewrite Hiv', Hdata'. cbn. by rewrite Hcipher.
Qed.

(** C4: for every payload and passphrase, the key derived from the
    passphrase is imported, encryption under it yields a (nonce, ciphertext)
    pair, and decryption of that pair under the same derived key yields the
    payload. *)
Theorem C4_encrypt_then_decrypt_is_identity :
  digest_is_256_bits -> cipher_round_trip -> base64_round_trip ->
  forall (passphrase : option jsstring) (payload : list byte) (draw : nat),
  exists key encrypted,
    (derive passphrase).2 = Normal key /\
    encryptBytes (Some key) draw payload = Normal encrypted /\
    decryptBytes (Some key) (e_iv encrypted) (e_data encrypted) = Normal (Some payload).
Proof.
  intros Hdigest Hcipher Hb64 passphrase payload draw.
  set (key := {| raw := digest_SHA256 (TextEncoder_encode (normalizePassword passphrase)) |}).
  destruct (encrypt_decrypt_round_trip Hcipher Hb64 key draw payload)
    as (encrypted & Henc & Hdec).
  exists key, encrypted. split; [|done].
  cbn. unfold deriveKey. by apply importKey_256.
Qed.

End Derivation.

(** ** The stand-in platform satisfies what is assumed of the browser *)

Section SamplePlatform.
Import Sample.

Lemma sample_digest_256 : @digest_is_256_bits sample_platform.
Proof.
  intros m. cbn. unfold sample_digest.
  rewrite length_take, length_app, length_replicate. lia.
Qed.

Lemma sample_cipher_round_trip : @cipher_round_trip sample_platform.
Proof.
  intros k iv plain. cbn. unfold sample_decrypt, sample_encrypt.
  by rewrite bool_decide_eq_true_2.
Qed.

Lemma sample_base64_round_trip : @base64_round_trip sample_platform.
Proof.
  intros binary Hlatin. exists binary. cbn. unfold sample_b64.
  assert (forallb (fun c => (c <=? 255)%N) binary = true) as ->; [|done].
  apply forallb_forall. intros c Hc. apply N.leb_le.
  rewrite Forall_forall in Hlatin. by apply Hlatin.
Qed.

Lemma C9_derivation_witness :
  normalizePassword (Some (lit "  ")) = DEFAULT_PASSWORD /\
  @derive sample_platform (Some (lit "  ")) = @derive sample_platform None /\
  length (@derive sample_platform (Some (lit "  "))).1 = 64%nat.
Proof.
  destruct (@C9_derivation_from_normalized_passphrase sample_platform sample_digest_256
              (Some (lit "  ")) None) as (Hwhite & _ & _ & Hnorm & Htrim & Hlen & _).
  split; [|split].
  - apply Hwhite. repeat constructor.
  - apply Htrim. reflexivity.
  - exact Hlen.
Defined.

Lemma C4_round_trip_witness :
  exists key encrypted,
    (@derive sample_platform (Some (lit "tea"))).2 = Normal key /\
    @encryptBytes sample_platform (Some key) 0 [x01; x02; x03] = Normal encrypted /\
    @decryptBytes sample_platform (Some key) (e_iv encrypted) (e_data encrypted)
      = Normal (Some [x01; x02; x03]).
Proof.
  exact (@C4_encrypt_then_decrypt_is_identity sample_platform
           sample_digest_256 sample_cipher_round_trip sample_base64_round_trip
           (Some (lit "tea")) [x01; x02; x03] 0%nat).
Defined.

End SamplePlatform.

(** ** The receiving side of chunked transfers *)

Section Transfers.
Context {platform : WebPlatform}.

Lemma slot_filled_replicate (i n : nat) :
  slot_filled i (replicate n (@None (list byte))) = false.
Proof.
  unfold slot_filled. destruct (replicate n None !! i) as [slot|] eqn:E; [|done].
  apply lookup_replicate in E as [-> _]. done.
Qed.

Lemma step_Receive payload c : Received payload c (step c (Receive payload)).
Proof.
  cbn [step]. unfold handleFileChunk.
  destruct (p_id payload) as [| | | | |id] eqn:Hid; try constructor.
  destruct (p_total payload) as [| | |total_| |] eqn:Htotal; cbn [isInteger]; try constructor.
  destruct (Z.leb_spec total_ 0) as [|Hpos]; [constructor|].
  destruct (p_index payload) as [| | |index| |] eqn:Hindex; cbn [isInteger]; try constructor.
  destruct (Z.ltb_spec index 0) as [|Hlo]; cbn [orb]; [constructor|].
  destruct (Z.geb_spec index total_) as [|Hhi]; [constructor|].
  destruct (incomingChunks c !! id) as [n|] eqn:Hmap; cbn [bind].
  - destruct (objects c !! (id, n)) as [st|] eqn:Hobj; [|constructor].
    case_bool_decide as Htot; [constructor|].
    destruct (slot_filled (Z.to_nat index) (chunks st)) eqn:Hslot; [constructor|].
    eapply Received_joined; eauto; lia.
  - unfold createChunkState. rewrite Hid, Htotal. cbn [isInteger].
    destruct (Z.leb_spec total_ 0) as [|_]; [lia|].
    unfold new_Array.
    destruct (Z.leb_spec 0 total_) as [_|]; [|lia]. cbn [andb].
    destruct (Z.leb_spec total_ 4294967295) as [Hsmall|Hbig]; cbn [bind].
    + cbn [objects]. rewrite lookup_insert_eq. cbn [total chunks].
      rewrite bool_decide_eq_false_2 by (intros H; by apply H).
      rewrite slot_filled_replicate.
      change (Received payload c
                (suspend (task_for payload id index (next_serial c) c)
                   (with_fresh_state id (fresh_state payload total_ c) c))).
      eapply Received_created; eauto; lia.
    + eapply Received_thrown; eauto; lia.
Qed.

Lemma array_some_never {A} (a : list (option A)) : array_some (fun _ => false) a = false.
Proof. unfold array_some. induction a as [|[x|] rest IH]; cbn; done. Qed.

Lemma step_Settle t c : Resumed t c (step c (Settle t)).
Proof.
  cbn [step]. unfold resume.
  destruct (suspended c !! t) as [task|] eqn:Htask; [|by constructor].
  cbv zeta.
  destruct (t_settled task) as [bytes|] eqn:Hsettled; [|by econstructor].
  change (objects (upd_suspended (delete t) c)) with (objects c).
  destruct (objects c !! (t_id task, t_state task)) as [st|] eqn:Hobj;
    [|by eapply Resumed_lost].
  cbn [received total chunks meta].
  case_bool_decide as Hdone; [by eapply Resumed_stored|].
  assert (received st + 1 = total st) as Hfull.
  { destruct (decide (received st + 1 = total st)); [done|]. by destruct Hdone. }
  rewrite array_some_never.
  destruct (merge (array_set (Z.to_nat (t_index task)) bytes (chunks st))) as [merged|e] eqn:Hm.
  - by eapply Resumed_shown.
  - by eapply Resumed_thrown.
Qed.

Lemma step_cryptoKey c e : cryptoKey (step c e) = cryptoKey c.
Proof.
  destruct e as [payload|t|r|ms].
  - generalize (step_Receive payload c). generalize (step c (Receive payload)).
    intros c' []; reflexivity.
  - generalize (step_Settle t c). generalize (step c (Settle t)).
    intros c' []; reflexivity.
  - cbn. unfold expire. destruct (timers c !! r); [|done]. by case_match.
  - reflexivity.
Qed.

Lemma run_cryptoKey events : forall c, cryptoKey (run c events) = cryptoKey c.
Proof.
  induction events as [|e events IH]; intros c; cbn; [done|].
  unfold run in IH. by rewrite IH, step_cryptoKey.
Qed.

Lemma run_app c events events' : run c (events ++ events') = run (run c events) events'.
Proof. apply foldl_app. Qed.

(** *** Steps of a well-formed chunk *)

Lemma receive_creates c p id T j :
  p_id p = JString id -> p_total p = JNumber T -> p_index p = JNumber j ->
  0 <= j < T -> T <= 4294967295 -> incomingChunks c !! id = None ->
  step c (Receive p) =
    suspend (task_for p id j (next_serial c) c)
      (with_fresh_state id (fresh_state p T c) c).
Proof.
  intros Hid HT Hj Hrange Hsmall Hmap.
  cbn [step]. unfold handleFileChunk. rewrite Hid, HT, Hj. cbn [isInteger].
  destruct (Z.leb_spec T 0); [lia|].
  destruct (Z.ltb_spec j 0); [lia|]. cbn [orb].
  destruct (Z.geb_spec j T); [lia|].
  rewrite Hmap. unfold createChunkState. rewrite Hid, HT. cbn [isInteger].
  destruct (Z.leb_spec T 0); [lia|].
  unfold new_Array.
  destruct (Z.leb_spec 0 T); [|lia]. destruct (Z.leb_spec T 4294967295); [|lia].
  cbn [andb bind objects]. rewrite lookup_insert_eq. cbn [total chunks].
  rewrite bool_decide_eq_false_2 by (intros H'; by apply H').
  by rewrite slot_filled_replicate.
Qed.

Lemma receive_joins c p id T j n st :
  p_id p = JString id -> p_total p = JNumber T -> p_index p = JNumber j ->
  0 <= j < T -> incomingChunks c !! id = Some n -> objects c !! (id, n) = Some st ->
  total st = T -> slot_filled (Z.to_nat j) (chunks st) = false ->
  step c (Receive p) = suspend (task_for p id j n c) c.
Proof.
  intros Hid HT Hj Hrange Hmap Hobj Htotal Hslot.
  cbn [step]. unfold handleFileChunk. rewrite Hid, HT, Hj. cbn [isInteger].
  destruct (Z.leb_spec T 0); [lia|].
  destruct (Z.ltb_spec j 0); [lia|]. cbn [orb].
  destruct (Z.geb_spec j T); [lia|].
  rewrite Hmap. cbn [bind]. rewrite Hobj.
  rewrite bool_decide_eq_false_2 by (intros H'; by apply H').
  by rewrite Hslot.
Qed.

Lemma settle_absent c t : suspended c !! t = None -> step c (Settle t) = c.
Proof. intros Ht. cbn [step]. unfold resume. by rewrite Ht. Qed.

Lemma settle_stores c t task bytes st :
  suspended c !! t = Some task -> t_settled task = Some bytes ->
  objects c !! (t_id task, t_state task) = Some st ->
  received st + 1 ≠ total st ->
  step c (Settle t) =
    upd_objects (insert (t_id task, t_state task) (stored task bytes st))
      (upd_suspended (delete t) c).
Proof.
  intros Ht Hs Hobj Hmore. cbn [step]. unfold resume. rewrite Ht. cbv zeta. rewrite Hs.
  change (objects (upd_suspended (delete t) c)) with (objects c). rewrite Hobj.
  cbn [received total]. by rewrite bool_decide_eq_true_2.
Qed.

Lemma settle_shows c t task bytes st merged :
  suspended c !! t = Some task -> t_settled task = Some bytes ->
  objects c !! (t_id task, t_state task) = Some st ->
  received st + 1 = total st ->
  merge (chunks (stored task bytes st)) = Normal merged ->
  step c (Settle t) =
    addFileMessage (FileShown (t_id task, t_state task) (shown_meta st) merged)
      (released task
         (upd_objects (insert (t_id task, t_state task) (stored task bytes st))
            (upd_suspended (delete t) c))).
Proof.
  intros Ht Hs Hobj Hfull Hmerge. cbn [step]. unfold resume. rewrite Ht. cbv zeta. rewrite Hs.
  change (objects (upd_suspended (delete t) c)) with (objects c). rewrite Hobj.
  cbn [received total chunks meta].
  rewrite bool_decide_eq_false_2 by (intros H'; by apply H').
  rewrite array_some_never. cbn [stored chunks] in Hmerge. by rewrite Hmerge.
Qed.

Lemma suspended_Settle c t : suspended (step c (Settle t)) = delete t (suspended c).
Proof.
  generalize (step_Settle t c). generalize (step c (Settle t)).
  intros c' []; cbn; try done. symmetry. by apply delete_id.
Qed.

Lemma suspended_Receive c p :
  suspended (step c (Receive p)) = suspended c \/
  exists task, suspended (step c (Receive p)) = <[next_task c := task]> (suspended c).
Proof.
  generalize (step_Receive p c). generalize (step c (Receive p)).
  intros c' []; cbn; eauto.
Qed.

(** *** Arrays with a hole are never merged *)

Lemma array_set_other {A} (i j : nat) (x : A) (a : list (option A)) :
  i ≠ j -> (j < length a)%nat -> array_set i x a !! j = a !! j.
Proof.
  intros Hne Hj. unfold array_set. destruct (Nat.ltb_spec i (length a)).
  - by apply list_lookup_insert_ne.
  - by apply lookup_app_l.
Qed.

Lemma merge_loop_hole cs :
  forall (j : nat) merged offset,
    cs !! j = Some None -> exists e, merge_loop cs merged offset = Abrupt e.
Proof.
  induction cs as [|chunk rest IH]; intros j merged offset Hj; [done|].
  cbn [merge_loop]. destruct j as [|j]; cbn in Hj.
  - injection Hj as ->. by eexists.
  - destruct (typed_array_set merged chunk offset) as [merged'|e]; cbn [bind].
    + by eapply IH.
    + by eexists.
Qed.

Lemma merge_hole cs (j : nat) : cs !! j = Some None -> exists e, merge cs = Abrupt e.
Proof. intros Hj. unfold merge. by eapply merge_loop_hole. Qed.

Lemma holes_initial id N hole_of key : holes id N hole_of (initial key).
Proof.
  split; cbn.
  - intros n st H. by rewrite lookup_empty in H.
  - intros t task H. by rewrite lookup_empty in H.
  - intros n m merged H. by apply not_elem_of_nil in H.
Qed.

Lemma holes_step id N hole_of c e :
  (forall n, 0 <= hole_of n < N) ->
  holes id N hole_of c -> harmless id N hole_of c e ->
  holes id N hole_of (step c e).
Proof.
  intros Hrange [Hobj Htask Hsilent] Hharm.
  destruct e as [payload|t|r|ms].
  - (* Receive *)
    generalize (step_Receive payload c). generalize (step c (Receive payload)).
    intros c' [| id' T i Hid HT Hi Hrng Hmap Hbig
               | id' T i n st Hid HT Hi Hrng Hmap Hst Htot Hslot
               | id' T i Hid HT Hi Hrng Hmap Hsmall].
    + by split.
    + by split.
    + split; cbn; [done| |done].
      intros t task Ht Hown. rewrite lookup_insert in Ht.
      destruct (decide (next_task c = t)) as [_|_]; [|by eapply Htask].
      injection Ht as <-. cbn in Hown |- *. subst id'.
      split; [lia|]. intros ->.
      destruct (Hharm Hid) as [_ Hfail]. apply Hfail.
      unfold joins. by rewrite Hmap, Hi.
    + split; cbn.
      * intros n st Hst. rewrite lookup_insert in Hst.
        destruct (decide ((id', next_serial c) = (id, n))) as [Heq|_]; [|by eapply Hobj].
        injection Heq as -> <-. injection Hst as <-. cbn.
        destruct (Hharm Hid) as [HN _]. rewrite HT in HN. injection HN as ->.
        split; [done|]. apply lookup_replicate. split; [done|].
        specialize (Hrange (next_serial c)). lia.
      * intros t task Ht Hown. rewrite lookup_insert in Ht.
        destruct (decide (next_task c = t)) as [_|_]; [|by eapply Htask].
        injection Ht as <-. cbn in Hown |- *. subst id'.
        split; [lia|]. intros ->.
        destruct (Hharm Hid) as [_ Hfail]. apply Hfail.
        unfold joins. by rewrite Hmap, Hi.
      * done.
  - (* Settle *)
    generalize (step_Settle t c). generalize (step c (Settle t)).
    assert (Hkeep : forall t' task', delete t (suspended c) !! t' = Some task' ->
              t_id task' = id ->
              0 <= t_index task' /\
              (t_index task' = hole_of (t_state task') -> t_settled task' = None)).
    { intros t' task' Ht'. apply lookup_delete_Some in Ht' as [_ Ht']. by eapply Htask. }
    assert (Hput : forall task bytes st n st',
              suspended c !! t = Some task -> t_settled task = Some bytes ->
              objects c !! (t_id task, t_state task) = Some st ->
              <[(t_id task, t_state task) := stored task bytes st]> (objects c) !! (id, n)
                = Some st' ->
              total st' = N /\ chunks st' !! Z.to_nat (hole_of n) = Some None).
    { intros task bytes st n st' Ht Hsettled Hst Hst'. rewrite lookup_insert in Hst'.
      destruct (decide ((t_id task, t_state task) = (id, n))) as [Heq|_]; [|by eapply Hobj].
      injection Heq as Hid Hn. injection Hst' as <-. cbn.
      rewrite Hid, Hn in Hst. destruct (Hobj _ _ Hst) as [HN Hhole]. split; [done|].
      destruct (Htask _ _ Ht Hid) as [Hpos Hnot].
      rewrite array_set_other; [done| |by eapply lookup_lt_Some].
      intros Heq. rewrite Hn in Hnot. rewrite Hnot in Hsettled; [done|].
      specialize (Hrange n). lia. }
    intros c' [Hnone | task Ht Hfail | task bytes Ht Hsettled Hlost
               | task bytes st Ht Hsettled Hst Hmore
               | task bytes st merged Ht Hsettled Hst Hfull Hmerge
               | task bytes st e Ht Hsettled Hst Hfull Hmerge].
    + by split.
    + split; cbn; [done|done|].
      intros n m merged Hin. apply elem_of_app in Hin as [Hin|Hin]; [by eapply Hsilent|].
      by apply list_elem_of_singleton in Hin.
    + by split.
    + split; cbn; [|done|done]. intros n st'. by eapply Hput.
    + split; cbn; [intros n st'; by eapply Hput|done|].
      intros n m merged' Hin. apply elem_of_app in Hin as [Hin|Hin]; [by eapply Hsilent|].
      apply list_elem_of_singleton in Hin. injection Hin as Hid Hn _ _.
      assert (Hself : <[(t_id task, t_state task) := stored task bytes st]> (objects c)
                        !! (id, n) = Some (stored task bytes st)).
      { rewrite Hid, Hn. apply lookup_insert_eq. }
      destruct (Hput _ _ _ _ _ Ht Hsettled Hst Hself) as [_ Hhole].
      destruct (merge_hole _ _ Hhole) as [e He]. congruence.
    + split; cbn; [intros n st'; by eapply Hput|done|done].
  - (* Expire *)
    cbn. unfold expire. destruct (timers c !! r); [|by split].
    case_match; by split.
  - (* Elapse *)
    by split.
Qed.

Lemma receives_cons_Receive p events : receives (Receive p :: events) = p :: receives events.
Proof. reflexivity. Qed.

Lemma receives_app events events' :
  receives (events ++ events') = receives events ++ receives events'.
Proof. unfold receives. apply omap_app. Qed.

Lemma elem_of_receives p events : p ∈ receives events <-> Receive p ∈ events.
Proof.
  unfold receives. rewrite list_elem_of_omap. split.
  - intros (e & He & Hp). destruct e; try done. by injection Hp as ->.
  - intros He. by exists (Receive p).
Qed.

(** A run in which every delivery of slot [k] of the transfer fails to
    decrypt keeps that slot empty in every record of the transfer. *)
Lemma holes_run_fixed id N k key events :
  0 <= k < N ->
  (forall p, p ∈ receives events -> p_id p = JString id ->
     p_total p = JNumber N /\
     (p_index p = JNumber k -> decrypt_or_null key p = None)) ->
  forall c, cryptoKey c = key -> holes id N (fun _ => k) c ->
  holes id N (fun _ => k) (run c events).
Proof.
  intros Hk. induction events as [|e events IH]; intros Hall c Hkey Hholes; [done|].
  cbn [run foldl]. apply IH.
  - intros p Hp. apply Hall. apply elem_of_receives. right. by apply elem_of_receives.
  - by rewrite step_cryptoKey.
  - apply holes_step; [done|done|].
    destruct e as [p| | |]; cbn; [|done..].
    intros Hid. rewrite Hkey. apply Hall; [|done]. apply elem_of_receives. by left.
Qed.

(** *** A chunk that fails to decrypt *)

Lemma seated_initial key : seated (initial key).
Proof. split; cbn; intros *; by rewrite lookup_empty. Qed.

Lemma next_task_step c e : (next_task c <= next_task (step c e))%nat.
Proof.
  destruct e as [payload|t|r|ms].
  - generalize (step_Receive payload c). generalize (step c (Receive payload)).
    intros c' []; cbn; lia.
  - generalize (step_Settle t c). generalize (step c (Settle t)).
    intros c' []; cbn; lia.
  - cbn. unfold expire. destruct (timers c !! r); [|done]. by case_match.
  - done.
Qed.

Lemma seated_step c e : seated c -> seated (step c e).
Proof.
  intros [Htask Hmap]. destruct e as [payload|t|r|ms].
  - generalize (step_Receive payload c). generalize (step c (Receive payload)).
    intros c' [| id' T i _ _ _ _ _ _
               | id' T i n st _ _ _ _ _ _ _ _
               | id' T i _ _ _ _ _ _]; [by split|by split| |].
    + split; cbn; [|done].
      intros t task Ht. rewrite lookup_insert in Ht. case_decide; [lia|].
      apply Htask in Ht. lia.
    + split; cbn.
      * intros t task Ht. rewrite lookup_insert in Ht. case_decide; [lia|].
        apply Htask in Ht. lia.
      * intros id n Hn. rewrite lookup_insert in Hn. case_decide as Hid.
        -- injection Hn as <-. subst id'. rewrite lookup_insert_eq. by eexists.
        -- rewrite lookup_insert_ne by congruence. by apply Hmap.
  - generalize (step_Settle t c). generalize (step c (Settle t)).
    assert (Hdel : forall t' task', delete t (suspended c) !! t' = Some task' ->
              (t' < next_task c)%nat).
    { intros t' task' Ht'. apply lookup_delete_Some in Ht' as [_ Ht']. by eapply Htask. }
    assert (Hunmap : forall id id' n, delete id (incomingChunks c) !! id' = Some n ->
              is_Some (objects c !! (id', n))).
    { intros id id' n Hn. apply lookup_delete_Some in Hn as [_ Hn]. by apply Hmap. }
    assert (Hput : forall r st id n, is_Some (objects c !! (id, n)) ->
              is_Some (<[r := st]> (objects c) !! (id, n))).
    { intros r st id n Hn. rewrite lookup_insert. by case_decide. }
    intros c' [Hnone | task Ht Hfail | task bytes Ht Hsettled Hlost
               | task bytes st Ht Hsettled Hst Hmore
               | task bytes st merged Ht Hsettled Hst Hfull Hmerge
               | task bytes st e Ht Hsettled Hst Hfull Hmerge];
      try (by split); split; cbn; eauto.
  - cbn. unfold expire. destruct (timers c !! r); [|by split].
    case_match; [|by split]. split; cbn; [done|].
    intros id n Hn. apply lookup_delete_Some in Hn as [_ Hn]. by apply Hmap.
  - by split.
Qed.

Lemma seated_run events : forall c, seated c -> seated (run c events).
Proof.
  induction events as [|e events IH]; intros c Hc; [done|].
  cbn [run foldl]. apply IH. by apply seated_step.
Qed.

(** A suspended call stays as it is until it is resumed. *)
Lemma suspended_step_other c e t :
  (t < next_task c)%nat -> e ≠ Settle t -> suspended (step c e) !! t = suspended c !! t.
Proof.
  intros Hold Hne. destruct e as [payload|t'|r|ms].
  - destruct (suspended_Receive c payload) as [->|[task ->]]; [done|].
    apply lookup_insert_ne. lia.
  - rewrite suspended_Settle. apply lookup_delete_ne. congruence.
  - cbn. unfold expire. destruct (timers c !! r); [|done]. by case_match.
  - done.
Qed.

Lemma suspended_run_other events t :
  Settle t ∉ events ->
  forall c, (t < next_task c)%nat -> suspended (run c events) !! t = suspended c !! t.
Proof.
  induction events as [|e events IH]; intros Hnot c Hold; [done|].
  cbn [run foldl]. apply not_elem_of_cons in Hnot as [Hne Hnot].
  unfold run in IH. rewrite IH; [|done|].
  - apply suspended_step_other; [done|congruence].
  - pose proof (next_task_step c e). lia.
Qed.

(** A call whose decryption failed deletes the entry of its transfer and
    shows the failure. *)
Lemma settle_fails c t task :
  suspended c !! t = Some task -> t_settled task = None ->
  step c (Settle t) =
    addFileMessage (FileFailed (t_payload task))
      (upd_incomingChunks (delete (t_id task)) (upd_suspended (delete t) c)).
Proof. intros Ht Hs. cbn [step]. unfold resume. rewrite Ht. cbv zeta. by rewrite Hs. Qed.

(** C6: in a run from the initial state in which the chunks of a transfer
    all declare [N] chunks, let chunk [k] be handed to the handler once, and
    fail to decrypt, while the transfer is in progress (or as its first
    chunk). The handler suspends one new call for it, at its decryption,
    which fails. Whatever happens before that call resumes, in the step in
    which it resumes it removes the assembly of the transfer from the map
    and shows the failure, as every call whose decryption failed does. And
    no file is ever shown for that transfer, whatever else is delivered and
    however the handlers interleave. A total above 4294967295 is left out for
    a first chunk: [new Array] throws there and no transfer starts. *)
Theorem C6_failed_chunk_aborts_transfer :
  forall (key : option CryptoKey) (id : jsstring) (N k : Z)
         (before after : list Event) (corrupt : Payload),
    0 <= k < N ->
    p_id corrupt = JString id -> p_index corrupt = JNumber k ->
    decrypt_or_null key corrupt = None ->
    (forall p, p ∈ receives (before ++ Receive corrupt :: after) ->
       p_id p = JString id -> p_total p = JNumber N) ->
    (forall p, p ∈ receives (before ++ after) ->
       p_id p = JString id -> p_index p ≠ JNumber k) ->
    is_Some (incomingChunks (run (initial key) before) !! id) \/ N <= 4294967295 ->
    let c := run (initial key) before in
    let t := next_task c in
    (suspended c !! t = None /\
     suspended (step c (Receive corrupt)) = <[t := failing_call corrupt id k c]> (suspended c) /\
     incomingChunks (step c (Receive corrupt)) !! id = Some (joins id c)) /\
    (forall mid, Settle t ∉ mid ->
       let c' := run c (Receive corrupt :: mid) in
       suspended c' !! t = Some (failing_call corrupt id k c) /\
       incomingChunks (step c' (Settle t)) !! id = None /\
       messagesEl (step c' (Settle t)) = messagesEl c' ++ [FileFailed corrupt] /\
       suspended (step c' (Settle t)) !! t = None) /\
    (forall c t task, suspended c !! t = Some task -> t_settled task = None ->
       incomingChunks (step c (Settle t)) !! t_id task = None /\
       messagesEl (step c (Settle t)) = messagesEl c ++ [FileFailed (t_payload task)]) /\
    (forall n m merged,
       FileShown (id, n) m merged ∉
         messagesEl (run (initial key) (before ++ Receive corrupt :: after))).
Proof.
  intros key id N k before after corrupt Hk Hid Hindex Hfail Htotal Honce Hlive.
  cbv zeta.
  set (c := run (initial key) before) in *.
  assert (Hkey : cryptoKey c = key) by apply run_cryptoKey.
  assert (Hseated : seated c) by apply seated_run, seated_initial.
  assert (Hholes : holes id N (fun _ => k) c).
  { apply holes_run_fixed with (key := key); [done| |done|apply holes_initial].
    intros p Hp Hpid. split.
    - apply Htotal; [|done]. rewrite receives_app. apply elem_of_app. by left.
    - intros Hpk. destruct (Honce p); [|done|done].
      rewrite receives_app. apply elem_of_app. by left. }
  assert (HN : p_total corrupt = JNumber N).
  { apply Htotal; [|done]. rewrite receives_app, receives_cons_Receive.
    apply elem_of_app. right. by left. }
  assert (Hfresh : suspended c !! next_task c = None).
  { destruct (suspended c !! next_task c) as [task|] eqn:Ht; [|done].
    apply (seated_tasks _ Hseated) in Ht. lia. }
  assert (Hstep : step c (Receive corrupt) =
            suspend (failing_call corrupt id k c)
              (match incomingChunks c !! id with
               | Some _ => c
               | None => with_fresh_state id (fresh_state corrupt N c) c
               end)).
  { unfold failing_call, joins. rewrite <- Hfail, <- Hkey.
    destruct (incomingChunks c !! id) as [n|] eqn:Hmap.
    - destruct (seated_map _ Hseated _ _ Hmap) as [st Hst].
      destruct (holes_objects _ _ _ _ Hholes _ _ Hst) as [Htot Hhole].
      apply (receive_joins c corrupt id N k n st); try done.
      unfold slot_filled. by rewrite Hhole.
    - destruct Hlive as [[n Hn]|Hsmall]; [done|].
      by apply receive_creates. }
  assert (Hcreated : suspended (step c (Receive corrupt))
                       = <[next_task c := failing_call corrupt id k c]> (suspended c)).
  { rewrite Hstep. by destruct (incomingChunks c !! id). }
  split; [|split; [|split]].
  - split; [done|]. split; [done|].
    rewrite Hstep. unfold joins.
    destruct (incomingChunks c !! id) as [n|] eqn:Hmap; cbn; [done|].
    apply lookup_insert_eq.
  - intros mid Hmid. cbn [run foldl]. fold (run (step c (Receive corrupt)) mid).
    assert (Hstill : suspended (run (step c (Receive corrupt)) mid) !! next_task c
                       = Some (failing_call corrupt id k c)).
    { rewrite suspended_run_other; [|done|].
      - rewrite Hcreated. apply lookup_insert_eq.
      - rewrite Hstep. destruct (incomingChunks c !! id); cbn; lia. }
    split; [done|].
    rewrite (settle_fails _ _ _ Hstill eq_refl). cbn.
    split; [apply lookup_delete_eq|]. split; [done|]. apply lookup_delete_eq.
  - intros c0 t task Ht Hnone. rewrite (settle_fails _ _ _ Ht Hnone). cbn.
    split; [apply lookup_delete_eq|done].
  - apply (holes_silent id N (fun _ => k)).
    apply holes_run_fixed with (key := key); [done| |done|apply holes_initial].
    intros p Hp Hpid. split; [by apply Htotal|].
    intros Hpk. rewrite receives_app, receives_cons_Receive in Hp.
    apply elem_of_app in Hp as [Hp|Hp].
    + destruct (Honce p); [|done|done]. rewrite receives_app. apply elem_of_app. by left.
    + apply elem_of_cons in Hp as [->|Hp]; [done|].
      destruct (Honce p); [|done|done]. rewrite receives_app. apply elem_of_app. by right.
Qed.

(** C7: when the slot of index [i] is already filled in the assembly of the
    transfer, handing a chunk with that index to the handler changes
    nothing: the session, and with it the received count and the stored
    bytes, stays as it was, so every later run proceeds as without the
    redelivery. *)
Theorem C7_redelivery_of_filled_slot_ignored :
  forall (c : Session) (payload : Payload) (id : jsstring) (i : Z) (n : nat) (st : ChunkState),
    p_id payload = JString id -> p_index payload = JNumber i ->
    incomingChunks c !! id = Some n -> objects c !! (id, n) = Some st ->
    slot_filled (Z.to_nat i) (chunks st) = true ->
    step c (Receive payload) = c /\
    (exists st', objects (step c (Receive payload)) !! (id, n) = Some st' /\
       received st' = received st /\ chunks st' = chunks st) /\
    (forall events, run c (Receive payload :: events) = run c events) /\
    (forall events, messagesEl (run c (Receive payload :: events)) = messagesEl (run c events)).
Proof.
  intros c payload id i n st Hid Hi Hmap Hobj Hfilled.
  assert (Hsame : step c (Receive payload) = c).
  { generalize (step_Receive payload c). generalize (step c (Receive payload)).
    intros c' [| id' T i' Hid' _ _ _ Hmap' _
               | id' T i' n' st' Hid' _ Hi' _ Hmap' Hobj' _ Hslot
               | id' T i' Hid' _ _ _ Hmap' _]; [done|exfalso..].
    - rewrite Hid in Hid'. injection Hid' as <-. congruence.
    - rewrite Hid in Hid'. injection Hid' as <-.
      rewrite Hi in Hi'. injection Hi' as <-.
      rewrite Hmap in Hmap'. injection Hmap' as <-.
      rewrite Hobj in Hobj'. injection Hobj' as <-. congruence.
    - rewrite Hid in Hid'. injection Hid' as <-. congruence. }
  split; [done|]. split; [|split].
  - rewrite Hsame. by exists st.
  - intros events. cbn [run foldl]. by rewrite Hsame.
  - intros events. cbn [run foldl]. by rewrite Hsame.
Qed.

(** *** Expiry *)

Lemma delivered_app id events events' :
  delivered id (events ++ events') = delivered id events ++ delivered id events'.
Proof. unfold delivered. by rewrite receives_app, omap_app. Qed.

Lemma elem_of_delivered id i events :
  i ∈ delivered id events <->
  exists p, p ∈ receives events /\ p_id p = JString id /\ p_index p = JNumber i.
Proof.
  unfold delivered. rewrite list_elem_of_omap. unfold index_of. split.
  - intros (p & Hp & Hi). case_decide as Hid; [|done].
    exists p. split; [done|]. split; [done|].
    destruct (p_index p); try done. by injection Hi as ->.
  - intros (p & Hp & Hid & Hi). exists p. split; [done|].
    rewrite decide_True by done. by rewrite Hi.
Qed.

Lemma bounded_initial key : bounded (initial key).
Proof. split; cbn; intros *; by rewrite lookup_empty. Qed.

Lemma bounded_step c e : bounded c -> bounded (step c e).
Proof.
  intros [Hobj Htask Hmap]. destruct e as [payload|t|r|ms].
  - generalize (step_Receive payload c). generalize (step c (Receive payload)).
    intros c' [| id' T i _ _ _ _ _ _
               | id' T i n st _ _ _ _ Hm _ _ _
               | id' T i _ _ _ _ _ _]; [by split|by split| |].
    + split; cbn; [done| |done].
      intros t task Ht. rewrite lookup_insert in Ht. case_decide; [|by eapply Htask].
      injection Ht as <-. cbn. by eapply Hmap.
    + split; cbn.
      * intros id n st Hst. rewrite lookup_insert in Hst. case_decide as Heq.
        -- injection Heq as _ <-. lia.
        -- apply Hobj in Hst. lia.
      * intros t task Ht. rewrite lookup_insert in Ht. case_decide.
        -- injection Ht as <-. cbn. lia.
        -- apply Htask in Ht. lia.
      * intros id n Hn. rewrite lookup_insert in Hn. case_decide.
        -- injection Hn as <-. lia.
        -- apply Hmap in Hn. lia.
  - generalize (step_Settle t c). generalize (step c (Settle t)).
    assert (Hdel : forall t' task', delete t (suspended c) !! t' = Some task' ->
              (t_state task' < next_serial c)%nat).
    { intros t' task' Ht'. apply lookup_delete_Some in Ht' as [_ Ht']. by eapply Htask. }
    assert (Hunmap : forall id id' n, delete id (incomingChunks c) !! id' = Some n ->
              (n < next_serial c)%nat).
    { intros id id' n Hn. apply lookup_delete_Some in Hn as [_ Hn]. by eapply Hmap. }
    assert (Hput : forall task st' id n st, suspended c !! t = Some task ->
              <[(t_id task, t_state task) := st']> (objects c) !! (id, n) = Some st ->
              (n < next_serial c)%nat).
    { intros task st' id n st Ht Hst. rewrite lookup_insert in Hst. case_decide as Heq.
      - injection Heq as _ <-. by eapply Htask.
      - by eapply Hobj. }
    intros c' [Hnone | task Ht Hfail | task bytes Ht Hsettled Hlost
               | task bytes st Ht Hsettled Hst Hmore
               | task bytes st merged Ht Hsettled Hst Hfull Hmerge
               | task bytes st e Ht Hsettled Hst Hfull Hmerge];
      try (by split); split; cbn; eauto.
  - cbn. unfold expire. destruct (timers c !! r); [|by split].
    case_match; [|by split]. split; cbn; [done|done|].
    intros id n Hn. apply lookup_delete_Some in Hn as [_ Hn]. by eapply Hmap.
  - by split.
Qed.

Lemma bounded_run events : forall c, bounded c -> bounded (run c events).
Proof.
  induction events as [|e events IH]; intros c Hc; [done|].
  cbn [run foldl]. apply IH. by apply bounded_step.
Qed.

Lemma armed_by_step id N seen c e :
  (forall p, e = Receive p -> p_id p = JString id -> p_total p = JNumber N) ->
  armed_by id N seen c ->
  armed_by id N (seen ++ delivered id [e]) (step c e).
Proof.
  intros Htotal Harmed.
  assert (Hweak : forall n deadline, timers c !! (id, n) = Some deadline ->
            exists a, a ∈ seen ++ delivered id [e] /\ 0 <= a < N).
  { intros n deadline Hn. destruct (Harmed _ _ Hn) as (a & Ha & Hrange).
    exists a. split; [|done]. apply elem_of_app. by left. }
  destruct e as [payload|t|r|ms].
  - generalize (step_Receive payload c). generalize (step c (Receive payload)).
    intros c' [| id' T i _ _ _ _ _ _
               | id' T i n st _ _ _ _ _ _ _ _
               | id' T i Hid HT Hi Hrange _ _]; try done.
    intros n deadline. cbn [timers suspend with_fresh_state].
    rewrite lookup_insert. case_decide as Heq; [|by apply Hweak].
    injection Heq as -> _. intros _. exists i. split.
    + apply elem_of_app. right. apply elem_of_delivered. exists payload.
      split; [|done]. cbn. by left.
    + specialize (Htotal payload eq_refl Hid). rewrite HT in Htotal.
      by injection Htotal as ->.
  - generalize (step_Settle t c). generalize (step c (Settle t)).
    intros c' []; try done; intros n deadline; cbn; intros Hn;
      apply lookup_delete_Some in Hn as [_ Hn]; by eapply Hweak.
  - cbn. unfold expire. destruct (timers c !! r); [|done]. case_match; [|done].
    intros n deadline. cbn. intros Hn.
    apply lookup_delete_Some in Hn as [_ Hn]. by eapply Hweak.
  - done.
Qed.

Lemma armed_by_run id N events :
  (forall p, p ∈ receives events -> p_id p = JString id -> p_total p = JNumber N) ->
  forall seen c, armed_by id N seen c ->
  armed_by id N (seen ++ delivered id events) (run c events).
Proof.
  induction events as [|e events IH]; intros Htotal seen c Harmed.
  - cbn. by rewrite app_nil_r.
  - cbn [run foldl].
    change (e :: events) with ([e] ++ events). rewrite delivered_app, app_assoc.
    apply IH.
    + intros p Hp. apply Htotal. apply elem_of_receives. right. by apply elem_of_receives.
    + apply armed_by_step; [|done]. intros p -> Hid. apply Htotal; [|done].
      apply elem_of_receives. by left.
Qed.

Lemma renewed_step id L c e : renewed id L c -> renewed id L (step c e).
Proof.
  intros [Hnext Hmap]. destruct e as [payload|t|r|ms].
  - generalize (step_Receive payload c). generalize (step c (Receive payload)).
    intros c' [| | |id' T i _ _ _ _ _ _]; try by split.
    split; cbn; [lia|]. intros n. rewrite lookup_insert. case_decide.
    + intros [= <-]. done.
    + apply Hmap.
  - generalize (step_Settle t c). generalize (step c (Settle t)).
    intros c' []; try (by split); (split; cbn; [done|]); intros n Hn;
      apply lookup_delete_Some in Hn as [_ Hn]; by apply Hmap.
  - cbn. unfold expire. destruct (timers c !! r); [|by split]. case_match; [|by split].
    split; cbn; [done|]. intros n Hn.
    apply lookup_delete_Some in Hn as [_ Hn]. by apply Hmap.
  - by split.
Qed.

Lemma renewed_joins id L c : renewed id L c -> (L <= joins id c)%nat.
Proof.
  intros [Hnext Hmap]. unfold joins.
  destruct (incomingChunks c !! id) as [n|] eqn:Hn; cbn; [by apply Hmap|done].
Qed.

(** Records created from serial [L] on keep slot [a] empty, older ones slot
    [m], as long as no chunk [a] is delivered any more. *)
Lemma holes_run_renewed id N m a L events :
  0 <= m < N -> 0 <= a < N ->
  (forall p, p ∈ receives events -> p_id p = JString id ->
     p_total p = JNumber N /\ p_index p ≠ JNumber a) ->
  forall c,
    holes id N (fun n => if (n <? L)%nat then m else a) c -> renewed id L c ->
    holes id N (fun n => if (n <? L)%nat then m else a) (run c events).
Proof.
  intros Hm Ha. induction events as [|e events IH]; intros Hall c Hholes Hnew; [done|].
  cbn [run foldl]. apply IH.
  - intros p Hp. apply Hall. apply elem_of_receives. right. by apply elem_of_receives.
  - apply holes_step; [|done|].
    + intros n. by case_match.
    + destruct e as [p| | |]; [|exact I..]. unfold harmless.
      intros Hid. destruct (Hall p) as [HN Hne]; [apply elem_of_receives; by left|done|].
      split; [done|]. intros Hindex. exfalso. apply Hne. rewrite Hindex.
      apply renewed_joins in Hnew. apply Nat.ltb_ge in Hnew. by rewrite Hnew.
  - by apply renewed_step.
Qed.

Lemma expire_due c r deadline :
  timers c !! r = Some deadline -> deadline <= clock c ->
  step c (Expire r) = upd_incomingChunks (delete r.1) (upd_timers (delete r) c).
Proof.
  intros Hr Hdue. cbn. unfold expire. rewrite Hr.
  destruct (Z.leb_spec deadline (clock c)); [done|lia].
Qed.

(** C8: a record is armed, when it is created, with a timer due 120,000 ms
    later; the timer never runs earlier, and when it runs the transfer has no
    record in the map any more. In a run from the initial state in which the
    chunks of a transfer all declare [N] chunks and no index is delivered
    twice, if a timer of the transfer runs while chunk [m] has not been
    delivered yet, no file is ever shown for that transfer, whatever is
    delivered afterwards. *)
Theorem C8_expired_transfer_never_completes :
  forall (key : option CryptoKey) (id : jsstring) (N m : Z)
         (before after : list Event) (n : nat) (deadline : Z),
    0 <= m < N ->
    (forall p, p ∈ receives (before ++ after) -> p_id p = JString id ->
       p_total p = JNumber N) ->
    NoDup (delivered id (before ++ after)) ->
    m ∉ delivered id before ->
    timers (run (initial key) before) !! (id, n) = Some deadline ->
    deadline <= clock (run (initial key) before) ->
    (forall c payload r st,
       objects c !! r = None -> objects (step c (Receive payload)) !! r = Some st ->
       timers (step c (Receive payload)) !! r = Some (clock c + 120000)) /\
    (forall c r due, timers c !! r = Some due -> clock c < due -> step c (Expire r) = c) /\
    (let expired := step (run (initial key) before) (Expire (id, n)) in
     incomingChunks expired !! id = None /\ timers expired !! (id, n) = None) /\
    (forall n' shown merged,
       FileShown (id, n') shown merged ∉
         messagesEl (run (initial key) (before ++ Expire (id, n) :: after))).
Proof.
  intros key id N m before after n deadline Hm Htotal Honce Hmissing Htimer Hdue.
  split; [|split; [|split]].
  - intros c payload r st Hnone.
    generalize (step_Receive payload c). generalize (step c (Receive payload)).
    intros c' [| | |id' T i _ _ _ _ _ _]; cbn; try congruence.
    rewrite !lookup_insert. case_decide; [done|congruence].
  - intros c r due Hr Hearly. cbn. unfold expire. rewrite Hr.
    destruct (Z.leb_spec due (clock c)); [lia|done].
  - cbv zeta. rewrite (expire_due _ _ _ Htimer Hdue). cbn.
    split; apply lookup_delete_eq.
  - rewrite run_app. cbn [run foldl]. fold (run (step (run (initial key) before) (Expire (id, n))) after).
    set (c1 := run (initial key) before) in *.
    assert (Hbefore : forall p, p ∈ receives before -> p_id p = JString id ->
              p_total p = JNumber N).
    { intros p Hp. apply Htotal. rewrite receives_app. apply elem_of_app. by left. }
    assert (Hholes1 : holes id N (fun _ => m) c1).
    { apply holes_run_fixed with (key := key); [done| |done|apply holes_initial].
      intros p Hp Hid. split; [by apply Hbefore|].
      intros Hindex. destruct Hmissing. apply elem_of_delivered. by exists p. }
    assert (Hbounded : bounded c1) by apply bounded_run, bounded_initial.
    assert (Harmed0 : armed_by id N [] (initial key)).
    { intros ? ? H. cbn in H. by rewrite lookup_empty in H. }
    destruct (armed_by_run id N before Hbefore [] (initial key) Harmed0 n deadline Htimer)
      as (a & Ha & Harange).
    cbn [app] in Ha.
    remember (next_serial c1) as L eqn:HL.
    apply (holes_silent id N (fun n => if (n <? L)%nat then m else a)).
    apply holes_run_renewed; [done|done| | |].
    + intros p Hp Hid. split.
      * apply Htotal; [|done]. rewrite receives_app. apply elem_of_app. by right.
      * intros Hindex. rewrite delivered_app in Honce.
        apply list.NoDup_app in Honce as (_ & Hdisjoint & _).
        apply (Hdisjoint a Ha). apply elem_of_delivered. by exists p.
    + rewrite (expire_due _ _ _ Htimer Hdue).
      destruct Hholes1 as [Hobj Htask Hsilent]. split; cbn -[Nat.ltb].
      * intros n' st Hst. destruct (Hobj _ _ Hst) as [HN Hhole]. split; [done|].
        apply (bounded_objects _ Hbounded) in Hst. apply Nat.ltb_lt in Hst.
        rewrite <- HL in Hst. by rewrite Hst.
      * intros t task Ht Hown. destruct (Htask _ _ Ht Hown) as [Hpos Hnot].
        split; [done|]. apply (bounded_tasks _ Hbounded) in Ht. apply Nat.ltb_lt in Ht.
        rewrite <- HL in Ht. by rewrite Ht.
      * done.
    + rewrite (expire_due _ _ _ Htimer Hdue). split; cbn; [lia|].
      intros n'. by rewrite lookup_delete_eq.
Qed.

(** *** Merging a complete array *)

Lemma filled_replicate {A} n : filled (replicate n (@None A)) = 0%nat.
Proof. induction n; cbn; done. Qed.

Lemma filled_le {A} (a : list (option A)) : (filled a <= length a)%nat.
Proof. induction a as [|[x|] rest IH]; cbn; lia. Qed.

Lemma filled_insert {A} (a : list (option A)) (j : nat) (x : A) :
  a !! j = Some None -> filled (<[j := Some x]> a) = S (filled a).
Proof.
  revert j. induction a as [|slot rest IH]; intros j Hj; [done|].
  destruct j as [|j]; cbn in Hj |- *.
  - by injection Hj as ->.
  - destruct slot; cbn; [f_equal|]; exact (IH j Hj).
Qed.

Lemma filled_all {A} (a : list (option A)) :
  filled a = length a -> forall j, (j < length a)%nat -> exists x, a !! j = Some (Some x).
Proof.
  induction a as [|slot rest IH]; intros Hall j Hj; cbn in *; [lia|].
  destruct slot as [x|].
  - destruct j as [|j]; cbn; [by eexists|]. apply IH; lia.
  - pose proof (filled_le rest). lia.
Qed.

Lemma array_set_inside {A} (j : nat) (x : A) (a : list (option A)) :
  (j < length a)%nat -> array_set j x a = <[j := Some x]> a.
Proof.
  intros Hj. unfold array_set. by destruct (Nat.ltb_spec j (length a)); [|lia].
Qed.

Lemma array_reduce_sum (ps : list (list byte)) (init : nat) :
  array_reduce (fun sum chunk => (sum + length chunk)%nat) init (Some <$> ps)
    = (init + length (concat ps))%nat.
Proof.
  unfold array_reduce. revert init.
  induction ps as [|chunk rest IH]; intros init; cbn; [lia|].
  rewrite IH, length_app. lia.
Qed.

Lemma merge_loop_complete (ps : list (list byte)) :
  forall merged offset,
    (offset + length (concat ps) <= length merged)%nat ->
    merge_loop (Some <$> ps) merged offset =
      Normal (take offset merged ++ concat ps ++ drop (offset + length (concat ps)) merged).
Proof.
  induction ps as [|chunk rest IH]; intros merged offset Hfit; cbn [fmap list_fmap merge_loop concat].
  - cbn. rewrite Nat.add_0_r. by rewrite take_drop.
  - cbn [concat] in Hfit. rewrite length_app in Hfit.
    unfold typed_array_set.
    destruct (Nat.leb_spec (offset + length chunk) (length merged)) as [_|]; [|lia].
    cbn [bind default].
    assert (Hoff : length (take offset merged) = offset) by (rewrite length_take; lia).
    rewrite IH.
    + f_equal. rewrite length_app.
      rewrite (app_assoc (take offset merged) chunk).
      change (id chunk) with chunk.
      rewrite take_app_length' by (rewrite length_app; lia).
      rewrite Nat.add_assoc.
      rewrite drop_app_add' by (rewrite length_app; lia).
      rewrite drop_drop. rewrite <- !app_assoc. do 3 f_equal.
    + rewrite !length_app, length_take, length_drop. change (id chunk) with chunk. lia.
Qed.

Lemma merge_complete (ps : list (list byte)) : merge (Some <$> ps) = Normal (concat ps).
Proof.
  unfold merge. rewrite array_reduce_sum. cbn [Nat.add].
  rewrite merge_loop_complete by (rewrite length_replicate; lia).
  cbn [take Nat.add]. rewrite drop_ge by (rewrite length_replicate; lia).
  by rewrite app_nil_r.
Qed.

Lemma complete_array (a : list (option (list byte))) (ps : list (list byte)) :
  length a = length ps -> filled a = length a ->
  (forall j plain, a !! j = Some (Some plain) -> ps !! j = Some plain) ->
  a = Some <$> ps.
Proof.
  intros Hlen Hall Hcontent. apply list_eq. intros j. rewrite list_lookup_fmap.
  destruct (decide (j < length a)%nat) as [Hj|Hj].
  - destruct (filled_all a Hall j Hj) as [x Hx]. rewrite Hx.
    by rewrite (Hcontent _ _ Hx).
  - rewrite !lookup_ge_None_2 by lia. done.
Qed.

(** *** The invariant of the assemblies, in runs without overlapping
    duplicates *)

Lemma orderly_initial key : orderly (initial key).
Proof.
  split.
  - intros id n st H. cbn in H. by rewrite lookup_empty in H.
  - intros t task st H. cbn in H. by rewrite lookup_empty in H.
  - intros t t' task task' H. cbn in H. by rewrite lookup_empty in H.
Qed.

Lemma slot_empty {A} (a : list (option A)) (i : nat) :
  (i < length a)%nat -> slot_filled i a = false -> a !! i = Some None.
Proof.
  intros Hi. unfold slot_filled.
  destruct (a !! i) as [[x|]|] eqn:E; try done.
  apply lookup_ge_None in E. lia.
Qed.

Lemma orderly_Receive c payload :
  orderly c -> bounded c -> ~ overlapping c payload -> orderly (step c (Receive payload)).
Proof.
  intros [Hrec Hslots Hapart] Hbounded Hcalm.
  generalize (step_Receive payload c). generalize (step c (Receive payload)).
  intros c' [| id T i Hid HT Hi Hrange Hmap Hbig
             | id T i n st Hid HT Hi Hrange Hmap Hst Htot Hslot
             | id T i Hid HT Hi Hrange Hmap Hsmall].
  - by split.
  - by split.
  - destruct (Hrec _ _ _ Hmap Hst) as (Hlen & _ & _).
    split; [done| |]; unfold on_live_record; cbn.
    + intros t task st'. rewrite lookup_insert. case_decide; [|by apply Hslots].
      intros [= <-]. cbn. intros _ Hst'. rewrite Hst in Hst'. injection Hst' as <-.
      split; [lia|]. apply slot_empty; [lia|done].
    + intros t t' task task'. rewrite !lookup_insert.
      destruct (decide (next_task c = t)) as [<-|Hne];
        destruct (decide (next_task c = t')) as [<-|Hne']; try done.
      * intros [= <-] Ht' _ _. cbn. intros Hid' Hn' Hi'.
        apply Hcalm. exists t', task'. unfold on_live_record.
        rewrite Hid', Hn', Hi'. by repeat split.
      * intros Ht [= <-] _ Hlive. cbn. intros Hid' Hn' Hi'.
        apply Hcalm. exists t, task. unfold on_live_record.
        subst id i. by repeat split.
      * by apply Hapart.
  - split; unfold consistent, on_live_record; cbn.
    + intros id' n st. rewrite lookup_insert. case_decide as Heq.
      * subst id'. intros [= <-]. rewrite lookup_insert_eq. intros [= <-]. cbn.
        rewrite length_replicate, filled_replicate. lia.
      * intros Hn. rewrite lookup_insert_ne by congruence. by apply Hrec.
    + intros t task st. rewrite lookup_insert. case_decide as Ht.
      * intros [= <-]. cbn. intros _. rewrite lookup_insert_eq. intros [= <-]. cbn.
        split; [lia|]. apply lookup_replicate. split; [done|lia].
      * intros Htask. rewrite lookup_insert. case_decide as Heq.
        -- intros [= Hn]. apply (bounded_tasks _ Hbounded) in Htask. lia.
        -- intros Hlive. rewrite lookup_insert_ne.
           ++ by apply (Hslots t).
           ++ intros [= Hx _]. by apply Heq.
    + intros t t' task task'. rewrite !lookup_insert.
      destruct (decide (next_task c = t)) as [<-|Hne];
        destruct (decide (next_task c = t')) as [<-|Hne']; try done.
      * intros [= <-] Ht' _ _. cbn. intros _ Hn'.
        apply (bounded_tasks _ Hbounded) in Ht'. lia.
      * intros Ht [= <-] _. cbn. case_decide as Heq.
        -- intros [= Hn]. apply (bounded_tasks _ Hbounded) in Ht. lia.
        -- intros _ Hid'. by destruct Heq.
      * intros Ht Ht' Hdiff. case_decide as Heq.
        -- intros [= Hn]. apply (bounded_tasks _ Hbounded) in Ht. lia.
        -- intros Hlive. by apply (Hapart t t').
Qed.

Lemma orderly_weaken c c' :
  orderly c ->
  (forall id n, incomingChunks c' !! id = Some n ->
     incomingChunks c !! id = Some n /\ objects c' !! (id, n) = objects c !! (id, n)) ->
  (forall t task, suspended c' !! t = Some task -> suspended c !! t = Some task) ->
  orderly c'.
Proof.
  intros [Hrec Hslots Hapart] Hmap Hsusp. split.
  - intros id n st Hn Hst. destruct (Hmap _ _ Hn) as [Hn' Hsame].
    rewrite Hsame in Hst. by eapply Hrec.
  - intros t task st Ht Hlive Hst. destruct (Hmap _ _ Hlive) as [Hlive' Hsame].
    rewrite Hsame in Hst. by eapply Hslots; [apply Hsusp| |].
  - intros t t' task task' Ht Ht' Hne Hlive. destruct (Hmap _ _ Hlive) as [Hlive' _].
    by eapply (Hapart t t'); [apply Hsusp|apply Hsusp| |].
Qed.

Lemma orderly_Settle c t : orderly c -> orderly (step c (Settle t)).
Proof.
  intros Horderly.
  generalize (step_Settle t c). generalize (step c (Settle t)).
  intros c' [Hnone | task Ht Hfail | task bytes Ht Hsettled Hlost
             | task bytes st Ht Hsettled Hst Hmore
             | task bytes st merged Ht Hsettled Hst Hfull Hmerge
             | task bytes st e Ht Hsettled Hst Hfull Hmerge].
  - done.
  - apply (orderly_weaken c); [done| |]; cbn.
    + intros id n Hn. apply lookup_delete_Some in Hn as [_ Hn]. done.
    + intros t0 task0 Ht0. by apply lookup_delete_Some in Ht0 as [_ Ht0].
  - apply (orderly_weaken c); [done| |]; cbn.
    + done.
    + intros t0 task0 Ht0. by apply lookup_delete_Some in Ht0 as [_ Ht0].
  - destruct Horderly as [Hrec Hslots Hapart].
    assert (Hkept : forall id n st0,
              incomingChunks c !! id = Some n ->
              <[(t_id task, t_state task) := stored task bytes st]> (objects c) !! (id, n)
                = Some st0 ->
              (id, n) = (t_id task, t_state task) /\ st0 = stored task bytes st /\
                on_live_record c task \/
              (id, n) ≠ (t_id task, t_state task) /\ objects c !! (id, n) = Some st0).
    { intros id n st0 Hn. rewrite lookup_insert. case_decide as Heq.
      - intros [= <-]. left. injection Heq as <- <-. done.
      - intros Hst0. right. split; [congruence|done]. }
    split; unfold consistent, on_live_record; cbn.
    + intros id n st0 Hn Hst0.
      destruct (Hkept _ _ _ Hn Hst0) as [(_ & -> & Hlive) | [_ Hold]]; [|by eapply Hrec].
      destruct (Hrec _ _ _ Hlive Hst) as (Hlen & Hcount & Hshort).
      destruct (Hslots _ _ _ Ht Hlive Hst) as [Hrange Hempty].
      cbn. rewrite array_set_inside by lia.
      rewrite length_insert, (filled_insert _ _ _ Hempty). lia.
    + intros t0 task0 st0 Ht0 Hlive0 Hst0.
      apply lookup_delete_Some in Ht0 as [Hne Ht0].
      destruct (Hkept _ _ _ Hlive0 Hst0) as [(Heq & -> & Hlive) | [_ Hold]];
        [|by eapply Hslots].
      injection Heq as Hid Hn.
      assert (Hst' : objects c !! (t_id task0, t_state task0) = Some st) by by rewrite Hid, Hn.
      destruct (Hslots _ _ _ Ht0 Hlive0 Hst') as [Hrange Hempty].
      destruct (Hslots _ _ _ Ht Hlive Hst) as [Hrange' _].
      split; [done|]. cbn.
      rewrite array_set_other; [done| |by eapply lookup_lt_Some].
      pose proof (Hapart t t0 task task0 Ht Ht0 Hne Hlive Hid Hn). lia.
    + intros t0 t1 task0 task1 Ht0 Ht1 Hne Hlive.
      apply lookup_delete_Some in Ht0 as [_ Ht0]. apply lookup_delete_Some in Ht1 as [_ Ht1].
      by apply (Hapart t0 t1).
  - apply (orderly_weaken c); [done| |]; cbn.
    + intros id n Hn. apply lookup_delete_Some in Hn as [Hne Hn]. split; [done|].
      apply lookup_insert_ne. congruence.
    + intros t0 task0 Ht0. by apply lookup_delete_Some in Ht0 as [_ Ht0].
  - apply (orderly_weaken c); [done| |]; cbn.
    + intros id n Hn. apply lookup_delete_Some in Hn as [Hne Hn]. split; [done|].
      apply lookup_insert_ne. congruence.
    + intros t0 task0 Ht0. by apply lookup_delete_Some in Ht0 as [_ Ht0].
Qed.

Lemma orderly_step c e :
  orderly c -> bounded c ->
  match e with Receive payload => ~ overlapping c payload | _ => True end ->
  orderly (step c e).
Proof.
  intros Horderly Hbounded Hcalm. destruct e as [payload|t|r|ms].
  - by apply orderly_Receive.
  - by apply orderly_Settle.
  - cbn. unfold expire. destruct (timers c !! r); [|done]. case_match; [|done].
    apply (orderly_weaken c); [done| |done]. cbn.
    intros id n Hn. by apply lookup_delete_Some in Hn as [_ Hn].
  - by apply (orderly_weaken c).
Qed.

(** X11: in a run, from the initial state, in which no chunk is received
    while a call for the same slot of the same record is suspended, every
    assembly in the map has as many slots as it declares, counts exactly its
    filled slots, and is incomplete: whatever the transfers, their
    interleaving and the expiries. *)
Lemma consistent_in_calm_runs key events :
  calm (initial key) events -> consistent (run (initial key) events).
Proof.
  intros Hcalm. apply orderly_records.
  assert (Hgen : forall c, orderly c -> bounded c -> calm c events -> orderly (run c events)).
  { clear Hcalm. induction events as [|e events IH]; intros c Horderly Hbounded Hcalm; [done|].
    destruct Hcalm as [He Hrest]. cbn [run foldl]. apply IH; [|by apply bounded_step|done].
    by apply orderly_step. }
  apply Hgen; [apply orderly_initial|apply bounded_initial|done].
Qed.

(** *** Reassembly of one transfer, whatever the interleaving

    [sent] are the chunks of one transfer: chunk [j] carries index [j],
    declares [T] chunks and decrypts under [key] to [plains !! j]. *)
Section Reassembly.
Variables (key : option CryptoKey) (id : jsstring) (T : Z).
Variables (plains : list (list byte)) (sent : list Payload).
Hypothesis HT : 0 < T <= 4294967295.
Hypothesis Hsent_length : length sent = Z.to_nat T.
Hypothesis Hplains_length : length plains = Z.to_nat T.
Hypothesis Hsent : forall j p, sent !! j = Some p ->
  p_id p = JString id /\ p_index p = JNumber (Z.of_nat j) /\ p_total p = JNumber T /\
  exists plain, plains !! j = Some plain /\ decrypt_or_null key p = Some plain.

Lemma sent_indexes_NoDup : NoDup (p_index <$> sent).
Proof.
  apply NoDup_alt. intros i j x Hi Hj.
  rewrite list_lookup_fmap in Hi, Hj.
  destruct (sent !! i) as [p|] eqn:Hp; [|done].
  destruct (sent !! j) as [q|] eqn:Hq; [|done].
  cbn in Hi, Hj. destruct (Hsent _ _ Hp) as (_ & Hip & _).
  destruct (Hsent _ _ Hq) as (_ & Hjq & _).
  assert (JNumber (Z.of_nat i) = JNumber (Z.of_nat j)) as Heq by congruence.
  injection Heq. lia.
Qed.

Lemma received_indexes_NoDup R : R ⊆+ sent -> NoDup (p_index <$> R).
Proof.
  intros Hsub. apply (fmap_submseteq p_index) in Hsub.
  apply submseteq_Permutation in Hsub as [k Hk].
  pose proof sent_indexes_NoDup as Hnd. rewrite Hk in Hnd.
  by apply list.NoDup_app in Hnd as [Hnd _].
Qed.

Lemma received_position R t p : R ⊆+ sent -> R !! t = Some p ->
  exists j, sent !! j = Some p.
Proof.
  intros Hsub Hp. apply list_elem_of_lookup.
  eapply elem_of_submseteq; [|done]. by eapply list_elem_of_lookup_2.
Qed.

Lemma same_index_same_position R t t' p p' :
  R ⊆+ sent -> R !! t = Some p -> R !! t' = Some p' -> p_index p = p_index p' -> t = t'.
Proof.
  intros Hsub Hp Hp' Heq.
  pose proof (received_indexes_NoDup R Hsub) as Hnd.
  eapply NoDup_alt; [exact Hnd| |]; rewrite list_lookup_fmap.
  - by rewrite Hp.
  - rewrite Hp'. cbn. by rewrite Heq.
Qed.

Lemma sent_chunk R t p : R ⊆+ sent -> R !! t = Some p ->
  exists j plain,
    (j < Z.to_nat T)%nat /\ p_id p = JString id /\ p_index p = JNumber (Z.of_nat j) /\
    p_total p = JNumber T /\ plains !! j = Some plain /\ decrypt_or_null key p = Some plain.
Proof.
  intros Hsub Hp. destruct (received_position R t p Hsub Hp) as [j Hj].
  destruct (Hsent _ _ Hj) as (Hid & Hindex & Htotal & plain & Hplain & Hdec).
  exists j, plain. repeat split; try done.
  apply lookup_lt_Some in Hj. lia.
Qed.

Lemma progress_Receive R c p :
  progress key id T plains R c -> R ++ [p] ⊆+ sent -> progress key id T plains (R ++ [p]) (step c (Receive p)).
Proof.
  intros Hprog Hsub.
  assert (Hlast : (R ++ [p]) !! length R = Some p).
  { rewrite lookup_app_r by lia. by rewrite Nat.sub_diag. }
  destruct (sent_chunk _ _ _ Hsub Hlast) as (j & plain & Hj & Hid & Hindex & Htotal & Hplain & Hdec).
  destruct Hprog as [-> -> | st [] | m Hmsg Hsusp Hlen].
  - rewrite (receive_creates _ p id T (Z.of_nat j)); try done; try lia.
    apply progress_some with (st := fresh_state p T (initial key)).
    split; cbn; try done.
    + apply lookup_insert_eq.
    + apply lookup_insert_eq.
    + apply length_replicate.
    + by rewrite filled_replicate.
    + rewrite filled_replicate. rewrite map_size_insert_None by apply lookup_empty.
      by rewrite map_size_empty.
    + rewrite filled_replicate. lia.
    + intros j' plain' Hslot. apply lookup_replicate in Hslot as [? _]. done.
    + intros t task Ht. rewrite lookup_insert in Ht. case_decide as Heq.
      * injection Ht as <-. subst t. exists p, j. by repeat split.
      * by rewrite lookup_empty in Ht.
  - assert (Hfree : slot_filled (Z.to_nat (Z.of_nat j)) (chunks st) = false).
    { rewrite Nat2Z.id. unfold slot_filled.
      destruct (chunks st !! j) as [[x|]|] eqn:Hslot; try done.
      destruct (asm_slots0 _ _ Hslot) as (_ & t & q & Hq & Hqi & _).
      assert (t = length R).
      { apply (same_index_same_position (R ++ [p]) t (length R) q p Hsub);
          [by apply lookup_app_l_Some|done|congruence]. }
      apply lookup_lt_Some in Hq. lia. }
    assert (Hfresh : suspended c !! next_task c = None).
    { destruct (suspended c !! next_task c) as [task|] eqn:Ht; [|done].
      destruct (asm_tasks0 _ _ Ht) as (q & j' & Hq & _).
      apply lookup_lt_Some in Hq. lia. }
    rewrite (receive_joins _ p id T (Z.of_nat j) 0%nat st); try done; try lia.
    apply progress_some with (st := st). split; cbn; try done.
    + rewrite length_app. cbn. lia.
    + rewrite map_size_insert_None by done. rewrite length_app. cbn. lia.
    + intros j' plain' Hslot. destruct (asm_slots0 _ _ Hslot) as (Hp' & t & q & Hq & Hqi & Hnone).
      split; [done|]. exists t, q. split; [by apply lookup_app_l_Some|]. split; [done|].
      rewrite lookup_insert_ne; [done|]. apply lookup_lt_Some in Hq. lia.
    + intros t task Ht. rewrite lookup_insert in Ht. case_decide as Heq.
      * injection Ht as <-. exists p, j. rewrite <- Heq, asm_next0.
        split; [done|]. split; [done|]. unfold task_for, task_of. by rewrite asm_key0.
      * destruct (asm_tasks0 _ _ Ht) as (q & j' & Hq & Hqi & Htask).
        exists q, j'. split; [by apply lookup_app_l_Some|]. done.
  - apply submseteq_length in Hsub. rewrite length_app in Hsub. cbn in Hsub. lia.
Qed.

Lemma progress_Settle R c t :
  progress key id T plains R c -> R ⊆+ sent -> progress key id T plains R (step c (Settle t)).
Proof.
  intros Hprog Hsub.
  destruct Hprog as [-> -> | st Hasm | m Hmsg Hsusp Hlen].
  - rewrite settle_absent by apply lookup_empty. by apply progress_none.
  - destruct (suspended c !! t) as [task|] eqn:Ht;
      [|rewrite settle_absent by done; by eapply progress_some].
    destruct Hasm.
    destruct (asm_tasks0 _ _ Ht) as (p & j & Hp & Hindex & ->).
    destruct (sent_chunk _ _ _ Hsub Hp) as (j' & plain & Hj & _ & Hindex' & _ & Hplain & Hdec).
    assert (j' = j) as -> by (rewrite Hindex in Hindex'; injection Hindex'; lia).
    assert (Hempty : chunks st !! j = Some None).
    { destruct (chunks st !! j) as [[x|]|] eqn:Hslot; [|done|].
      - destruct (asm_slots0 _ _ Hslot) as (_ & t' & q & Hq & Hqi & Hnone).
        assert (t' = t) as ->; [|congruence].
        apply (same_index_same_position R t' t q p Hsub); [done|done|congruence].
      - apply lookup_ge_None in Hslot. lia. }
    set (task := task_of key id p (Z.of_nat j)) in *.
    assert (Hchunks : chunks (stored task plain st) = <[j := Some plain]> (chunks st)).
    { cbn. rewrite Nat2Z.id. apply array_set_inside. lia. }
    assert (Hfilled : filled (chunks (stored task plain st)) = S (filled (chunks st))).
    { rewrite Hchunks. by apply filled_insert. }
    assert (Hslots : forall j0 plain0,
              chunks (stored task plain st) !! j0 = Some (Some plain0) ->
              plains !! j0 = Some plain0 /\
              exists t0 p0, R !! t0 = Some p0 /\ p_index p0 = JNumber (Z.of_nat j0) /\
                            delete t (suspended c) !! t0 = None).
    { intros j0 plain0. rewrite Hchunks. intros Hslot.
      destruct (decide (j0 = j)) as [->|Hne].
      - rewrite list_lookup_insert_eq in Hslot by lia. injection Hslot as <-.
        split; [done|]. exists t, p. split; [done|]. split; [done|]. apply lookup_delete_eq.
      - rewrite list_lookup_insert_ne in Hslot by done.
        destruct (asm_slots0 _ _ Hslot) as (Hp0 & t0 & p0 & Hq & Hqi & Hnone).
        split; [done|]. exists t0, p0. split; [done|]. split; [done|].
        apply lookup_delete_None. by right. }
    assert (Htasks : forall t0 task0, delete t (suspended c) !! t0 = Some task0 ->
              exists p0 j0, R !! t0 = Some p0 /\ p_index p0 = JNumber (Z.of_nat j0) /\
                            task0 = task_of key id p0 (Z.of_nat j0)).
    { intros t0 task0 Ht0. apply lookup_delete_Some in Ht0 as [_ Ht0]. by apply asm_tasks0. }
    assert (Hsize : S (size (delete t (suspended c))) = size (suspended c)).
    { rewrite map_size_delete_Some by done.
      assert (size (suspended c) ≠ 0%nat); [|lia].
      intros Hzero. apply map_size_empty_inv in Hzero. rewrite Hzero in Ht.
      by rewrite lookup_empty in Ht. }
    destruct (decide (received st + 1 = total st)) as [Hfull|Hmore].
    + assert (Hall : chunks (stored task plain st) = Some <$> plains).
      { apply complete_array.
        - rewrite Hchunks, length_insert. lia.
        - rewrite Hfilled, Hchunks, length_insert. lia.
        - intros j0 plain0 Hslot. by apply Hslots. }
      rewrite (settle_shows c t task plain st (concat plains)); try done.
      * apply submseteq_length in Hsub.
        apply progress_done with (m := shown_meta st); cbn.
        -- by rewrite asm_quiet0.
        -- apply map_size_empty_inv. lia.
        -- lia.
      * rewrite Hall. apply merge_complete.
    + rewrite (settle_stores c t task plain st); try done.
      apply progress_some with (st := stored task plain st). split; try done.
      * cbn. apply lookup_insert_eq.
      * rewrite Hchunks, length_insert. done.
      * rewrite Hfilled. cbn. lia.
      * rewrite Hfilled. cbn. lia.
      * rewrite Hfilled. lia.
  - rewrite settle_absent; [by eapply progress_done|].
    rewrite Hsusp. apply lookup_empty.
Qed.

Lemma progress_run events :
  Forall handler_event events ->
  forall R c, progress key id T plains R c -> R ++ receives events ⊆+ sent ->
  progress key id T plains (R ++ receives events) (run c events).
Proof.
  induction 1 as [|e events He _ IH]; intros R c Hprog Hsub.
  - cbn. by rewrite app_nil_r.
  - cbn [run foldl]. destruct e as [p|t| |]; try done.
    + rewrite receives_cons_Receive in Hsub |- *.
      rewrite cons_middle, (assoc_L (++) R [p]) in Hsub.
      rewrite cons_middle, (assoc_L (++) R [p]).
      apply IH; [|done]. apply progress_Receive; [done|].
      etrans; [|exact Hsub]. by apply submseteq_inserts_r.
    + change (receives (Settle t :: events)) with (receives events) in Hsub |- *.
      apply IH; [|done]. apply progress_Settle; [done|].
      etrans; [|exact Hsub]. by apply submseteq_inserts_r.
Qed.

(** Once every chunk has been received and no call is suspended any more,
    the page shows one file: the concatenation of the plaintexts in index
    order. *)
Lemma reassembled events :
  Forall handler_event events -> receives events ≡ₚ sent ->
  suspended (run (initial key) events) = ∅ ->
  exists m, messagesEl (run (initial key) events) = [FileShown (id, 0%nat) m (concat plains)].
Proof.
  intros Hev Hperm Hidle.
  destruct (progress_run events Hev [] (initial key)) as [Hnil _ | st [] | m Hmsg _ _].
  - by apply progress_none.
  - cbn. by apply Permutation_submseteq.
  - cbn in Hnil. apply Permutation_length in Hperm. rewrite Hnil in Hperm. cbn in Hperm. lia.
  - cbn in asm_count0. rewrite Hidle, map_size_empty in asm_count0.
    apply Permutation_length in Hperm. lia.
  - by exists m.
Qed.

Lemma receives_one_by_one order : forall t, receives (one_by_one t order) = order.
Proof.
  induction order as [|p rest IH]; intros t; [done|].
  cbn [one_by_one]. rewrite receives_cons_Receive.
  change (receives (Settle t :: one_by_one (S t) rest)) with (receives (one_by_one (S t) rest)).
  by rewrite IH.
Qed.

Lemma handler_one_by_one order : forall t, Forall handler_event (one_by_one t order).
Proof.
  induction order as [|p rest IH]; intros t; cbn [one_by_one]; [constructor|].
  constructor; [done|]. constructor; [done|]. apply IH.
Qed.

Lemma idle_one_by_one order :
  forall R c, progress key id T plains R c -> suspended c = ∅ -> R ++ order ⊆+ sent ->
  suspended (run c (one_by_one (length R) order)) = ∅.
Proof.
  induction order as [|p rest IH]; intros R c Hprog Hidle Hsub; [done|].
  cbn [one_by_one run foldl].
  rewrite cons_middle, (assoc_L (++) R [p]) in Hsub.
  assert (Hsub1 : R ++ [p] ⊆+ sent).
  { etrans; [|exact Hsub]. by apply submseteq_inserts_r. }
  assert (Hnext : next_task c = length R).
  { destruct Hprog as [-> -> | st [] | m _ _ Hlen]; [done|done|].
    apply submseteq_length in Hsub1. rewrite length_app in Hsub1. cbn in Hsub1. lia. }
  pose proof (progress_Receive R c p Hprog Hsub1) as Hprog1.
  pose proof (progress_Settle _ _ (length R) Hprog1 Hsub1) as Hprog2.
  replace (S (length R)) with (length (R ++ [p])) by (rewrite length_app; cbn; lia).
  apply IH; [done| |done].
  rewrite suspended_Settle.
  destruct (suspended_Receive c p) as [-> | [task ->]]; rewrite Hidle.
  - apply delete_empty.
  - rewrite Hnext, delete_insert_eq. apply delete_empty.
Qed.

End Reassembly.

(** *** The sending side *)

Lemma chunk_loop_sent :
  cipher_round_trip -> base64_round_trip ->
  forall k id sender bytes fm time total_ n index draw,
  exists sent,
    chunk_loop n index total_ id sender (Some k) draw bytes fm time = (sent, Normal tt) /\
    length sent = n /\
    forall j p, sent !! j = Some p ->
      p_id p = JString id /\ p_index p = JNumber (index + Z.of_nat j) /\
      p_total p = JNumber total_ /\
      decrypt_or_null (Some k) p = Some (chunk_slice bytes (index + Z.of_nat j)).
Proof.
  intros Hcipher Hb64 k id sender bytes fm time total_.
  induction n as [|n IH]; intros index draw; cbn [chunk_loop].
  - exists []. by repeat split.
  - destruct (encrypt_decrypt_round_trip Hcipher Hb64 k draw (chunk_slice bytes index))
      as (encrypted & Henc & Hdec).
    unfold chunk_slice in Henc. rewrite Henc.
    destruct (IH (index + 1) (S draw)) as (rest & Hrest & Hlen & Hall).
    rewrite Hrest. eexists. split; [done|]. split; [cbn; by rewrite Hlen|].
    intros [|j] p Hp; cbn in Hp.
    + injection Hp as <-. rewrite Z.add_0_r.
      split; [done|]. split; [done|]. split; [done|].
      unfold decrypt_or_null. cbn [p_iv p_data file_payload]. by rewrite Hdec.
    + destruct (Hall _ _ Hp) as (Hid & Hindex & Htotal & Hplain).
      replace (index + Z.of_nat (S j)) with (index + 1 + Z.of_nat j) by lia. done.
Qed.

Lemma slices_take bytes (n : nat) :
  concat (chunk_slice bytes <$> (Z.of_nat <$> seq 0 n))
    = take (Z.to_nat (Z.of_nat n * MAX_CHUNK_BYTES)) bytes.
Proof.
  induction n as [|n IH].
  - cbn. by rewrite take_0.
  - rewrite seq_S, !fmap_app, concat_app, IH. cbn [fmap list_fmap concat Nat.add].
    rewrite app_nil_r. unfold chunk_slice, slice. rewrite take_take_drop.
    unfold MAX_CHUNK_BYTES.
    destruct (Z.le_gt_cases (Z.of_nat (S n) * (240 * 1024)) (Z.of_nat (length bytes))).
    + f_equal. lia.
    + rewrite !take_ge by lia. done.
Qed.

Lemma ceil_div_chunks (len : Z) :
  0 < len ->
  let total_ := ceil_div len MAX_CHUNK_BYTES in
  (total_ - 1) * MAX_CHUNK_BYTES < len <= total_ * MAX_CHUNK_BYTES.
Proof.
  intros Hlen. cbv zeta. unfold ceil_div, MAX_CHUNK_BYTES.
  pose proof (Z.div_mod (len + 240 * 1024 - 1) (240 * 1024)) as Hdm.
  pose proof (Z.mod_pos_bound (len + 240 * 1024 - 1) (240 * 1024)) as Hmod.
  lia.
Qed.

(** C3: a payload larger than a chunk is sent as [ceil(length / 245760)]
    chunks, numbered in order, whose plaintexts concatenated in index order
    are the payload; and (for a number of chunks an array can hold, as for
    every file [sendFile] lets through) when each of them has been handed
    once to the receiving handler, in any order and with the decryptions
    settling in any order, then as soon as no call is suspended the page
    shows one file, which is the payload. Handing them over one at a time,
    in any order, is such a run. *)
Theorem C3_split_and_reassemble :
  cipher_round_trip -> base64_round_trip ->
  forall (sender : jsstring) (key : CryptoKey) (draw : nat) (bytes : list byte)
         (fm : FileMeta) (time : Z),
    MAX_CHUNK_BYTES < Z.of_nat (length bytes) ->
    let total_ := ceil_div (Z.of_nat (length bytes)) MAX_CHUNK_BYTES in
    exists sent,
      sendFileInChunks sender (Some key) draw bytes fm time = (sent, Normal tt) /\
      Z.of_nat (length sent) = total_ /\
      (total_ - 1) * MAX_CHUNK_BYTES < Z.of_nat (length bytes) <= total_ * MAX_CHUNK_BYTES /\
      (forall j p, sent !! j = Some p ->
         p_index p = JNumber (Z.of_nat j) /\ p_total p = JNumber total_ /\
         decrypt_or_null (Some key) p = Some (chunk_slice bytes (Z.of_nat j))) /\
      concat (chunk_slice bytes <$> (Z.of_nat <$> seq 0 (length sent))) = bytes /\
      (Z.of_nat (length bytes) <= 4294967295 * MAX_CHUNK_BYTES ->
       (forall events,
          receives events ≡ₚ sent -> Forall handler_event events ->
          suspended (run (initial (Some key)) events) = ∅ ->
          exists m, messagesEl (run (initial (Some key)) events)
                      = [FileShown (randomUUID draw, 0%nat) m bytes]) /\
       (forall order,
          order ≡ₚ sent ->
          receives (one_by_one 0 order) = order /\
          Forall handler_event (one_by_one 0 order) /\
          suspended (run (initial (Some key)) (one_by_one 0 order)) = ∅)).
Proof.
  intros Hcipher Hb64 sender key draw bytes fm time Hsize total_.
  assert (Hceil := ceil_div_chunks (Z.of_nat (length bytes))).
  unfold MAX_CHUNK_BYTES in Hsize. cbv zeta in Hceil. fold total_ in Hceil.
  assert (Hpos : 0 < total_) by (unfold MAX_CHUNK_BYTES in Hceil; lia).
  unfold sendFileInChunks. fold total_.
  destruct (chunk_loop_sent Hcipher Hb64 key (randomUUID draw) sender bytes fm time total_
              (Z.to_nat total_) 0 (S draw)) as (sent & Hsent & Hlen & Hall).
  exists sent. split; [done|]. split; [lia|]. split; [apply Hceil; lia|].
  set (plains := chunk_slice bytes <$> (Z.of_nat <$> seq 0 (length sent))).
  assert (Hconcat : concat plains = bytes).
  { unfold plains. rewrite slices_take, Hlen. apply take_ge.
    unfold MAX_CHUNK_BYTES in *. lia. }
  assert (Hfamily : forall j p, sent !! j = Some p ->
            p_id p = JString (randomUUID draw) /\ p_index p = JNumber (Z.of_nat j) /\
            p_total p = JNumber total_ /\
            exists plain, plains !! j = Some plain /\
                          decrypt_or_null (Some key) p = Some plain).
  { intros j p Hp. destruct (Hall _ _ Hp) as (Hid & Hindex & Htotal & Hplain).
    rewrite Z.add_0_l in Hindex, Hplain. repeat split; try done.
    exists (chunk_slice bytes (Z.of_nat j)). split; [|done].
    unfold plains. rewrite !list_lookup_fmap, lookup_seq_lt; [done|].
    by eapply lookup_lt_Some. }
  assert (Hplains : length plains = Z.to_nat total_).
  { unfold plains. by rewrite !length_fmap, length_seq. }
  split; [|split; [done|]].
  - intros j p Hp. destruct (Hall _ _ Hp) as (_ & Hindex & Htotal & Hplain).
    by rewrite Z.add_0_l in Hindex, Hplain.
  - intros Hfits.
    assert (Hbounds : 0 < total_ <= 4294967295).
    { unfold MAX_CHUNK_BYTES in Hceil, Hfits. lia. }
    split.
    + intros events Hperm Hev Hidle. rewrite <- Hconcat.
      by eapply (reassembled (Some key) (randomUUID draw) total_ plains sent).
    + intros order Hperm. split; [apply receives_one_by_one|].
      split; [apply handler_one_by_one|].
      apply (idle_one_by_one (Some key) (randomUUID draw) total_ plains sent Hbounds Hlen
               Hplains Hfamily order [] (initial (Some key))); [by apply progress_none|done|].
      cbn. by apply Permutation_submseteq.
Qed.

End Transfers.

(** ** Runs on the stand-in platform *)

Section SampleRuns.
Import Sample.
#[local] Existing Instance sample_platform.

Lemma C3_reassembly_witness :
  exists sent m,
    sendFileInChunks (lit "me") (Some sample_key) 0 sample_file sample_meta 5
      = (sent, Normal tt) /\
    length sent = 2%nat /\
    messagesEl (run (initial (Some sample_key)) (one_by_one 0 (reverse sent)))
      = [FileShown (randomUUID 0, 0%nat) m sample_file].
Proof.
  assert (Hsize : MAX_CHUNK_BYTES < Z.of_nat (length sample_file)).
  { unfold sample_file. rewrite length_replicate. unfold MAX_CHUNK_BYTES. lia. }
  assert (Hfits : Z.of_nat (length sample_file) <= 4294967295 * MAX_CHUNK_BYTES).
  { unfold sample_file. rewrite length_replicate. unfold MAX_CHUNK_BYTES. lia. }
  destruct (C3_split_and_reassemble sample_cipher_round_trip sample_base64_round_trip
              (lit "me") sample_key 0 sample_file sample_meta 5 Hsize)
    as (sent & Hsend & Hlen & _ & _ & _ & Hreceive).
  destruct (Hreceive Hfits) as [Hany Hone].
  destruct (Hone (reverse sent) (reverse_Permutation sent)) as (Hreceives & Hevents & Hidle).
  destruct (Hany (one_by_one 0 (reverse sent))) as [m Hshown].
  - rewrite Hreceives. apply reverse_Permutation.
  - exact Hevents.
  - exact Hidle.
  - exists sent, m. split; [exact Hsend|]. split; [|exact Hshown].
    unfold sample_file in Hlen. rewrite length_replicate, Z2Nat.id in Hlen by lia.
    change (ceil_div 245761 MAX_CHUNK_BYTES) with 2 in Hlen. lia.
Defined.

Lemma C6_corrupt_chunk_witness :
  decrypt_or_null (Some sample_key) (sample_chunk 1 3 9 66) = None /\
  incomingChunks (run (initial (Some sample_key)) corrupt_run_before) !! lit "x"
    = Some 0%nat /\
  (let c := run (initial (Some sample_key)) corrupt_run_before in
   suspended (step c (Receive (sample_chunk 1 3 9 66)))
     = <[1%nat := failing_call (sample_chunk 1 3 9 66) (lit "x") 1 c]> (suspended c)) /\
  (forall mid, Settle 1 ∉ mid ->
     let c' := run (run (initial (Some sample_key)) corrupt_run_before)
                 (Receive (sample_chunk 1 3 9 66) :: mid) in
     incomingChunks (step c' (Settle 1)) !! lit "x" = None /\
     messagesEl (step c' (Settle 1))
       = messagesEl c' ++ [FileFailed (sample_chunk 1 3 9 66)]) /\
  forall n m merged,
    FileShown (lit "x", n) m merged ∉
      messagesEl (run (initial (Some sample_key))
                    (corrupt_run_before ++ Receive (sample_chunk 1 3 9 66) :: corrupt_run_after)).
Proof.
  assert (Hmap : incomingChunks (run (initial (Some sample_key)) corrupt_run_before)
                   !! lit "x" = Some 0%nat) by (vm_compute; reflexivity).
  split; [reflexivity|]. split; [exact Hmap|].
  destruct (C6_failed_chunk_aborts_transfer (Some sample_key) (lit "x") 3 1
              corrupt_run_before corrupt_run_after (sample_chunk 1 3 9 66))
    as ((_ & Hcall & _) & Hresumed & _ & Hnever).
  - lia.
  - reflexivity.
  - reflexivity.
  - reflexivity.
  - intros p Hp _. cbn in Hp. rewrite !elem_of_cons in Hp.
    destruct Hp as [->|[->|[->|Hp]]]; try reflexivity. by apply not_elem_of_nil in Hp.
  - intros p Hp _. cbn in Hp. rewrite !elem_of_cons in Hp.
    destruct Hp as [->|[->|Hp]]; try discriminate. by apply not_elem_of_nil in Hp.
  - left. rewrite Hmap. by eexists.
  - split; [exact Hcall|]. split; [|exact Hnever].
    intros mid Hmid. destruct (Hresumed mid Hmid) as (_ & Hgone & Hshown & _).
    split; [exact Hgone|exact Hshown].
Defined.

Lemma C7_redelivery_witness :
  let c := run (initial (Some sample_key)) [Receive (sample_chunk 0 3 7 65); Settle 0] in
  step c (Receive (sample_chunk 0 3 7 66)) = c.
Proof.
  cbv zeta.
  refine (proj1 (C7_redelivery_of_filled_slot_ignored _ (sample_chunk 0 3 7 66) (lit "x") 0
            0%nat stored_first _ _ _ _ _)).
  - reflexivity.
  - reflexivity.
  - vm_compute. reflexivity.
  - vm_compute. reflexivity.
  - reflexivity.
Defined.

Lemma C8_expiry_witness :
  timers (run (initial (Some sample_key)) expiry_run_before) !! (lit "x", 0%nat)
    = Some 120000 /\
  clock (run (initial (Some sample_key)) expiry_run_before) = 120000 /\
  forall n' shown merged,
    FileShown (lit "x", n') shown merged ∉
      messagesEl (run (initial (Some sample_key))
                    (expiry_run_before ++ Expire (lit "x", 0%nat) :: expiry_run_after)).
Proof.
  split; [vm_compute; reflexivity|]. split; [reflexivity|].
  refine (proj2 (proj2 (proj2 (C8_expired_transfer_never_completes (Some sample_key) (lit "x")
            2 1 expiry_run_before expiry_run_after 0%nat 120000 _ _ _ _ _ _)))).
  - lia.
  - intros p Hp _. cbn in Hp. rewrite !elem_of_cons in Hp.
    destruct Hp as [->|[->|Hp]]; try reflexivity. by apply not_elem_of_nil in Hp.
  - apply (bool_decide_unpack _). vm_compute. exact I.
  - apply (bool_decide_unpack _). vm_compute. exact I.
  - vm_compute. reflexivity.
  - vm_compute. discriminate.
Defined.

(** C8, as stated, fails: both chunks of a transfer of two are handed to the
    handler, each once, and the call for the second is still suspended at
    its decryption when the timer of the record runs, 120,000 ms after the
    record was made. The record then holds one chunk of two. The timer
    removes it from the map, but the suspended call holds the record itself:
    when its decryption settles it stores the second chunk there, and the
    file is shown. *)
Lemma C8_file_shown_after_expiry :
  let at_expiry := run (initial (Some sample_key)) late_run_before in
  let expired := step at_expiry (Expire (lit "x", 0%nat)) in
  NoDup (delivered (lit "x")
           (late_run_before ++ Expire (lit "x", 0%nat) :: late_run_after)) /\
  timers at_expiry !! (lit "x", 0%nat) = Some 120000 /\
  clock at_expiry = 120000 /\
  incomingChunks at_expiry !! lit "x" = Some 0%nat /\
  (exists st, objects at_expiry !! (lit "x", 0%nat) = Some st /\
     total st = 2 /\ received st = 1 /\ chunks st = [Some [x41]; None]) /\
  incomingChunks expired !! lit "x" = None /\
  messagesEl expired = [] /\
  messagesEl (run (initial (Some sample_key))
                (late_run_before ++ Expire (lit "x", 0%nat) :: late_run_after)) =
    [FileShown (lit "x", 0%nat)
       {| m_name := JString (lit "a.bin");
          m_mime := JString (lit "application/octet-stream");
          m_size := JNumber 3; m_time := JNumber 5 |} [x41; x42]].
Proof.
  cbv zeta. split; [apply (bool_decide_unpack _); vm_compute; exact I|].
  split; [vm_compute; reflexivity|]. split; [reflexivity|].
  split; [vm_compute; reflexivity|]. split.
  { eexists. split; [vm_compute; reflexivity|]. by vm_compute. }
  split; [vm_compute; reflexivity|]. split; [reflexivity|].
  vm_compute. reflexivity.
Qed.

(** C10 on overlapping duplicates: chunk 0 of a transfer of three arrives
    twice before its first decryption settles. Both calls pass the duplicate
    check and both store: the record in the map counts two chunks received
    with one slot filled. After chunk 1 the count reaches the total, the
    record is released, and nothing is shown: the merge throws on the hole. *)
Lemma C10_count_exceeds_filled_slots :
  let first := run (initial (Some sample_key))
                 [Receive (sample_chunk 0 3 7 65); Receive (sample_chunk 0 3 7 65);
                  Settle 0; Settle 1] in
  let second := run first [Receive (sample_chunk 1 3 7 66); Settle 2] in
  incomingChunks first !! lit "x" = Some 0%nat /\
  (exists st, objects first !! (lit "x", 0%nat) = Some st /\
     total st = 3 /\ received st = 2 /\ filled (chunks st) = 1%nat /\
     chunks st = [Some [x41]; None; None]) /\
  incomingChunks second !! lit "x" = None /\
  (exists st, objects second !! (lit "x", 0%nat) = Some st /\
     received st = total st /\ filled (chunks st) = 2%nat) /\
  messagesEl second = [] /\
  rejections second = [TypeError].
Proof.
  cbv zeta. split; [by vm_compute|]. split.
  { eexists. split; [vm_compute; reflexivity|]. by vm_compute. }
  split; [by vm_compute|]. split.
  { eexists. split; [vm_compute; reflexivity|]. by vm_compute. }
  split; by vm_compute.
Qed.

End SampleRuns.

(** ** The entry point and the life of a room *)

Section Rooms.

Local Ltac listed := rewrite ?elem_of_cons; intuition auto 10.

Lemma startsWith_ws pathname :
  Worker.startsWith (lit "/ws/") pathname = true ->
  pathname = lit "/ws/" ++ drop (length (lit "/ws/")) pathname.
Proof.
  unfold Worker.startsWith. intros Hprefix. apply bool_decide_eq_true in Hprefix.
  rewrite <- Hprefix at 1. symmetry. apply take_drop.
Qed.

Lemma fetch_socket request room :
  is_Some (webSocket (Relay.fetch request room).1) <->
  upgrade request = Some (lit "websocket").
Proof.
  unfold Relay.fetch. case_decide; cbn; split; done.
Qed.

Lemma fetch_status request room :
  status (Relay.fetch request room).1 =
    if decide (upgrade request = Some (lit "websocket")) then 101 else 400.
Proof. unfold Relay.fetch. by case_decide. Qed.

(** X1: the entry point hands out a socket exactly for an upgrade request on
    [/ws/] followed by 64 hexadecimal digits, with status 101 and no other;
    it replies 200, 400, 404 or 500 otherwise; and it leaves the namespace
    of rooms untouched unless the path names such a room, which it then
    resolves, upgrade or not. *)
Theorem entry_point_routes :
  forall (url : Completion jsstring) (request : Request) (env : Env),
    let reply := (Worker.fetch url request env).1 in
    let env' := (Worker.fetch url request env).2 in
    let room_path roomId :=
      url = Normal (lit "/ws/" ++ roomId) /\
      length roomId = 64%nat /\ Forall hex_either_case roomId in
    (is_Some (webSocket reply) <->
       exists roomId, room_path roomId /\ upgrade request = Some (lit "websocket")) /\
    (status reply = 101 <-> is_Some (webSocket reply)) /\
    status reply ∈ [101; 200; 400; 404; 500] /\
    ((exists roomId, room_path roomId /\ resolved env' = resolved env ++ [roomId]) \/
     (~ (exists roomId, room_path roomId) /\ env' = env /\ webSocket reply = None)).
Proof.
  intros url request env. cbv zeta.
  assert (Hroom : forall roomId,
            isValidRoomId roomId = true ->
            let out := stub_fetch roomId request env in
            (is_Some (webSocket out.1) <-> upgrade request = Some (lit "websocket")) /\
            (status out.1 = 101 <-> is_Some (webSocket out.1)) /\
            status out.1 ∈ [101; 400] /\
            resolved out.2 = resolved env ++ [roomId]).
  { intros roomId _. cbv zeta. unfold stub_fetch.
    set (room := default constructor (instances env !! roomId)).
    pose proof (fetch_socket request room) as Hsocket.
    pose proof (fetch_status request room) as Hstatus.
    destruct (Relay.fetch request room) as [response room'] eqn:Hfetch. cbn in *.
    split; [done|]. rewrite Hsocket, Hstatus.
    case_decide; repeat split; try done; try lia; listed. }
  destruct url as [pathname|e]; cbn [Worker.fetch].
  2:{ cbn. split; [|split; [|split]].
      - split; [by intros [? ?]|]. by intros (roomId & (? & _) & _).
      - split; [done|]. by intros [? ?].
      - listed.
      - right. split; [|done]. by intros (roomId & ? & _). }
  case_bool_decide as Hhealth.
  { subst pathname. cbn. split; [|split; [|split]].
    - split; [by intros [? ?]|]. by intros (roomId & (? & _) & _).
    - split; [done|]. by intros [? ?].
    - listed.
    - right. split; [|done]. by intros (roomId & ? & _). }
  case_bool_decide as Hhome.
  { subst pathname. cbn. split; [|split; [|split]].
    - split; [by intros [? ?]|]. by intros (roomId & (? & _) & _).
    - split; [done|]. by intros [? ?].
    - listed.
    - right. split; [|done]. by intros (roomId & ? & _). }
  destruct (Worker.startsWith (lit "/ws/") pathname) eqn:Hprefix.
  2:{ cbn. split; [|split; [|split]].
      - split; [by intros [? ?]|]. intros (roomId & ([= ->] & _) & _).
        unfold Worker.startsWith in Hprefix. by apply bool_decide_eq_false in Hprefix.
      - split; [done|]. by intros [? ?].
      - listed.
      - right. split; [|done]. intros (roomId & [= ->] & _).
        unfold Worker.startsWith in Hprefix. by apply bool_decide_eq_false in Hprefix. }
  apply startsWith_ws in Hprefix.
  set (roomId := drop (length (lit "/ws/")) pathname) in *.
  unfold handleWebSocket. fold roomId.
  destruct (isValidRoomId roomId) eqn:Hvalid; cbn [negb].
  - destruct (Hroom roomId Hvalid) as (Hsocket & Hstatus & Hcodes & Hresolved).
    pose proof (proj1 (isValidRoomId_spec roomId) Hvalid) as [Hlen Hhex].
    split; [|split; [|split]].
    + rewrite Hsocket. split.
      * intros Hup. exists roomId. by rewrite <- Hprefix.
      * by intros (? & _ & ?).
    + done.
    + revert Hcodes; listed.
    + left. exists roomId. by rewrite <- Hprefix.
  - assert (Hnone : ~ exists roomId', Normal pathname = Normal (lit "/ws/" ++ roomId') /\
                      length roomId' = 64%nat /\ Forall hex_either_case roomId').
    { intros (roomId' & [= Hpath] & Hlen & Hhex).
      assert (roomId' = roomId) as -> by (unfold roomId; by rewrite Hpath).
      assert (isValidRoomId roomId = true) by by apply isValidRoomId_spec.
      congruence. }
    cbn. split; [|split; [|split]].
    + split; [by intros [? ?]|]. intros (roomId' & ? & _). destruct Hnone. by exists roomId'.
    + split; [done|]. by intros [? ?].
    + listed.
    + by right.
Qed.

(** *** Runs of a room *)

Lemma fetch_lookup request room peer :
  accepted (Relay.fetch request room).2 !! peer =
    if decide (upgrade request = Some (lit "websocket") /\
               peer = fresh (dom (accepted room)))
    then Some open_socket else accepted room !! peer.
Proof.
  unfold Relay.fetch. destruct (decide (upgrade request = _)) as [Hup|Hup]; cbn.
  - destruct (decide (peer = fresh (dom (accepted room)))) as [->|Hne].
    + rewrite lookup_insert_eq. by rewrite decide_True.
    + rewrite lookup_insert_ne by done. rewrite decide_False; [done|]. by intros [_ ?].
  - rewrite decide_False; [done|]. by intros [? _].
Qed.

Lemma fetch_fresh room :
  accepted room !! fresh (dom (accepted room)) = None.
Proof. apply not_elem_of_dom, is_fresh. Qed.

Lemma fetch_accepted request room peer s :
  accepted room !! peer = Some s -> accepted (Relay.fetch request room).2 !! peer = Some s.
Proof.
  intros Hs. rewrite fetch_lookup. rewrite decide_False; [done|].
  intros [_ ->]. by rewrite fetch_fresh in Hs.
Qed.

Lemma room_step_limit room e : maxMessageSize (room_step room e) = maxMessageSize room.
Proof.
  destruct e as [request|ws message]; cbn.
  - unfold Relay.fetch. by case_decide.
  - apply webSocketMessage_limit.
Qed.

Lemma room_run_limit events : forall room,
  maxMessageSize (room_run room events) = maxMessageSize room.
Proof.
  induction events as [|e events IH]; intros room; [done|].
  cbn. unfold room_run in IH. by rewrite IH, room_step_limit.
Qed.

Lemma keeps_within_cons peer limit e events :
  keeps_within peer limit (e :: events) ->
  keeps_within peer limit [e] /\ keeps_within peer limit events.
Proof.
  intros Hkeeps. split; intros message Hin; apply Hkeeps.
  - apply list_elem_of_singleton in Hin as ->. apply list_elem_of_here.
  - by apply list_elem_of_further.
Qed.

Lemma heard_by_Incoming peer limit ws message events :
  heard_by peer limit (Incoming ws message :: events) =
    if decide (ws ≠ peer /\ js_length (message_text message) <= limit)
    then message_text message :: heard_by peer limit events
    else heard_by peer limit events.
Proof. unfold heard_by. cbn. by case_decide. Qed.

(** An open socket that keeps within the limit is sent what it should
    hear, in order. *)
Lemma room_run_open events : forall room peer s,
  accepted room !! peer = Some s -> readyState s = OPEN ->
  keeps_within peer (maxMessageSize room) events ->
  accepted (room_run room events) !! peer =
    Some {| readyState := OPEN;
            sent := sent s ++ heard_by peer (maxMessageSize room) events;
            closeFrame := closeFrame s |}.
Proof.
  induction events as [|e events IH]; intros room peer s Hs Hopen Hkeeps.
  - cbn. rewrite app_nil_r, Hs. destruct s; cbn in *. by subst.
  - apply keeps_within_cons in Hkeeps as [Hfirst Hrest].
    change (room_run room (e :: events)) with (room_run (room_step room e) events).
    destruct e as [request|ws message].
    + rewrite (IH _ peer s); [by rewrite room_step_limit| |done|by rewrite room_step_limit].
      cbn. by apply fetch_accepted.
    + rewrite heard_by_Incoming.
      destruct (Z.gtb_spec (js_length (message_text message)) (maxMessageSize room))
        as [Hover|Hfits].
      * assert (ws ≠ peer) as Hother.
        { intros ->. specialize (Hfirst message (list_elem_of_here _ _)). lia. }
        rewrite decide_False by lia.
        rewrite (IH _ peer s); [by rewrite room_step_limit| |done|by rewrite room_step_limit].
        cbn. rewrite webSocketMessage_lookup, Hs.
        destruct (js_length _ >? _) eqn:Hcmp; [|lia]. cbn.
        unfold refused_at. by rewrite decide_False.
      * destruct (decide (ws = peer)) as [->|Hother].
        -- rewrite decide_False by tauto.
           rewrite (IH _ peer s); [by rewrite room_step_limit| |done|by rewrite room_step_limit].
           cbn. rewrite webSocketMessage_lookup, Hs.
           destruct (js_length _ >? _) eqn:Hcmp; [lia|]. cbn.
           unfold delivered_to. rewrite decide_False; [done|]. tauto.
        -- rewrite decide_True by done.
           rewrite (IH _ peer
                      {| readyState := OPEN; sent := sent s ++ [message_text message];
                         closeFrame := closeFrame s |});
             [|cbn|done|by rewrite room_step_limit].
           ++ rewrite room_step_limit. cbn. by rewrite <- app_assoc.
           ++ rewrite webSocketMessage_lookup, Hs.
              destruct (js_length _ >? _) eqn:Hcmp; [lia|]. cbn.
              unfold delivered_to. by rewrite decide_True.
Qed.

(** Whatever the run, a socket is only ever sent texts it should hear, in
    their order; once closed it stays closed and is sent nothing. *)
Lemma room_run_any events : forall room peer s,
  accepted room !! peer = Some s ->
  exists s' heard,
    accepted (room_run room events) !! peer = Some s' /\
    sent s' = sent s ++ heard /\
    heard `sublist_of` heard_by peer (maxMessageSize room) events /\
    (readyState s = CLOSED -> readyState s' = CLOSED /\ heard = []).
Proof.
  induction events as [|e events IH]; intros room peer s Hs.
  - exists s, []. cbn. by rewrite app_nil_r.
  - change (room_run room (e :: events)) with (room_run (room_step room e) events).
    destruct e as [request|ws message].
    + destruct (IH (room_step room (Upgrade request)) peer s) as (s' & heard & H1 & H2 & H3 & H4).
      { cbn. by apply fetch_accepted. }
      exists s', heard. rewrite room_step_limit in H3. done.
    + pose proof (webSocketMessage_lookup ws message room peer) as Hstep.
      rewrite Hs in Hstep. cbn in Hstep.
      rewrite heard_by_Incoming.
      destruct (Z.gtb_spec (js_length (message_text message)) (maxMessageSize room))
        as [Hover|Hfits].
      * rewrite decide_False by lia.
        destruct (IH _ peer _ Hstep) as (s' & heard & H1 & H2 & H3 & H4).
        rewrite webSocketMessage_limit in H3.
        exists s', heard. split; [done|]. split.
        { rewrite H2. unfold refused_at. by case_decide. }
        split; [done|]. intros Hclosed. apply H4.
        unfold refused_at. by case_decide.
      * destruct (IH _ peer _ Hstep) as (s' & heard & H1 & H2 & H3 & H4).
        rewrite webSocketMessage_limit in H3. unfold delivered_to in H2, H4.
        destruct (decide (peer ≠ ws /\ readyState s = OPEN)) as [[Hother Hopen]|Hnot].
        -- rewrite decide_True by done.
           exists s', (message_text message :: heard). split; [done|]. split.
           { rewrite H2. cbn. by rewrite <- app_assoc. }
           split; [by apply sublist_skip|]. intros Hclosed. congruence.
        -- exists s', heard. split; [done|]. split; [done|]. split; [|done].
           case_decide; [by apply sublist_cons|done].
Qed.

(** X2: an upgrade request to a room is answered 101 with a socket that was
    not in the room, is open and has been sent nothing of the earlier
    traffic; the sockets already there are untouched; whatever happens next,
    while it keeps within the size limit the new socket is sent exactly the
    in-limit texts of the later frames of the others, in order. Any other
    request is answered 400 and changes nothing. *)
Theorem upgrade_joins_a_room :
  forall (request : Request) (room : ChatRoom),
    let reply := (Relay.fetch request room).1 in
    let room' := (Relay.fetch request room).2 in
    if decide (upgrade request = Some (lit "websocket")) then
      exists server,
        webSocket reply = Some server /\ status reply = 101 /\
        accepted room !! server = None /\
        accepted room' !! server = Some open_socket /\
        (forall peer, peer ≠ server -> accepted room' !! peer = accepted room !! peer) /\
        maxMessageSize room' = maxMessageSize room /\
        (forall events,
           keeps_within server (maxMessageSize room) events ->
           accepted (room_run room' events) !! server =
             Some {| readyState := OPEN;
                     sent := heard_by server (maxMessageSize room) events;
                     closeFrame := None |})
    else reply = createErrorResponse 400 /\ room' = room.
Proof.
  intros request room. cbv zeta.
  pose proof (fetch_lookup request room) as Hlookup.
  pose proof (room_step_limit room (Upgrade request)) as Hlimit. cbn in Hlimit.
  pose proof (fetch_status request room) as Hstatus.
  unfold Relay.fetch in *. destruct (decide (upgrade request = _)) as [Hup|Hup]; [|done].
  cbn in *. exists (fresh (dom (accepted room))).
  split; [done|]. split; [done|]. split; [by apply fetch_fresh|].
  assert (Hnew : <[fresh (dom (accepted room)) := open_socket]> (accepted room)
                   !! fresh (dom (accepted room)) = Some open_socket)
    by apply lookup_insert_eq.
  split; [done|]. split; [intros peer Hpeer; by apply lookup_insert_ne|].
  split; [done|]. intros events Hkeeps.
  set (room' := {| accepted := _; maxMessageSize := maxMessageSize room |}).
  by rewrite (room_run_open events room' _ open_socket Hnew eq_refl Hkeeps).
Qed.

(** X3: in any run of a room, a socket that is open and sends no frame over
    the size limit is sent, after what it had been sent, exactly the texts
    of the in-limit frames of the other sockets, each once, in the order the
    frames were handled, and it stays open. *)
Theorem relay_keeps_order :
  forall (room : ChatRoom) (events : list RoomEvent) (peer : nat) (s : WebSocket),
    accepted room !! peer = Some s -> readyState s = OPEN ->
    keeps_within peer (maxMessageSize room) events ->
    accepted (room_run room events) !! peer =
      Some {| readyState := OPEN;
              sent := sent s ++ heard_by peer (maxMessageSize room) events;
              closeFrame := closeFrame s |}.
Proof. intros room events. apply room_run_open. Qed.

Lemma relay_keeps_order_witness :
  accepted room_of_three !! 2%nat = Some open_socket /\
  accepted (room_run room_of_three
              [Incoming 0 (MsgString (lit "one")); Incoming 2 (MsgString (lit "two"));
               Upgrade upgrade_request; Incoming 0 (MsgString (lit "three"))]) !! 2%nat =
    Some {| readyState := OPEN; sent := [lit "one"; lit "three"]; closeFrame := None |}.
Proof.
  split; [reflexivity|].
  apply (relay_keeps_order room_of_three
           [Incoming 0 (MsgString (lit "one")); Incoming 2 (MsgString (lit "two"));
            Upgrade upgrade_request; Incoming 0 (MsgString (lit "three"))]
           2%nat open_socket); [reflexivity|reflexivity|].
  intros message Hin. rewrite !elem_of_cons in Hin.
  destruct Hin as [Hin|[Hin|[Hin|[Hin|Hin]]]]; try discriminate.
  - injection Hin as ->. vm_compute. discriminate.
  - by apply not_elem_of_nil in Hin.
Defined.

(** X4: in any run of a room, whatever the sockets do, a socket is sent
    nothing but in-limit texts of frames of other sockets, in the order of
    the frames and none twice (never its own frames, never a frame over the
    limit); and a socket that is closed stays closed and is sent nothing. *)
Theorem relay_sends_nothing_else :
  forall (room : ChatRoom) (events : list RoomEvent) (peer : nat) (s : WebSocket),
    accepted room !! peer = Some s ->
    exists s' heard,
      accepted (room_run room events) !! peer = Some s' /\
      sent s' = sent s ++ heard /\
      heard `sublist_of` heard_by peer (maxMessageSize room) events /\
      (readyState s = CLOSED -> readyState s' = CLOSED /\ heard = []).
Proof. intros room events. apply room_run_any. Qed.

Lemma relay_sends_nothing_else_witness :
  accepted room_of_three !! 1%nat = Some closed_socket /\
  exists s' heard,
    accepted (room_run room_of_three
                [Incoming 0 (MsgString (lit "one")); Incoming 1 (MsgString wide_text)])
      !! 1%nat = Some s' /\
    sent s' = sent closed_socket ++ heard /\
    heard `sublist_of`
      heard_by 1 (maxMessageSize room_of_three)
        [Incoming 0 (MsgString (lit "one")); Incoming 1 (MsgString wide_text)] /\
    (readyState closed_socket = CLOSED -> readyState s' = CLOSED /\ heard = []).
Proof.
  split; [reflexivity|].
  apply (relay_sends_nothing_else room_of_three
           [Incoming 0 (MsgString (lit "one")); Incoming 1 (MsgString wide_text)]
           1%nat closed_socket).
  reflexivity.
Defined.

End Rooms.

(** ** UTF-8 there and back *)

Section Utf8.

Lemma to_N_byte_of_N n : (n < 256)%N -> Byte.to_N (byte_of_N n) = n.
Proof.
  intros Hn. unfold byte_of_N. rewrite N.mod_small by done.
  destruct (Byte.of_N n) as [b|] eqn:Hb.
  - by apply Byte.to_of_N.
  - apply Byte.of_N_None_iff in Hb. lia.
Qed.

Lemma land_mask (k q r : N) : (r < 2 ^ k)%N -> N.land (q * 2 ^ k + r) (N.ones k) = r.
Proof.
  intros Hr. rewrite N.land_ones, N.add_comm, N.Div0.mod_add. by apply N.mod_small.
Qed.

Lemma lor_shift (k x y : N) : (y < 2 ^ k)%N -> N.lor (N.shiftl x k) y = (x * 2 ^ k + y)%N.
Proof.
  intros Hy. rewrite N.shiftl_mul_pow2.
  assert (Hdisjoint : N.land (x * 2 ^ k) y = 0%N).
  { apply N.bits_inj. intros n. rewrite N.land_spec, N.bits_0.
    destruct (N.lt_ge_cases n k) as [Hlow|Hhigh].
    - by rewrite N.mul_pow2_bits_low.
    - rewrite <- (N.mod_small y (2 ^ k)) by done.
      rewrite N.mod_pow2_bits_high by done. apply andb_false_r. }
  by rewrite <- N.lxor_lor, <- N.add_nocarry_lxor.
Qed.

Lemma in_range_spec lo hi c : in_range lo hi c = true <-> (lo <= c <= hi)%N.
Proof. unfold in_range. rewrite andb_true_iff, !N.leb_le. done. Qed.

Lemma in_range_true lo hi c : (lo <= c <= hi)%N -> in_range lo hi c = true.
Proof. apply in_range_spec. Qed.

Lemma in_range_false lo hi c : (c < lo \/ hi < c)%N -> in_range lo hi c = false.
Proof.
  intros Hout. apply not_true_is_false. rewrite in_range_spec. lia.
Qed.

Lemma in_range_false' lo hi c : in_range lo hi c = false -> (c < lo \/ hi < c)%N.
Proof.
  intros Hout. destruct (N.lt_ge_cases c lo) as [?|Hlo]; [by left|].
  destruct (N.lt_ge_cases hi c) as [?|Hhi]; [by right|].
  rewrite in_range_true in Hout by done. done.
Qed.

(** The lead bytes. *)
Lemma decode_lead_one b : (b < 0x80)%N -> decode_lead b = ([b], decoder_reset).
Proof. intros Hb. unfold decode_lead. by rewrite (proj2 (N.leb_le b 0x7F)) by lia. Qed.

Lemma decode_lead_two h :
  (2 <= h < 32)%N ->
  decode_lead (0xC0 + h) =
    ([], {| code_point := h; bytes_seen := 0; bytes_needed := 1;
            lower_boundary := 0x80; upper_boundary := 0xBF |}).
Proof.
  intros Hh. unfold decode_lead.
  rewrite (proj2 (N.leb_gt _ _)) by lia. rewrite in_range_true by lia.
  change 0x1F%N with (N.ones 5). change 0xC0%N with (6 * 2 ^ 5)%N.
  by rewrite land_mask by (cbn; lia).
Qed.

Lemma decode_lead_three a :
  (a < 16)%N ->
  decode_lead (0xE0 + a) =
    ([], {| code_point := a; bytes_seen := 0; bytes_needed := 2;
            lower_boundary := if (a =? 0)%N then 0xA0 else 0x80;
            upper_boundary := if (a =? 13)%N then 0x9F else 0xBF |}).
Proof.
  intros Ha. unfold decode_lead.
  rewrite (proj2 (N.leb_gt _ _)) by lia. rewrite in_range_false by lia.
  rewrite in_range_true by lia.
  change 0xF%N with (N.ones 4). change 0xE0%N with (14 * 2 ^ 4)%N.
  rewrite land_mask by (cbn; lia). change (14 * 2 ^ 4)%N with 224%N.
  f_equal. f_equal.
  - destruct (N.eqb_spec (224 + a) 224), (N.eqb_spec a 0); done || lia.
  - destruct (N.eqb_spec (224 + a) 237), (N.eqb_spec a 13); done || lia.
Qed.

Lemma decode_lead_four a :
  (a < 5)%N ->
  decode_lead (0xF0 + a) =
    ([], {| code_point := a; bytes_seen := 0; bytes_needed := 3;
            lower_boundary := if (a =? 0)%N then 0x90 else 0x80;
            upper_boundary := if (a =? 4)%N then 0x8F else 0xBF |}).
Proof.
  intros Ha. unfold decode_lead.
  rewrite (proj2 (N.leb_gt _ _)) by lia. rewrite !in_range_false by lia.
  rewrite in_range_true by lia.
  change 0x7%N with (N.ones 3). change 0xF0%N with (30 * 2 ^ 3)%N.
  rewrite land_mask by (cbn; lia). change (30 * 2 ^ 3)%N with 240%N.
  f_equal. f_equal.
  - destruct (N.eqb_spec (240 + a) 240), (N.eqb_spec a 0); done || lia.
  - destruct (N.eqb_spec (240 + a) 244), (N.eqb_spec a 4); done || lia.
Qed.

(** A continuation byte within the bounds the decoder expects. *)
Lemma decode_byte_continuation d l :
  bytes_needed d ≠ 0%N -> (l < 64)%N ->
  (lower_boundary d <= 0x80 + l <= upper_boundary d)%N ->
  decode_byte d (0x80 + l) =
    if (bytes_seen d + 1 =? bytes_needed d)%N
    then (utf16_of_code_point (code_point d * 64 + l), decoder_reset)
    else ([], {| code_point := code_point d * 64 + l; bytes_seen := bytes_seen d + 1;
                 bytes_needed := bytes_needed d;
                 lower_boundary := 0x80; upper_boundary := 0xBF |}).
Proof.
  intros Hneeded Hl Hbounds. unfold decode_byte.
  rewrite (proj2 (N.eqb_neq _ _)) by done.
  rewrite in_range_true by done. cbn [negb].
  change 0x3F%N with (N.ones 6). change 0x80%N with (2 * 2 ^ 6)%N.
  rewrite land_mask by (cbn; lia).
  rewrite lor_shift by (cbn; lia). done.
Qed.

Lemma decode_one (c : N) rest :
  (c < 0x80)%N ->
  decode_from decoder_reset (byte_of_N c :: rest) = c :: decode_from decoder_reset rest.
Proof.
  intros Hc. cbn [decode_from]. rewrite to_N_byte_of_N by lia.
  unfold decode_byte. cbn [bytes_needed decoder_reset N.eqb].
  by rewrite decode_lead_one.
Qed.

Local Ltac settle :=
  match goal with
  | |- context [(?n =? ?m)%N] =>
      let b := eval vm_compute in (n =? m)%N in
      change (n =? m)%N with b; cbv beta iota; cbn [app]
  end.

Lemma decode_two (h l : N) rest :
  (2 <= h < 32)%N -> (l < 64)%N ->
  decode_from decoder_reset (byte_of_N (0xC0 + h) :: byte_of_N (0x80 + l) :: rest) =
    (h * 64 + l)%N :: decode_from decoder_reset rest.
Proof.
  intros Hh Hl. cbn [decode_from]. rewrite !to_N_byte_of_N by lia.
  unfold decode_byte at 1. cbn [bytes_needed decoder_reset N.eqb].
  rewrite decode_lead_two by done.
  rewrite decode_byte_continuation by (cbn; done || lia).
  cbn [bytes_seen bytes_needed code_point]. settle.
  unfold utf16_of_code_point. by rewrite (proj2 (N.ltb_lt _ _)) by lia.
Qed.

Lemma decode_three (a b c : N) rest :
  (a < 16)%N -> (b < 64)%N -> (c < 64)%N ->
  (a = 0 -> 32 <= b)%N -> (a = 13 -> b < 32)%N ->
  decode_from decoder_reset
    (byte_of_N (0xE0 + a) :: byte_of_N (0x80 + b) :: byte_of_N (0x80 + c) :: rest) =
    ((a * 64 + b) * 64 + c)%N :: decode_from decoder_reset rest.
Proof.
  intros Ha Hb Hc Hlow Hhigh. cbn [decode_from]. rewrite !to_N_byte_of_N by lia.
  unfold decode_byte at 1. cbn [bytes_needed decoder_reset N.eqb].
  rewrite decode_lead_three by done.
  rewrite decode_byte_continuation; [|done|done|].
  2:{ cbn [lower_boundary upper_boundary].
      destruct (N.eqb_spec a 0), (N.eqb_spec a 13); lia. }
  cbn [bytes_seen bytes_needed code_point]. settle.
  rewrite decode_byte_continuation by (cbn; done || lia).
  cbn [bytes_seen bytes_needed code_point]. settle.
  unfold utf16_of_code_point. by rewrite (proj2 (N.ltb_lt _ _)) by lia.
Qed.

Lemma decode_four (a b c d : N) rest :
  (a < 5)%N -> (b < 64)%N -> (c < 64)%N -> (d < 64)%N ->
  (a = 0 -> 16 <= b)%N -> (a = 4 -> b < 16)%N ->
  decode_from decoder_reset
    (byte_of_N (0xF0 + a) :: byte_of_N (0x80 + b) :: byte_of_N (0x80 + c)
       :: byte_of_N (0x80 + d) :: rest) =
    utf16_of_code_point (((a * 64 + b) * 64 + c) * 64 + d)
      ++ decode_from decoder_reset rest.
Proof.
  intros Ha Hb Hc Hd Hlow Hhigh. cbn [decode_from]. rewrite !to_N_byte_of_N by lia.
  unfold decode_byte at 1. cbn [bytes_needed decoder_reset N.eqb].
  rewrite decode_lead_four by done.
  rewrite decode_byte_continuation; [|done|done|].
  2:{ cbn [lower_boundary upper_boundary].
      destruct (N.eqb_spec a 0), (N.eqb_spec a 4); lia. }
  cbn [bytes_seen bytes_needed code_point]. settle.
  rewrite decode_byte_continuation by (cbn; done || lia).
  cbn [bytes_seen bytes_needed code_point]. settle.
  rewrite decode_byte_continuation by (cbn; done || lia).
  cbn [bytes_seen bytes_needed code_point]. settle.
  done.
Qed.

Lemma decode_code_point cp rest :
  scalar_value cp ->
  decode_from decoder_reset (utf8_of_code_point cp ++ rest) =
    utf16_of_code_point cp ++ decode_from decoder_reset rest.
Proof.
  intros Hscalar. unfold scalar_value in Hscalar. unfold utf8_of_code_point.
  pose proof (N.div_mod' cp 64) as H64. pose proof (N.mod_lt cp 64) as Hd.
  pose proof (N.div_mod' (cp / 64) 64) as H4096.
  pose proof (N.mod_lt (cp / 64) 64) as Hc.
  pose proof (N.div_mod' (cp / 64 / 64) 64) as H262144.
  pose proof (N.mod_lt (cp / 64 / 64) 64) as Hb.
  change 4096%N with (64 * 64)%N. change 262144%N with (64 * 64 * 64)%N.
  rewrite <- !N.Div0.div_div.
  set (q1 := (cp / 64)%N) in *. set (d := (cp mod 64)%N) in *.
  set (q2 := (q1 / 64)%N) in *. set (c := (q1 mod 64)%N) in *.
  set (q3 := (q2 / 64)%N) in *. set (b := (q2 mod 64)%N) in *.
  clearbody q1 d q2 c q3 b.
  destruct (N.ltb_spec cp 0x80) as [H1|H1].
  { cbn [app]. rewrite decode_one by done. unfold utf16_of_code_point.
    by rewrite (proj2 (N.ltb_lt _ _)) by lia. }
  destruct (N.ltb_spec cp 0x800) as [H2|H2].
  { cbn [app]. rewrite decode_two by lia. unfold utf16_of_code_point.
    rewrite (proj2 (N.ltb_lt _ _)) by lia. cbn [app]. f_equal. lia. }
  destruct (N.ltb_spec cp 0x10000) as [H3|H3].
  { cbn [app]. rewrite decode_three by lia. unfold utf16_of_code_point.
    rewrite (proj2 (N.ltb_lt _ _)) by lia. cbn [app]. f_equal. lia. }
  cbn [app]. rewrite decode_four by lia. do 2 f_equal. lia.
Qed.

Lemma utf16_pair c d :
  is_high_surrogate c = true -> is_low_surrogate d = true ->
  let cp := (0x10000 + (c - 0xD800) * 1024 + (d - 0xDC00))%N in
  scalar_value cp /\ utf16_of_code_point cp = [c; d].
Proof.
  unfold is_high_surrogate, is_low_surrogate. rewrite !in_range_spec.
  intros Hc Hd. cbv zeta. split; [unfold scalar_value; lia|].
  unfold utf16_of_code_point. rewrite (proj2 (N.ltb_ge _ _)) by lia.
  replace (0x10000 + (c - 0xD800) * 1024 + (d - 0xDC00) - 0x10000)%N
    with ((d - 0xDC00) + (c - 0xD800) * 1024)%N by lia.
  rewrite N.div_add by done. rewrite N.Div0.mod_add.
  rewrite N.div_small, N.mod_small by lia. f_equal; [lia|f_equal; lia].
Qed.

Lemma decode_replacement rest :
  decode_from decoder_reset (utf8_of_code_point 0xFFFD ++ rest) =
    0xFFFD%N :: decode_from decoder_reset rest.
Proof. rewrite decode_code_point by (unfold scalar_value; lia). done. Qed.

(** Decoding what was encoded gives the text back, but for the surrogates
    that are not paired. *)
Lemma decode_encode s :
  code_units s -> decode_from decoder_reset (TextEncoder_encode s) = toWellFormed s.
Proof.
  assert (Hgen : forall n s, (length s <= n)%nat -> code_units s ->
            decode_from decoder_reset (TextEncoder_encode s) = toWellFormed s).
  { induction n as [|n IH]; intros [|c rest] Hlen Hunits; cbn in Hlen; try done; try lia.
    apply Forall_cons_1 in Hunits as [Hc Hrest].
    cbn [TextEncoder_encode toWellFormed].
    destruct (is_high_surrogate c) eqn:Hhigh.
    - destruct rest as [|d rest'].
      + rewrite <- (app_nil_r (utf8_of_code_point _)). by rewrite decode_replacement.
      + destruct (is_low_surrogate d) eqn:Hlow.
        * apply Forall_cons_1 in Hrest as [Hd Hrest'].
          destruct (utf16_pair c d Hhigh Hlow) as [Hscalar Hpair].
          rewrite decode_code_point by done. rewrite Hpair. cbn [app].
          rewrite IH; [done|cbn in Hlen; lia|done].
        * rewrite decode_replacement. rewrite IH; [done|lia|done].
    - destruct (is_low_surrogate c) eqn:Hlow.
      + rewrite decode_replacement. rewrite IH; [done|lia|done].
      + apply in_range_false' in Hhigh. apply in_range_false' in Hlow.
        rewrite decode_code_point by (unfold scalar_value; lia).
        unfold utf16_of_code_point. rewrite (proj2 (N.ltb_lt _ _)) by lia. cbn [app].
        rewrite IH; [done|lia|done]. }
  intros Hunits. by apply (Hgen (length s)).
Qed.

Lemma strip_bom_spec bytes :
  strip_bom bytes = bytes \/
  exists rest, bytes = xef :: xbb :: xbf :: rest /\ strip_bom bytes = rest.
Proof.
  destruct bytes as [|b1 bytes]; [by left|].
  destruct b1; try (by left).
  destruct bytes as [|b2 bytes]; [by left|].
  destruct b2; try (by left).
  destruct bytes as [|b3 bytes]; [by left|].
  destruct b3; try (by left).
  right. by eexists.
Qed.

Lemma toWellFormed_bom s t :
  toWellFormed s = 0xFEFF%N :: t -> exists s', s = 0xFEFF%N :: s'.
Proof.
  destruct s as [|c rest]; [done|]. cbn [toWellFormed].
  destruct (is_high_surrogate c) eqn:Hhigh.
  - apply in_range_spec in Hhigh.
    destruct rest as [|d rest']; [done|]. destruct (is_low_surrogate d).
    + intros [= -> _]. lia.
    + done.
  - destruct (is_low_surrogate c); [done|]. intros [= -> _]. by eexists.
Qed.

Lemma encode_bom s :
  TextEncoder_encode (0xFEFF%N :: s) = xef :: xbb :: xbf :: TextEncoder_encode s.
Proof. reflexivity. Qed.

(** The text a peer reads in what was written: the surrogates that are not
    paired have become U+FFFD, and a byte order mark at the very start is
    gone. *)
Lemma utf8_round_trip s :
  code_units s ->
  TextDecoder_decode (TextEncoder_encode s) = without_bom (toWellFormed s).
Proof.
  intros Hunits. unfold TextDecoder_decode.
  pose proof (decode_encode s Hunits) as Hround.
  destruct (strip_bom_spec (TextEncoder_encode s)) as [Hsame|(rest & Hbom & Hstrip)].
  - rewrite Hsame, Hround.
    destruct (toWellFormed s) as [|c t] eqn:Hwf; [done|].
    destruct (decide (c = 0xFEFF%N)) as [->|Hc].
    + destruct (toWellFormed_bom _ _ Hwf) as [s' ->].
      rewrite encode_bom in Hsame. cbn in Hsame.
      apply (f_equal length) in Hsame. cbn in Hsame. lia.
    + unfold without_bom. destruct c as [|p]; [done|].
      repeat (destruct p as [p|p|]; try done).
  - rewrite Hstrip. rewrite Hbom in Hround.
    change (xef :: xbb :: xbf :: rest) with (utf8_of_code_point 0xFEFF ++ rest) in Hround.
    rewrite decode_code_point in Hround by (unfold scalar_value; lia).
    cbn in Hround. by rewrite <- Hround.
Qed.

Lemma toWellFormed_plain c rest :
  is_high_surrogate c = false -> is_low_surrogate c = false ->
  toWellFormed (c :: rest) = c :: toWellFormed rest.
Proof. intros Hhigh Hlow. cbn [toWellFormed]. by rewrite Hhigh, Hlow. Qed.

Lemma toWellFormed_pair c d rest :
  is_high_surrogate c = true -> is_low_surrogate d = true ->
  toWellFormed (c :: d :: rest) = c :: d :: toWellFormed rest.
Proof. intros Hhigh Hlow. cbn [toWellFormed]. by rewrite Hhigh, Hlow. Qed.

Lemma toWellFormed_lone c rest :
  (is_high_surrogate c = true /\
   (forall d rest', rest = d :: rest' -> is_low_surrogate d = false)) \/
  (is_high_surrogate c = false /\ is_low_surrogate c = true) ->
  toWellFormed (c :: rest) = 0xFFFD%N :: toWellFormed rest.
Proof.
  intros [[Hhigh Hnext]|[Hhigh Hlow]]; cbn [toWellFormed]; rewrite Hhigh.
  - destruct rest as [|d rest']; [done|]. by rewrite (Hnext d rest').
  - by rewrite Hlow.
Qed.

Lemma encode_plain c rest :
  is_high_surrogate c = false -> is_low_surrogate c = false ->
  TextEncoder_encode (c :: rest) = utf8_of_code_point c ++ TextEncoder_encode rest.
Proof. intros Hhigh Hlow. cbn [TextEncoder_encode]. by rewrite Hhigh, Hlow. Qed.

Lemma encode_pair c d rest :
  is_high_surrogate c = true -> is_low_surrogate d = true ->
  TextEncoder_encode (c :: d :: rest) =
    utf8_of_code_point (0x10000 + (c - 0xD800) * 1024 + (d - 0xDC00))
      ++ TextEncoder_encode rest.
Proof. intros Hhigh Hlow. cbn [TextEncoder_encode]. by rewrite Hhigh, Hlow. Qed.

Lemma encode_lone c rest :
  (is_high_surrogate c = true /\
   (forall d rest', rest = d :: rest' -> is_low_surrogate d = false)) \/
  (is_high_surrogate c = false /\ is_low_surrogate c = true) ->
  TextEncoder_encode (c :: rest) = utf8_of_code_point 0xFFFD ++ TextEncoder_encode rest.
Proof.
  intros [[Hhigh Hnext]|[Hhigh Hlow]]; cbn [TextEncoder_encode]; rewrite Hhigh.
  - destruct rest as [|d rest']; [by rewrite app_nil_r|]. by rewrite (Hnext d rest').
  - by rewrite Hlow.
Qed.

(** The three ways a text begins: with a pair, with a surrogate that is
    not paired, or with any other code unit. *)
Lemma text_cases (c : N) (rest : jsstring) :
  (is_high_surrogate c = false /\ is_low_surrogate c = false) \/
  (exists d rest', rest = d :: rest' /\
     is_high_surrogate c = true /\ is_low_surrogate d = true) \/
  ((is_high_surrogate c = true /\
    (forall d rest', rest = d :: rest' -> is_low_surrogate d = false)) \/
   (is_high_surrogate c = false /\ is_low_surrogate c = true)).
Proof.
  destruct (is_high_surrogate c) eqn:Hhigh.
  - destruct rest as [|d rest'].
    + right. right. left. by split.
    + destruct (is_low_surrogate d) eqn:Hlow.
      * right. left. by exists d, rest'.
      * right. right. left. split; [done|]. by intros ? ? [= <- <-].
  - destruct (is_low_surrogate c) eqn:Hlow; [|by left].
    right. right. by right.
Qed.

Lemma toWellFormed_idempotent s : toWellFormed (toWellFormed s) = toWellFormed s.
Proof.
  assert (Hgen : forall n s, (length s <= n)%nat ->
            toWellFormed (toWellFormed s) = toWellFormed s).
  { induction n as [|n IH]; intros [|c rest] Hlen; cbn in Hlen; try done; try lia.
    destruct (text_cases c rest) as [[Hhigh Hlow]|[(d & rest' & -> & Hhigh & Hlow)|Hlone]].
    - rewrite !toWellFormed_plain by done. rewrite IH; [done|lia].
    - rewrite !toWellFormed_pair by done. rewrite IH; [done|cbn in Hlen; lia].
    - rewrite toWellFormed_lone by done. rewrite toWellFormed_plain by done.
      rewrite IH; [done|lia]. }
  by apply (Hgen (length s)).
Qed.

Lemma encode_toWellFormed s : TextEncoder_encode (toWellFormed s) = TextEncoder_encode s.
Proof.
  assert (Hgen : forall n s, (length s <= n)%nat ->
            TextEncoder_encode (toWellFormed s) = TextEncoder_encode s).
  { induction n as [|n IH]; intros [|c rest] Hlen; cbn in Hlen; try done; try lia.
    destruct (text_cases c rest) as [[Hhigh Hlow]|[(d & rest' & -> & Hhigh & Hlow)|Hlone]].
    - rewrite toWellFormed_plain by done. rewrite !encode_plain by done.
      rewrite IH; [done|lia].
    - rewrite toWellFormed_pair by done. rewrite !encode_pair by done.
      rewrite IH; [done|cbn in Hlen; lia].
    - rewrite toWellFormed_lone by done. rewrite encode_plain by done.
      rewrite encode_lone by done. rewrite IH; [done|lia]. }
  by apply (Hgen (length s)).
Qed.

End Utf8.

(** ** Text messages under the cipher *)

Section Texts.
Context {platform : WebPlatform}.

(** X5: a text encrypted by [encryptText] is read by [decryptText] under
    the same key as the text itself, with U+FFFD for each surrogate that is
    not paired and without a byte order mark at its very start; so a text
    that has neither is read as it was written. *)
Theorem text_survives_the_cipher :
  cipher_round_trip -> base64_round_trip ->
  forall (key : CryptoKey) (draw : nat) (text : jsstring),
    code_units text ->
    exists encrypted,
      encryptText (Some key) draw text = Normal encrypted /\
      decryptText (Some key) (e_iv encrypted) (e_data encrypted) =
        Normal (Some (without_bom (toWellFormed text))) /\
      (toWellFormed text = text -> head text ≠ Some 0xFEFF%N ->
       decryptText (Some key) (e_iv encrypted) (e_data encrypted) = Normal (Some text)).
Proof.
  intros Hcipher Hb64 key draw text Hunits.
  destruct (encrypt_decrypt_round_trip Hcipher Hb64 key draw (TextEncoder_encode text))
    as (encrypted & Henc & Hdec).
  exists encrypted. split; [done|].
  assert (Hread : decryptText (Some key) (e_iv encrypted) (e_data encrypted) =
                    Normal (Some (without_bom (toWellFormed text)))).
  { unfold decryptText. rewrite Hdec. cbn. by rewrite utf8_round_trip. }
  split; [done|]. intros Hwf Hhead. rewrite Hread, Hwf.
  destruct text as [|c rest]; [done|]. cbn in Hhead. unfold without_bom.
  destruct c as [|p]; [done|]. repeat (destruct p as [p|p|]; try done).
Qed.

End Texts.

Lemma text_survives_the_cipher_witness :
  code_units (lit "hello") /\
  exists encrypted,
    @encryptText Sample.sample_platform (Some Sample.sample_key) 0 (lit "hello")
      = Normal encrypted /\
    @decryptText Sample.sample_platform (Some Sample.sample_key)
      (e_iv encrypted) (e_data encrypted)
      = Normal (Some (without_bom (toWellFormed (lit "hello")))) /\
    (toWellFormed (lit "hello") = lit "hello" -> head (lit "hello") ≠ Some 0xFEFF%N ->
     @decryptText Sample.sample_platform (Some Sample.sample_key)
       (e_iv encrypted) (e_data encrypted) = Normal (Some (lit "hello"))).
Proof.
  assert (Hunits : code_units (lit "hello")).
  { unfold code_units. cbn. repeat constructor. }
  split; [exact Hunits|].
  exact (@text_survives_the_cipher Sample.sample_platform sample_cipher_round_trip
           sample_base64_round_trip Sample.sample_key 0%nat (lit "hello") Hunits).
Defined.

(** ** The passphrase, once more *)

Section Passphrase.
Context {platform : WebPlatform}.

Lemma trim_start_fixed s :
  head s = None \/ (exists c, head s = Some c /\ is_white_space c = false) ->
  trim_start s = s.
Proof.
  destruct s as [|c rest]; [done|]. intros [?|(c' & [= <-] & Hc)]; [done|].
  cbn. by rewrite Hc.
Qed.

Lemma trim_start_head s :
  head (trim_start s) = None \/
  exists c, head (trim_start s) = Some c /\ is_white_space c = false.
Proof.
  induction s as [|c rest IH]; [by left|]. cbn.
  destruct (is_white_space c) eqn:Hc; [done|]. right. by exists c.
Qed.

Lemma trim_start_snoc s c :
  trim_start (s ++ [c]) =
    if bool_decide (trim_start s = []) then (if is_white_space c then [] else [c])
    else trim_start s ++ [c].
Proof.
  induction s as [|d rest IH]; cbn.
  - by destruct (is_white_space c).
  - destruct (is_white_space d); [done|]. by rewrite bool_decide_eq_false_2.
Qed.

Lemma trim_end_cons c s :
  trim_end (c :: s) =
    if bool_decide (trim_end s = []) then (if is_white_space c then [] else [c])
    else c :: trim_end s.
Proof.
  unfold trim_end. cbn [rev]. rewrite trim_start_snoc.
  destruct (trim_start (rev s)) as [|d t] eqn:Hrev; cbn [rev].
  - rewrite !bool_decide_eq_true_2 by done. by destruct (is_white_space c).
  - rewrite bool_decide_eq_false_2 by done.
    rewrite bool_decide_eq_false_2.
    + by rewrite rev_unit.
    + intros Hnil. apply (f_equal length) in Hnil. rewrite length_app in Hnil.
      cbn in Hnil. lia.
Qed.

(** Trimming the end keeps a start that is not white space. *)
Lemma trim_end_head s :
  head s = None \/ (exists c, head s = Some c /\ is_white_space c = false) ->
  head (trim_end s) = head s.
Proof.
  destruct s as [|c rest]; [done|]. intros [?|(c' & [= <-] & Hc)]; [done|].
  rewrite trim_end_cons, Hc. by case_bool_decide.
Qed.

Lemma trim_end_idempotent s : trim_end (trim_end s) = trim_end s.
Proof.
  unfold trim_end. rewrite rev_involutive.
  by rewrite (trim_start_fixed (trim_start (rev s))) by apply trim_start_head.
Qed.

Lemma trim_idempotent s : trim (trim s) = trim s.
Proof.
  unfold trim.
  rewrite (trim_start_fixed (trim_end (trim_start s))).
  - apply trim_end_idempotent.
  - pose proof (trim_start_head s) as Hhead.
    rewrite trim_end_head by done. done.
Qed.

Lemma trim_start_plain s : Forall (fun c => is_white_space c = false) s -> trim_start s = s.
Proof.
  intros Hplain. apply trim_start_fixed. destruct Hplain as [|c rest Hc _]; [by left|].
  right. by exists c.
Qed.

Lemma trim_plain s : Forall (fun c => is_white_space c = false) s -> trim s = s.
Proof.
  intros Hplain. unfold trim, trim_end. rewrite (trim_start_plain s) by done.
  rewrite trim_start_plain; [apply rev_involutive|]. by apply Forall_rev.
Qed.

Lemma normalizePassword_fixed value :
  normalizePassword (Some (normalizePassword value)) = normalizePassword value.
Proof.
  destruct (decide (trim (default [] value) = [])) as [Hempty|Hfull].
  - assert (normalizePassword value = DEFAULT_PASSWORD) as ->.
    { unfold normalizePassword. by rewrite bool_decide_eq_true_2. }
    reflexivity.
  - assert (normalizePassword value = trim (default [] value)) as ->.
    { unfold normalizePassword. by rewrite bool_decide_eq_false_2. }
    unfold normalizePassword.
    change (default [] (Some (trim (default [] value)))) with (trim (default [] value)).
    rewrite trim_idempotent. by rewrite bool_decide_eq_false_2.
Qed.

Lemma hex_digit_inj d d' : (d < 16)%N -> (d' < 16)%N -> hex_digit d = hex_digit d' -> d = d'.
Proof.
  unfold hex_digit. intros Hd Hd'.
  destruct (N.ltb_spec d 10), (N.ltb_spec d' 10); lia.
Qed.

Lemma hex_pair_inj b b' :
  padStart 2 48%N (toString16 (Byte.to_N b)) = padStart 2 48%N (toString16 (Byte.to_N b')) ->
  b = b'.
Proof.
  intros Heq. rewrite <- (byte_of_to_N b), <- (byte_of_to_N b'). f_equal.
  pose proof (Byte.to_N_bounded b) as Hb. pose proof (Byte.to_N_bounded b') as Hb'.
  revert Heq. generalize (Byte.to_N b) (Byte.to_N b') Hb Hb'. clear. intros n n' Hn Hn'.
  assert (Hpair : forall m, (m <= 255)%N ->
            padStart 2 48%N (toString16 m) = [hex_digit (m / 16); hex_digit (m mod 16)]).
  { intros m Hm. unfold toString16, padStart.
    destruct (N.ltb_spec m 16) as [Hsmall|Hbig]; cbn.
    - rewrite N.div_small, N.mod_small by done. done.
    - done. }
  rewrite !Hpair by done. intros [= Hhigh Hlow].
  apply hex_digit_inj in Hhigh; [|apply N.Div0.div_lt_upper_bound; lia..].
  apply hex_digit_inj in Hlow; [|by apply N.mod_lt..].
  rewrite (N.div_mod' n 16), (N.div_mod' n' 16). lia.
Qed.

Lemma hex_pair_length b : length (padStart 2 48%N (toString16 (Byte.to_N b))) = 2%nat.
Proof.
  unfold toString16, padStart. destruct (Byte.to_N b <? 16)%N; reflexivity.
Qed.

Lemma bytesToHex_inj bytes : forall bytes', bytesToHex bytes = bytesToHex bytes' -> bytes = bytes'.
Proof.
  unfold bytesToHex.
  induction bytes as [|b rest IH]; intros [|b' rest'] Heq; cbn in Heq.
  - done.
  - apply (f_equal length) in Heq. rewrite length_app, hex_pair_length in Heq. done.
  - apply (f_equal length) in Heq. rewrite length_app, hex_pair_length in Heq. done.
  - apply app_inj_1 in Heq as [Hpair Hrest]; [|by rewrite !hex_pair_length].
    f_equal; [by apply hex_pair_inj|by apply IH].
Qed.

(** X6: what [applyPassword] keeps of a passphrase is stable: the
    normalized passphrase is not empty and normalizes to itself, so the
    passphrase put in storage derives, when the page is loaded again, the
    room and the key it derived before; a passphrase without white space is
    kept as typed. *)
Theorem stored_passphrase_is_stable :
  forall value : option jsstring,
    normalizePassword value ≠ [] /\
    normalizePassword (Some (normalizePassword value)) = normalizePassword value /\
    derive (Some (normalizePassword value)) = derive value /\
    (forall s, value = Some s -> s ≠ [] -> Forall (fun c => is_white_space c = false) s ->
       normalizePassword value = s).
Proof.
  intros value. split; [|split; [|split]].
  - unfold normalizePassword. by case_bool_decide.
  - apply normalizePassword_fixed.
  - unfold derive. by rewrite normalizePassword_fixed.
  - intros s -> Hs Hplain. unfold normalizePassword.
    change (default [] (Some s)) with s.
    rewrite trim_plain by done. by rewrite bool_decide_eq_false_2.
Qed.

(** X7: the room and the key are computed from the UTF-8 encoding of the
    passphrase. Passphrases that differ only in surrogates that are not
    paired share their room and key; two passphrases have the same encoding
    only if they agree up to such surrogates; and two rooms have the same
    fingerprint only if the digests are the same. *)
Theorem room_and_key_of_a_passphrase :
  forall password password' : jsstring,
    (toWellFormed password = toWellFormed password' ->
       hashRoomId password = hashRoomId password' /\
       deriveKey password = deriveKey password') /\
    (code_units password -> code_units password' ->
       TextEncoder_encode password = TextEncoder_encode password' ->
       toWellFormed password = toWellFormed password') /\
    (hashRoomId password = hashRoomId password' ->
       digest_SHA256 (TextEncoder_encode password) =
       digest_SHA256 (TextEncoder_encode password')).
Proof.
  intros password password'. split; [|split].
  - intros Hwf. unfold hashRoomId, deriveKey.
    by rewrite <- (encode_toWellFormed password), Hwf, encode_toWellFormed.
  - intros Hunits Hunits' Hencoded.
    by rewrite <- (decode_encode password), Hencoded, decode_encode.
  - unfold hashRoomId. apply bytesToHex_inj.
Qed.

End Passphrase.

(** ** What the page shows of a transfer comes from its chunks *)

Section Provenance.
Context {platform : WebPlatform}.

Lemma merge_Normal cs merged :
  merge cs = Normal merged -> exists ps, cs = Some <$> ps /\ merged = concat ps.
Proof.
  intros Hmerge.
  assert (Hfull : exists ps, cs = Some <$> ps).
  { assert (Hnone : forall j, cs !! j ≠ Some None).
    { intros j Hj. destruct (merge_hole _ _ Hj) as [e He]. congruence. }
    clear Hmerge. induction cs as [|slot cs IH].
    - by exists [].
    - destruct IH as [ps ->]; [intros j; apply (Hnone (S j))|].
      destruct slot as [chunk|]; [by exists (chunk :: ps)|]. by destruct (Hnone 0%nat). }
  destruct Hfull as [ps ->]. exists ps. split; [done|].
  rewrite merge_complete in Hmerge. congruence.
Qed.

Lemma js_or_twice a b : js_or (js_or a b) b = js_or a b.
Proof.
  unfold js_or. destruct (truthy a) eqn:Ha; [by rewrite Ha|]. by destruct (truthy b).
Qed.

Lemma chunk_of_mono key R R' id j plain :
  R ⊆ R' -> chunk_of key R id j plain -> chunk_of key R' id j plain.
Proof. intros Hsub (p & Hp & Hrest). exists p. split; [by apply Hsub|done]. Qed.

Lemma announced_mono R R' id st : R ⊆ R' -> announced R id st -> announced R' id st.
Proof. intros Hsub (p & now & Hp & Hrest). exists p, now. split; [by apply Hsub|done]. Qed.

Lemma genuine_mono key R R' c : R ⊆ R' -> genuine key R c -> genuine key R' c.
Proof.
  intros Hsub [Hkey Hobj Htask Hshown]. split; [done| | |].
  - intros id n st Hst. destruct (Hobj _ _ _ Hst) as (Hlen & Hann & Hslots).
    split; [done|]. split; [by eapply announced_mono|].
    intros j plain Hj. eapply chunk_of_mono; [done|]. by eapply Hslots.
  - intros t task Ht. destruct (Htask _ _ Ht) as (Hin & Hrest). split; [by apply Hsub|done].
  - intros id n m merged Hin.
    destruct (Hshown _ _ _ _ Hin) as (st & plains & Hann & Hm & Hlen & Hmerged & Hslots).
    exists st, plains. split; [by eapply announced_mono|]. repeat split; try done.
    intros j plain Hj. eapply chunk_of_mono; [done|]. by eapply Hslots.
Qed.

Lemma genuine_initial key : genuine key [] (initial key).
Proof.
  split; cbn; [done| | |].
  - intros id n st Hst. by rewrite lookup_empty in Hst.
  - intros t task Ht. by rewrite lookup_empty in Ht.
  - intros id n m merged Hin. by apply not_elem_of_nil in Hin.
Qed.

(** A session that differs by map entries, timers, the clock, failure
    notices and rejections only. *)
Lemma genuine_weaken key R c c' :
  genuine key R c ->
  cryptoKey c' = cryptoKey c -> objects c' = objects c ->
  (forall t task, suspended c' !! t = Some task -> suspended c !! t = Some task) ->
  (forall r m merged, FileShown r m merged ∈ messagesEl c' ->
     FileShown r m merged ∈ messagesEl c) ->
  genuine key R c'.
Proof.
  intros [Hkey Hobj Htask Hshown] Hkey' Hobj' Htask' Hshown'. split.
  - congruence.
  - rewrite Hobj'. apply Hobj.
  - rewrite Hobj'. intros t task Ht. eapply Htask. by apply Htask'.
  - intros id n m merged Hin. eapply Hshown. by apply Hshown'.
Qed.

Lemma shown_after_failure (log : list FileMessage) payload r m merged :
  FileShown r m merged ∈ log ++ [FileFailed payload] -> FileShown r m merged ∈ log.
Proof.
  intros Hin. apply elem_of_app in Hin as [Hin|Hin]; [done|].
  by apply list_elem_of_singleton in Hin.
Qed.

(** The record after a suspended call has stored its chunk. *)
Lemma genuine_stored key R c t task bytes st :
  genuine key R c ->
  suspended c !! t = Some task -> t_settled task = Some bytes ->
  objects c !! (t_id task, t_state task) = Some st ->
  genuine key R
    (upd_objects (insert (t_id task, t_state task) (stored task bytes st))
       (upd_suspended (delete t) c)) /\
  Z.of_nat (length (chunks (stored task bytes st))) = total st /\
  announced R (t_id task) st /\
  forall j plain, chunks (stored task bytes st) !! j = Some (Some plain) ->
    chunk_of key R (t_id task) j plain.
Proof.
  intros [Hkey Hobj Htask Hshown] Ht Hsettled Hst.
  destruct (Hobj _ _ _ Hst) as (Hlen & Hann & Hslots).
  destruct (Htask _ _ Ht) as (Hin & Hid & Hindex & Hplain & Hpos & Hbelow).
  specialize (Hbelow _ Hst).
  assert (Hinside : (Z.to_nat (t_index task) < length (chunks st))%nat) by lia.
  assert (Hnew : Z.of_nat (length (chunks (stored task bytes st))) = total st /\
                 forall j plain, chunks (stored task bytes st) !! j = Some (Some plain) ->
                   chunk_of key R (t_id task) j plain).
  { cbn. rewrite array_set_inside by done. split; [by rewrite length_insert|].
    intros j plain Hj. destruct (decide (j = Z.to_nat (t_index task))) as [->|Hother].
    - rewrite list_lookup_insert_eq in Hj by done. injection Hj as <-.
      exists (t_payload task). rewrite Z2Nat.id by done. repeat split; try done. congruence.
    - rewrite list_lookup_insert_ne in Hj by done. by eapply Hslots. }
  destruct Hnew as [Hlen' Hslots'].
  split; [|done]. split; cbn.
  - done.
  - intros id n st' Hst'. rewrite lookup_insert in Hst'.
    case_decide as Href; [|by eapply Hobj].
    injection Href as <- <-. injection Hst' as <-. done.
  - intros t' task' Ht'. apply lookup_delete_Some in Ht' as [_ Ht'].
    destruct (Htask _ _ Ht') as (Hin' & Hid' & Hindex' & Hplain' & Hpos' & Hbelow').
    repeat split; try done. intros st' Hst'. rewrite lookup_insert in Hst'.
    case_decide as Href; [|by eapply Hbelow'].
    injection Hst' as <-. cbn. rewrite Href in Hst. by apply Hbelow'.
  - done.
Qed.

Lemma genuine_step key R c e :
  bounded c -> genuine key R c -> genuine key (R ++ receives [e]) (step c e).
Proof.
  intros Hbounded Hgenuine.
  assert (Hgrown : genuine key (R ++ receives [e]) c).
  { eapply genuine_mono; [|done]. intros p Hp. apply elem_of_app. by left. }
  destruct e as [payload|t|r|ms].
  - (* Receive *)
    change (receives [Receive payload]) with [payload] in *.
    assert (Hlast : payload ∈ R ++ [payload]).
    { apply elem_of_app. right. apply list_elem_of_here. }
    clear Hgenuine. destruct Hgrown as [Hkey Hobj Htask Hshown].
    generalize (step_Receive payload c). generalize (step c (Receive payload)).
    intros c' [| id T i Hid HT Hi Hrng Hmap Hbig
               | id T i n st Hid HT Hi Hrng Hmap Hst Htot Hslot
               | id T i Hid HT Hi Hrng Hmap Hsmall].
    + by split.
    + by split.
    + split; cbn; [done|done| |done].
      intros t task Ht. rewrite lookup_insert in Ht.
      case_decide; [|by eapply Htask]. injection Ht as <-. cbn.
      repeat split; try done; try lia; [by rewrite Hkey|].
      intros st' Hst'. rewrite Hst in Hst'. injection Hst' as <-. lia.
    + split; cbn; [done| | |done].
      * intros id' n st Hst. rewrite lookup_insert in Hst.
        case_decide as Href; [|by eapply Hobj].
        injection Href as <- <-. injection Hst as <-. cbn.
        split; [rewrite length_replicate; lia|]. split.
        -- by exists payload, (clock c).
        -- intros j plain Hj. apply lookup_replicate in Hj as [? _]. done.
      * intros t task Ht. rewrite lookup_insert in Ht. case_decide.
        -- injection Ht as <-. cbn. repeat split; try done; try lia; [by rewrite Hkey|].
           intros st Hst. rewrite lookup_insert_eq in Hst. injection Hst as <-. cbn. lia.
        -- destruct (Htask _ _ Ht) as (Hin' & Hid' & Hindex' & Hplain' & Hpos' & Hbelow').
           repeat split; try done. intros st Hst. rewrite lookup_insert_ne in Hst.
           ++ by apply Hbelow'.
           ++ pose proof (bounded_tasks _ Hbounded _ _ Ht). intros [= _ Hn]. lia.
  - (* Settle *)
    change (receives [Settle t]) with (@nil Payload) in *. rewrite app_nil_r in *.
    clear Hgrown.
    generalize (step_Settle t c). generalize (step c (Settle t)).
    intros c' [Hnone | task Ht Hfail | task bytes Ht Hsettled Hlost
               | task bytes st Ht Hsettled Hst Hmore
               | task bytes st merged Ht Hsettled Hst Hfull Hmerge
               | task bytes st e Ht Hsettled Hst Hfull Hmerge].
    + done.
    + apply (genuine_weaken key R c); [done|done|done| |]; cbn.
      * intros t' task' Ht'. by apply lookup_delete_Some in Ht' as [_ Ht'].
      * intros r m merged. apply shown_after_failure.
    + apply (genuine_weaken key R c); [done|done|done| |done]; cbn.
      intros t' task' Ht'. by apply lookup_delete_Some in Ht' as [_ Ht'].
    + by apply genuine_stored.
    + destruct (genuine_stored key R c t task bytes st Hgenuine Ht Hsettled Hst)
        as ([Hkey Hobj Htask Hshown] & Hlen & Hann & Hslots).
      split; cbn; [done|done|done|].
      intros id n m merged' Hin. apply elem_of_app in Hin as [Hin|Hin]; [by eapply Hshown|].
      apply list_elem_of_singleton in Hin. injection Hin as -> -> -> ->.
      destruct (merge_Normal _ _ Hmerge) as (ps & Hps & ->).
      exists st, ps. repeat split; try done.
      * rewrite <- Hlen, Hps. by rewrite length_fmap.
      * intros j plain Hj. apply Hslots. rewrite Hps, list_lookup_fmap, Hj. done.
    + destruct (genuine_stored key R c t task bytes st Hgenuine Ht Hsettled Hst)
        as ([Hkey Hobj Htask Hshown] & _).
      by split.
  - (* Expire *)
    change (receives [Expire r]) with (@nil Payload) in *. rewrite app_nil_r in *.
    cbn. unfold expire. destruct (timers c !! r); [|done]. case_match; [|done].
    by apply (genuine_weaken key R c).
  - (* Elapse *)
    change (receives [Elapse ms]) with (@nil Payload) in *. rewrite app_nil_r in *.
    by apply (genuine_weaken key R c).
Qed.

Lemma genuine_run key events :
  genuine key (receives events) (run (initial key) events).
Proof.
  induction events as [|e events IH] using rev_ind.
  - apply genuine_initial.
  - rewrite run_app, receives_app. apply genuine_step; [|done].
    apply bounded_run, bounded_initial.
Qed.

(** X8: whatever was received, in whatever order, a file that the page
    shows for a transfer is made of chunks received for that transfer: its
    name, type, size and time are those announced by one of the chunks (with
    the fallbacks of [createChunkState]), it has as many parts as that chunk
    announced, and its part [j] is the plaintext of a received chunk of the
    same transfer with index [j]. *)
Theorem shown_file_is_genuine :
  forall (key : option CryptoKey) (events : list Event)
         (id : jsstring) (n : nat) (m : Meta) (merged : list byte),
    FileShown (id, n) m merged ∈ messagesEl (run (initial key) events) ->
    exists p now plains,
      p ∈ receives events /\ p_id p = JString id /\
      m_name m = js_or (p_name p) (JString default_name) /\
      m_mime m = js_or (p_mime p) (JString (lit "application/octet-stream")) /\
      m_size m = js_or (p_size p) (JNumber 0) /\
      m_time m = js_or (p_time p) (JNumber now) /\
      p_total p = JNumber (Z.of_nat (length plains)) /\
      merged = concat plains /\
      forall j plain, plains !! j = Some plain ->
        exists q, q ∈ receives events /\ p_id q = JString id /\
                  p_index q = JNumber (Z.of_nat j) /\
                  decrypt_or_null key q = Some plain.
Proof.
  intros key events id n m merged Hin.
  destruct (genuine_shown _ _ _ (genuine_run key events) _ _ _ _ Hin)
    as (st & plains & (p & now & Hp & Hid & Htotal & Hmeta) & -> & Hlen & -> & Hslots).
  exists p, now, plains. unfold shown_meta. rewrite Hmeta. cbn.
  repeat split; try done.
  - apply js_or_twice.
  - by rewrite Htotal, Hlen.
Qed.

(** *** The timers of the assemblies *)

Lemma timed_initial key : timed (initial key).
Proof. intros id n Hn. cbn in Hn. by rewrite lookup_empty in Hn. Qed.

Lemma timed_step c e : timed c -> timed (step c e).
Proof.
  intros Htimed. destruct e as [payload|t|r|ms].
  - generalize (step_Receive payload c). generalize (step c (Receive payload)).
    intros c' [| id T i Hid HT Hi Hrng Hmap Hbig
               | id T i n st Hid HT Hi Hrng Hmap Hst Htot Hslot
               | id T i Hid HT Hi Hrng Hmap Hsmall]; try done.
    intros id' n Hn. cbn in Hn |- *. rewrite lookup_insert in Hn.
    case_decide as Hsame.
    + injection Hn as <-. subst id'. rewrite lookup_insert_eq. by eexists.
    + rewrite lookup_insert_ne by congruence. by apply Htimed.
  - generalize (step_Settle t c). generalize (step c (Settle t)).
    intros c' [Hnone | task Ht Hfail | task bytes Ht Hsettled Hlost
               | task bytes st Ht Hsettled Hst Hmore
               | task bytes st merged Ht Hsettled Hst Hfull Hmerge
               | task bytes st e Ht Hsettled Hst Hfull Hmerge]; try done.
    + intros id n Hn. cbn in Hn |- *. apply lookup_delete_Some in Hn as [_ Hn].
      by apply Htimed.
    + intros id n Hn. cbn in Hn |- *. apply lookup_delete_Some in Hn as [Hother Hn].
      rewrite lookup_delete_ne by congruence. by apply Htimed.
    + intros id n Hn. cbn in Hn |- *. apply lookup_delete_Some in Hn as [Hother Hn].
      rewrite lookup_delete_ne by congruence. by apply Htimed.
  - cbn. unfold expire. destruct (timers c !! r) as [deadline|]; [|done].
    case_match; [|done].
    intros id n Hn. cbn in Hn |- *. apply lookup_delete_Some in Hn as [Hother Hn].
    rewrite lookup_delete_ne by (destruct r; cbn in Hother; congruence). by apply Htimed.
  - intros id n Hn. cbn in Hn |- *. destruct (Htimed _ _ Hn) as (deadline & Htimer & Hdue).
    exists deadline. split; [done|]. lia.
Qed.

Lemma timed_run events : forall c, timed c -> timed (run c events).
Proof.
  induction events as [|e events IH]; intros c Htimed; [done|].
  cbn. apply IH. by apply timed_step.
Qed.

(** X9: whatever was received, an assembly that is in the map has its
    timer pending, due at most [CHUNK_TTL] = 120000 ms from now; and once
    that long has passed its timer, when it runs, takes the assembly out of
    the map. No assembly stays for ever. *)
Theorem assemblies_are_collected :
  forall (key : option CryptoKey) (events : list Event) (id : jsstring) (n : nat),
    let c := run (initial key) events in
    incomingChunks c !! id = Some n ->
    exists deadline,
      timers c !! (id, n) = Some deadline /\
      deadline <= clock c + CHUNK_TTL /\ CHUNK_TTL = 120000 /\
      forall ms, deadline <= clock c + ms ->
        incomingChunks (run c [Elapse ms; Expire (id, n)]) !! id = None.
Proof.
  intros key events id n. cbv zeta.
  pose proof (timed_run events (initial key) (timed_initial key)) as Htimed.
  revert Htimed. generalize (run (initial key) events). intros c Htimed Hn.
  destruct (Htimed id n Hn) as (deadline & Htimer & Hdue).
  exists deadline. split; [done|]. split; [done|]. split; [done|].
  intros ms Hms. cbn. unfold expire. cbn. rewrite Htimer.
  destruct (Z.leb_spec deadline (clock c + Z.max 0 ms)) as [_|Hearly]; [|lia].
  cbn. apply lookup_delete_eq.
Qed.

(** *** A file sent in chunks, end to end *)

Lemma chunk_loop_fields id sender key bytes fm time total_ :
  forall n index draw sent outcome,
    chunk_loop n index total_ id sender key draw bytes fm time = (sent, outcome) ->
    forall p, p ∈ sent ->
      p_name p = JString (f_name fm) /\ p_mime p = JString (f_mime fm) /\
      p_size p = JNumber (f_size fm) /\ p_time p = JNumber time.
Proof.
  induction n as [|n IH]; intros index draw sent outcome Hloop p Hp; cbn in Hloop.
  - injection Hloop as <- _. by apply not_elem_of_nil in Hp.
  - destruct (encryptBytes key draw _) as [encrypted|e]; cycle 1.
    { injection Hloop as <- _. by apply not_elem_of_nil in Hp. }
    destruct (chunk_loop n (index + 1) total_ id sender key (S draw) bytes fm time)
      as [rest outcome'] eqn:Hrest.
    injection Hloop as <- _. apply elem_of_cons in Hp as [->|Hp]; [done|].
    by eapply IH.
Qed.

Lemma truthy_js_or a b : truthy a = true -> js_or a b = a.
Proof. intros Ha. unfold js_or. by rewrite Ha. Qed.

(** *** Before the timers are due *)

Lemma untimed_Receive c c' p :
  truthy (p_time p) = true -> untimed c = untimed c' ->
  untimed (step c (Receive p)) = untimed (step c' (Receive p)).
Proof.
  intros Htime Hsame.
  destruct c as [k ic ob tm su ns nt cl ms rj], c' as [k' ic' ob' tm' su' ns' nt' cl' ms' rj'].
  unfold untimed in Hsame. cbn in Hsame.
  injection Hsame as -> -> -> -> -> -> -> ->.
  cbn [step]. unfold handleFileChunk. cbn [incomingChunks].
  destruct (p_id p) as [| | | | |id] eqn:Hid; try reflexivity.
  destruct (isInteger (p_total p)) as [T|] eqn:HT; [|reflexivity].
  destruct (T <=? 0) eqn:Hpos; [reflexivity|].
  destruct (isInteger (p_index p)) as [j|]; [|reflexivity].
  destruct ((j <? 0) || (j >=? T)); [reflexivity|].
  destruct (ic' !! id) as [n|] eqn:Hmap; cbn [bind].
  - cbn [objects]. destruct (ob' !! (id, n)) as [st|]; [|reflexivity].
    case_bool_decide; [reflexivity|].
    destruct (slot_filled (Z.to_nat j) (chunks st)); reflexivity.
  - unfold createChunkState. rewrite Hid, HT, Hpos.
    destruct (new_Array T) as [slots|e]; cbn [bind]; [|reflexivity].
    cbn [objects next_serial clock]. rewrite !lookup_insert_eq.
    rewrite !(truthy_js_or _ _ Htime). cbn [total chunks].
    case_bool_decide; [reflexivity|].
    destruct (slot_filled (Z.to_nat j) slots); reflexivity.
Qed.

Lemma untimed_Settle c c' t :
  untimed c = untimed c' -> untimed (step c (Settle t)) = untimed (step c' (Settle t)).
Proof.
  intros Hsame.
  destruct c as [k ic ob tm su ns nt cl ms rj], c' as [k' ic' ob' tm' su' ns' nt' cl' ms' rj'].
  unfold untimed in Hsame. cbn in Hsame.
  injection Hsame as -> -> -> -> -> -> -> ->.
  cbn [step]. unfold resume. cbn [suspended].
  destruct (su' !! t) as [task|]; [|reflexivity]. cbv zeta.
  destruct (t_settled task) as [bytes|]; [|reflexivity].
  cbn [objects upd_suspended].
  destruct (ob' !! (t_id task, t_state task)) as [st|]; [|reflexivity].
  case_bool_decide; [reflexivity|].
  destruct (array_some _ _); [reflexivity|].
  destruct (merge _); reflexivity.
Qed.

Lemma early_initial key : early (initial key).
Proof. split; cbn; [done|]. intros r deadline H. by rewrite lookup_empty in H. Qed.

Lemma clock_step c e :
  clock (step c e) = clock c + match e with Elapse ms => Z.max 0 ms | _ => 0 end.
Proof.
  destruct e as [payload|t|r|ms].
  - generalize (step_Receive payload c). generalize (step c (Receive payload)).
    intros c' []; cbn; lia.
  - generalize (step_Settle t c). generalize (step c (Settle t)).
    intros c' []; cbn; lia.
  - cbn. unfold expire. destruct (timers c !! r); [|lia]. case_match; cbn; lia.
  - done.
Qed.

Lemma early_step c e : early c -> early (step c e).
Proof.
  intros [Hclock Htimers]. split; [rewrite clock_step; destruct e; lia|].
  destruct e as [payload|t|r|ms].
  - generalize (step_Receive payload c). generalize (step c (Receive payload)).
    intros c' [| | |id' T i _ _ _ _ _ _]; try done.
    intros r deadline. cbn. rewrite lookup_insert. case_decide; [|by apply Htimers].
    intros [= <-]. lia.
  - generalize (step_Settle t c). generalize (step c (Settle t)).
    intros c' []; try done; intros r deadline; cbn; intros Hr;
      apply lookup_delete_Some in Hr as [_ Hr]; by eapply Htimers.
  - cbn. unfold expire. destruct (timers c !! r) eqn:Hr; [|done]. case_match; [|done].
    intros r' deadline. cbn. intros Hr'.
    apply lookup_delete_Some in Hr' as [_ Hr']. by eapply Htimers.
  - done.
Qed.

Lemma elapsed_nonneg events : 0 <= elapsed events.
Proof. unfold elapsed. induction events as [|[] events IH]; cbn [foldr]; lia. Qed.

(** Before [CHUNK_TTL] has passed no timer runs: the run goes as its calls
    of the handler alone, the clock and the timers apart. *)
Lemma untimed_run events :
  (forall p, p ∈ receives events -> truthy (p_time p) = true) ->
  forall c c', untimed c = untimed c' -> early c ->
    clock c + elapsed events < CHUNK_TTL ->
    untimed (run c events) = untimed (run c' (handlers events)).
Proof.
  induction events as [|e events IH]; intros Htimes c c' Hsame Hearly Hshort; [done|].
  assert (Hrest : forall p, p ∈ receives events -> truthy (p_time p) = true).
  { intros p Hp. destruct e; try (by apply Htimes). apply Htimes.
    rewrite receives_cons_Receive. by right. }
  pose proof (early_step c e Hearly) as Hearly'.
  pose proof (clock_step c e) as Hclock.
  cbn [run foldl]. fold (run (step c e) events).
  destruct e as [payload|t|r|ms].
  - change (handlers (Receive payload :: events))
      with (Receive payload :: handlers events).
    change (elapsed (Receive payload :: events)) with (elapsed events) in Hshort.
    cbn [run foldl]. fold (run (step c' (Receive payload)) (handlers events)).
    apply IH; [done| |done|lia].
    apply untimed_Receive; [|done]. apply Htimes. rewrite receives_cons_Receive. by left.
  - change (handlers (Settle t :: events)) with (Settle t :: handlers events).
    change (elapsed (Settle t :: events)) with (elapsed events) in Hshort.
    cbn [run foldl]. fold (run (step c' (Settle t)) (handlers events)).
    apply IH; [done| |done|lia]. by apply untimed_Settle.
  - change (handlers (Expire r :: events)) with (handlers events).
    change (elapsed (Expire r :: events)) with (elapsed events) in Hshort.
    apply IH; [done| |done|lia].
    rewrite <- Hsame. f_equal. cbn. unfold expire.
    destruct (timers c !! r) as [deadline|] eqn:Hr; [|done].
    destruct Hearly as [Hpos Hlate]. apply Hlate in Hr.
    pose proof (elapsed_nonneg events).
    destruct (Z.leb_spec deadline (clock c)); [lia|done].
  - change (handlers (Elapse ms :: events)) with (handlers events).
    change (elapsed (Elapse ms :: events)) with (Z.max 0 ms + elapsed events) in Hshort.
    apply IH; [done|done|done|lia].
Qed.

Lemma receives_handlers events : receives (handlers events) = receives events.
Proof.
  induction events as [|[] events IH]; [done|..].
  - change (handlers (Receive payload :: events)) with (Receive payload :: handlers events).
    by rewrite !receives_cons_Receive, IH.
  - exact IH.
  - exact IH.
  - exact IH.
Qed.

Lemma handlers_handler events : Forall handler_event (handlers events).
Proof.
  induction events as [|[] events IH]; [done|..]; try exact IH;
    by apply Forall_cons_2.
Qed.

(** The chunk frames of a file, handed to the handler with nothing but its
    calls in between. *)
Lemma large_file_assembles :
  cipher_round_trip -> base64_round_trip ->
  forall (sender roomId : jsstring) (key : CryptoKey) (draw : nat) (bytes : list byte)
         (name type : jsstring) (time : Z),
    MAX_CHUNK_BYTES < Z.of_nat (length bytes) <= MAX_FILE_BYTES ->
    roomId ≠ [] -> time ≠ 0 ->
    exists frames,
      sendFile sender (Some key) roomId true draw bytes name type time
        = inr (frames, Normal tt) /\
      (2 <= length frames <= 22)%nat /\
      (forall p, p ∈ frames -> p_time p = JNumber time) /\
      forall events,
        receives events ≡ₚ frames -> Forall handler_event events ->
        suspended (run (initial (Some key)) events) = ∅ ->
        messagesEl (run (initial (Some key)) events) =
          [FileShown (randomUUID draw, 0%nat)
             {| m_name := JString (if bool_decide (name = []) then default_name else name);
                m_mime := JString (if bool_decide (type = [])
                                   then lit "application/octet-stream" else type);
                m_size := JNumber (Z.of_nat (length bytes));
                m_time := JNumber time |}
             bytes].
Proof.
  intros Hcipher Hb64 sender roomId key draw bytes name type time Hsize Hroom Htime.
  set (fm := {| f_name := if bool_decide (name = []) then default_name else name;
                f_mime := if bool_decide (type = []) then lit "application/octet-stream"
                          else type;
                f_size := Z.of_nat (length bytes) |}).
  set (total_ := ceil_div (Z.of_nat (length bytes)) MAX_CHUNK_BYTES).
  assert (Hceil := ceil_div_chunks (Z.of_nat (length bytes))).
  cbv zeta in Hceil. fold total_ in Hceil.
  unfold MAX_CHUNK_BYTES, MAX_FILE_BYTES in Hsize, Hceil.
  assert (Htotal : 2 <= total_ <= 22) by lia.
  destruct (chunk_loop_sent Hcipher Hb64 key (randomUUID draw) sender bytes fm time total_
              (Z.to_nat total_) 0 (S draw)) as (frames & Hloop & Hlen & Hall).
  exists frames. split; [|split; [lia|split]].
  { unfold sendFile.
    destruct (Z.gtb_spec (Z.of_nat (length bytes)) MAX_FILE_BYTES) as [Hbig|_];
      [unfold MAX_FILE_BYTES in Hbig; lia|].
    rewrite bool_decide_eq_true_2 by by eexists.
    rewrite bool_decide_eq_false_2 by done. cbn [negb orb].
    destruct (Z.leb_spec (Z.of_nat (length bytes)) MAX_CHUNK_BYTES) as [Hsmall|_];
      [unfold MAX_CHUNK_BYTES in Hsmall; lia|].
    unfold sendFileInChunks. fold fm. fold total_. by rewrite Hloop. }
  { intros p Hp.
    by destruct (chunk_loop_fields _ _ _ _ _ _ _ _ _ _ _ _ Hloop p Hp) as (_ & _ & _ & Htm). }
  intros events Hperm Hevents Hidle.
  set (plains := chunk_slice bytes <$> (Z.of_nat <$> seq 0 (length frames))).
  assert (Hconcat : concat plains = bytes).
  { unfold plains. rewrite slices_take, Hlen. apply take_ge.
    unfold MAX_CHUNK_BYTES in *. lia. }
  assert (Hfamily : forall j p, frames !! j = Some p ->
            p_id p = JString (randomUUID draw) /\ p_index p = JNumber (Z.of_nat j) /\
            p_total p = JNumber total_ /\
            exists plain, plains !! j = Some plain /\
                          decrypt_or_null (Some key) p = Some plain).
  { intros j p Hp. destruct (Hall _ _ Hp) as (Hid & Hindex & Htot & Hplain).
    rewrite Z.add_0_l in Hindex, Hplain. repeat split; try done.
    exists (chunk_slice bytes (Z.of_nat j)). split; [|done].
    unfold plains. rewrite !list_lookup_fmap, lookup_seq_lt; [done|].
    by eapply lookup_lt_Some. }
  assert (Hplains : length plains = Z.to_nat total_).
  { unfold plains. by rewrite !length_fmap, length_seq. }
  destruct (reassembled (Some key) (randomUUID draw) total_ plains frames
              ltac:(lia) Hlen Hplains Hfamily events Hevents Hperm Hidle) as [m Hshown].
  rewrite Hshown, Hconcat. do 2 f_equal.
  assert (Hin : FileShown (randomUUID draw, 0%nat) m (concat plains)
                  ∈ messagesEl (run (initial (Some key)) events)).
  { rewrite Hshown. apply list_elem_of_here. }
  destruct (genuine_shown _ _ _ (genuine_run (Some key) events) _ _ _ _ Hin)
    as (st & _ & (p & now & Hp & _ & _ & Hmeta) & -> & _).
  rewrite Hperm in Hp.
  destruct (chunk_loop_fields _ _ _ _ _ _ _ _ _ _ _ _ Hloop p Hp)
    as (Hname & Hmime & Hsz & Htm).
  unfold shown_meta. rewrite Hmeta. unfold meta_of.
  rewrite Hname, Hmime, Hsz, Htm. cbn [m_name m_mime m_size m_time].
  rewrite js_or_twice.
  rewrite !truthy_js_or; [done| | | |].
  - cbn. by destruct (Z.eqb_spec time 0).
  - cbn. destruct (Z.eqb_spec (Z.of_nat (length bytes)) 0); [lia|done].
  - cbn. apply negb_true_iff, bool_decide_eq_false_2. by case_bool_decide.
  - cbn. apply negb_true_iff, bool_decide_eq_false_2. by case_bool_decide.
Qed.

(** X10: a file of more than one chunk and at most 5 MB, sent by
    [sendFile] under a key, a room and an open connection, at a time that
    is not 0, goes out as 2 to 22 chunk frames; and a page with the same
    key that is handed each frame once, in any order, with the decryptions
    settling in any order, the clock advancing and timers running in
    between, shows, once no call is suspended, exactly one file, provided
    less than [CHUNK_TTL] = 120,000 ms pass in all: the bytes that were
    sent, under the name, type and size the sender gave (with the sender's
    fallbacks for an empty name or type), and the sender's time. *)
Theorem large_file_arrives :
  cipher_round_trip -> base64_round_trip ->
  forall (sender roomId : jsstring) (key : CryptoKey) (draw : nat) (bytes : list byte)
         (name type : jsstring) (time : Z),
    MAX_CHUNK_BYTES < Z.of_nat (length bytes) <= MAX_FILE_BYTES ->
    roomId ≠ [] -> time ≠ 0 ->
    exists frames,
      sendFile sender (Some key) roomId true draw bytes name type time
        = inr (frames, Normal tt) /\
      (2 <= length frames <= 22)%nat /\
      forall events,
        receives events ≡ₚ frames -> elapsed events < CHUNK_TTL ->
        suspended (run (initial (Some key)) events) = ∅ ->
        messagesEl (run (initial (Some key)) events) =
          [FileShown (randomUUID draw, 0%nat)
             {| m_name := JString (if bool_decide (name = []) then default_name else name);
                m_mime := JString (if bool_decide (type = [])
                                   then lit "application/octet-stream" else type);
                m_size := JNumber (Z.of_nat (length bytes));
                m_time := JNumber time |}
             bytes].
Proof.
  intros Hcipher Hb64 sender roomId key draw bytes name type time Hsize Hroom Htime.
  destruct (large_file_assembles Hcipher Hb64 sender roomId key draw bytes name type time
              Hsize Hroom Htime) as (frames & Hsend & Hlen & Htimes & Hshown).
  exists frames. split; [done|]. split; [done|].
  intros events Hperm Hshort Hidle.
  assert (Hsame : untimed (run (initial (Some key)) events)
                    = untimed (run (initial (Some key)) (handlers events))).
  { apply untimed_run; [|done|apply early_initial|cbn [initial clock]; lia].
    intros p Hp. rewrite Hperm in Hp. rewrite (Htimes p Hp). cbn.
    by destruct (Z.eqb_spec time 0). }
  pose proof (f_equal messagesEl Hsame) as Hmessages.
  pose proof (f_equal suspended Hsame) as Hcalls.
  cbn [untimed messagesEl suspended] in Hmessages, Hcalls.
  rewrite Hmessages. apply Hshown.
  - by rewrite receives_handlers.
  - apply handlers_handler.
  - by rewrite <- Hcalls.
Qed.

End Provenance.

Section ProvenanceSamples.
Import Sample.
#[local] Existing Instance sample_platform.

Lemma whole_run_shows :
  messagesEl (run (initial (Some sample_key)) whole_run) =
    [FileShown (lit "x", 0%nat)
       {| m_name := JString (lit "a.bin");
          m_mime := JString (lit "application/octet-stream");
          m_size := JNumber 3; m_time := JNumber 5 |} [x41; x42]].
Proof. vm_compute. reflexivity. Qed.

Lemma shown_file_is_genuine_witness :
  FileShown (lit "x", 0%nat)
    {| m_name := JString (lit "a.bin");
       m_mime := JString (lit "application/octet-stream");
       m_size := JNumber 3; m_time := JNumber 5 |} [x41; x42]
    ∈ messagesEl (run (initial (Some sample_key)) whole_run) /\
  exists p now plains,
    p ∈ receives whole_run /\ p_id p = JString (lit "x") /\
    JString (lit "a.bin") = js_or (p_name p) (JString default_name) /\
    JString (lit "application/octet-stream")
      = js_or (p_mime p) (JString (lit "application/octet-stream")) /\
    JNumber 3 = js_or (p_size p) (JNumber 0) /\
    JNumber 5 = js_or (p_time p) (JNumber now) /\
    p_total p = JNumber (Z.of_nat (length plains)) /\
    [x41; x42] = concat plains /\
    forall j plain, plains !! j = Some plain ->
      exists q, q ∈ receives whole_run /\ p_id q = JString (lit "x") /\
                p_index q = JNumber (Z.of_nat j) /\
                decrypt_or_null (Some sample_key) q = Some plain.
Proof.
  assert (Hin : FileShown (lit "x", 0%nat)
                  {| m_name := JString (lit "a.bin");
                     m_mime := JString (lit "application/octet-stream");
                     m_size := JNumber 3; m_time := JNumber 5 |} [x41; x42]
                  ∈ messagesEl (run (initial (Some sample_key)) whole_run)).
  { rewrite whole_run_shows. apply list_elem_of_here. }
  split; [exact Hin|].
  exact (shown_file_is_genuine (Some sample_key) whole_run (lit "x") 0%nat _ _ Hin).
Defined.

Lemma assemblies_are_collected_witness :
  incomingChunks (run (initial (Some sample_key)) [Receive (sample_chunk 0 3 7 65)])
    !! lit "x" = Some 0%nat /\
  exists deadline,
    timers (run (initial (Some sample_key)) [Receive (sample_chunk 0 3 7 65)])
      !! (lit "x", 0%nat) = Some deadline /\
    deadline <= clock (run (initial (Some sample_key)) [Receive (sample_chunk 0 3 7 65)])
                + CHUNK_TTL /\
    CHUNK_TTL = 120000 /\
    forall ms,
      deadline <= clock (run (initial (Some sample_key)) [Receive (sample_chunk 0 3 7 65)])
                  + ms ->
      incomingChunks
        (run (run (initial (Some sample_key)) [Receive (sample_chunk 0 3 7 65)])
           [Elapse ms; Expire (lit "x", 0%nat)]) !! lit "x" = None.
Proof.
  assert (Hn : incomingChunks
                 (run (initial (Some sample_key)) [Receive (sample_chunk 0 3 7 65)])
                 !! lit "x" = Some 0%nat) by (vm_compute; reflexivity).
  split; [exact Hn|].
  exact (assemblies_are_collected (Some sample_key) [Receive (sample_chunk 0 3 7 65)]
           (lit "x") 0%nat Hn).
Defined.

Lemma large_file_arrives_witness :
  (MAX_CHUNK_BYTES < Z.of_nat (length sample_file) <= MAX_FILE_BYTES) /\
  exists frames,
    sendFile (lit "me") (Some sample_key) (lit "room") true 0 sample_file
      (lit "a.bin") [] 5 = inr (frames, Normal tt) /\
    (2 <= length frames <= 22)%nat /\
    forall events,
      receives events ≡ₚ frames -> elapsed events < CHUNK_TTL ->
      suspended (run (initial (Some sample_key)) events) = ∅ ->
      messagesEl (run (initial (Some sample_key)) events) =
        [FileShown (randomUUID 0, 0%nat)
           {| m_name := JString (if bool_decide (lit "a.bin" = [])
                                 then default_name else lit "a.bin");
              m_mime := JString (if bool_decide (@nil N = [])
                                 then lit "application/octet-stream" else []);
              m_size := JNumber (Z.of_nat (length sample_file));
              m_time := JNumber 5 |}
           sample_file].
Proof.
  assert (Hsize : MAX_CHUNK_BYTES < Z.of_nat (length sample_file) <= MAX_FILE_BYTES).
  { unfold sample_file. rewrite length_replicate.
    unfold MAX_CHUNK_BYTES, MAX_FILE_BYTES. lia. }
  split; [exact Hsize|].
  apply (large_file_arrives sample_cipher_round_trip sample_base64_round_trip
           (lit "me") (lit "room") sample_key 0%nat sample_file (lit "a.bin") [] 5 Hsize);
    discriminate.
Defined.

Lemma consistent_in_calm_runs_witness :
  calm (initial (Some sample_key))
    [Receive (sample_chunk 1 3 7 66); Settle 0; Receive (sample_chunk 0 3 7 65)] /\
  consistent
    (run (initial (Some sample_key))
       [Receive (sample_chunk 1 3 7 66); Settle 0; Receive (sample_chunk 0 3 7 65)]).
Proof.
  assert (Hcalm : calm (initial (Some sample_key))
                    [Receive (sample_chunk 1 3 7 66); Settle 0;
                     Receive (sample_chunk 0 3 7 65)]).
  { cbn [calm]. repeat split.
    - intros (t & task & Ht & _). vm_compute in Ht. discriminate.
    - intros (t & task & Ht & _). vm_compute in Ht. discriminate. }
  split; [exact Hcalm|].
  exact (consistent_in_calm_runs (Some sample_key) _ Hcalm).
Defined.

End ProvenanceSamples.

(** ** The passphrase in force *)

Section Versions.
Context {platform : WebPlatform}.
Hypothesis Hdigest : digest_is_256_bits.

Lemma deriveKey_succeeds password :
  deriveKey password = Normal {| raw := digest_SHA256 (TextEncoder_encode password) |}.
Proof. unfold deriveKey. by apply importKey_256. Qed.

Lemma hashRoomId_not_empty password : hashRoomId password ≠ [].
Proof.
  unfold hashRoomId. intros Hempty.
  destruct (bytesToHex_shape (digest_SHA256 (TextEncoder_encode password))) as [Hlen _].
  rewrite Hempty, Hdigest in Hlen. done.
Qed.

Lemma applied_snoc events e :
  applied (events ++ [e]) =
    applied events ++ match e with Page.Apply typed => [typed] | _ => [] end.
Proof. unfold applied. rewrite omap_app. by destruct e. Qed.

Lemma versioned_start : versioned None Page.start.
Proof.
  split; done.
Qed.

Lemma versioned_Apply last_raw k typed :
  versioned last_raw k -> versioned (Some typed) (Page.applyPassword typed k).
Proof.
  intros [Hnone Hpassword Hcalls Hsettled]. unfold Page.applyPassword. cbv zeta.
  destruct (bool_decide (normalizePassword typed = Page.currentPassword k)
            && bool_decide (is_Some (Page.cryptoKey k))
            && negb (bool_decide (Page.currentRoomId k = []))) eqn:Hguard.
  - apply andb_true_iff in Hguard as [Hguard _].
    apply andb_true_iff in Hguard as [Hsame Hkey].
    apply bool_decide_eq_true in Hsame. apply bool_decide_eq_true in Hkey.
    destruct last_raw as [before|].
    + split.
      * done.
      * intros typed' [= <-]. destruct (Hpassword before eq_refl) as [Hcurrent Hstored].
        split; [done|]. by rewrite Hsame, Hstored, Hcurrent.
      * done.
      * intros Hquiet _. by apply Hsettled.
    + rewrite (Hnone eq_refl) in Hkey. by destruct Hkey.
  - split; cbn.
    + done.
    + by intros typed' [= <-].
    + intros t call Ht. rewrite lookup_insert in Ht. case_decide.
      * injection Ht as <-. cbn. split; [lia|]. done.
      * destruct (Hcalls _ _ Ht) as [Hle _]. split; [lia|]. lia.
    + intros Hquiet. destruct Hquiet.
      exists (Page.next_call k). eexists. cbn. split; [apply lookup_insert_eq|done].
Qed.

Lemma versioned_Derived last_raw k t :
  versioned last_raw k -> versioned last_raw (Page.proceed t k).
Proof.
  intros Hversioned. pose proof Hversioned as [Hnone Hpassword Hcalls Hsettled].
  unfold Page.proceed. destruct (Page.applying k !! t) as [call|] eqn:Ht; [|done].
  cbv zeta. destruct (Hcalls _ _ Ht) as [Hle Hcurrent].
  assert (Hrest : forall t' call', delete t (Page.applying k) !! t' = Some call' ->
            Page.applying k !! t' = Some call').
  { intros t' call' Ht'. by apply lookup_delete_Some in Ht' as [_ Ht']. }
  assert (Hsome : last_raw ≠ None).
  { intros ->. rewrite (Hnone eq_refl) in Ht. cbn in Ht. by rewrite lookup_empty in Ht. }
  (* A call that finds a newer version ends without a trace. *)
  assert (Hstale : Page.a_version call ≠ Page.passwordVersion k ->
            forall k',
              Page.cryptoKey k' = Page.cryptoKey k ->
              Page.currentRoomId k' = Page.currentRoomId k ->
              Page.currentPassword k' = Page.currentPassword k ->
              Page.passwordVersion k' = Page.passwordVersion k ->
              Page.storedPassword k' = Page.storedPassword k ->
              Page.loaded k' = Page.loaded k -> Page.connected k' = Page.connected k ->
              Page.applying k' = delete t (Page.applying k) ->
              versioned last_raw k').
  { intros Hold k' Hkey Hroom Hpw Hversion Hstored Hloaded Hconnected Happlying.
    assert (Hkeyed : keyed k -> keyed k').
    { intros (key & Hk & Hderived). exists key. by rewrite Hkey, Hpw. }
    split.
    - done.
    - rewrite Hpw, Hstored. apply Hpassword.
    - rewrite Happlying, Hversion, Hpw. intros t' call' Ht'.
      destruct (Hcalls _ _ (Hrest _ _ Ht')) as [Hle' Hcurrent']. split; [done|].
      intros Heq. destruct (Hcurrent' Heq) as [Hp Hstage]. split; [done|].
      intros Hs. by apply Hkeyed, Hstage.
    - intros Hquiet _. rewrite Hroom, Hpw, Hloaded, Hconnected.
      destruct Hsettled as (Hk & Hrest'); [|done|by split; [apply Hkeyed|]].
      intros (t' & call' & Ht' & Hlatest). apply Hquiet.
      exists t', call'. rewrite Happlying, Hversion. split; [|done].
      apply lookup_delete_Some. split; [|done]. intros <-. congruence. }
  destruct (Page.a_stage call) eqn:Hstage.
  - rewrite deriveKey_succeeds. case_bool_decide as Hversion.
    + by apply Hstale.
    + destruct (Hcurrent Hversion) as [Hpw _].
      assert (Hkeyed : forall k', Page.cryptoKey k' =
                          Some {| raw := digest_SHA256
                                           (TextEncoder_encode (Page.a_password call)) |} ->
                        Page.currentPassword k' = Page.currentPassword k -> keyed k').
      { intros k' Hk Hp. eexists. split; [done|]. by rewrite Hp, <- Hpw, deriveKey_succeeds. }
      split; cbn.
      * done.
      * done.
      * intros t' call' Ht'. rewrite lookup_insert in Ht'. case_decide.
        -- injection Ht' as <-. cbn. split; [lia|]. intros _. split; [done|].
           intros _. by apply Hkeyed.
        -- destruct (Hcalls _ _ (Hrest _ _ Ht')) as [Hle' Hcurrent']. split; [done|].
           intros Heq. destruct (Hcurrent' Heq) as [Hp _]. split; [done|].
           intros _. by apply Hkeyed.
      * intros Hquiet. destruct Hquiet. exists t. eexists. cbn.
        split; [apply lookup_insert_eq|done].
  - case_bool_decide as Hversion.
    + by apply Hstale.
    + destruct (Hcurrent Hversion) as [Hpw Hkeyed]. specialize (Hkeyed eq_refl).
      assert (Hkeyed' : forall k', Page.cryptoKey k' = Page.cryptoKey k ->
                          Page.currentPassword k' = Page.currentPassword k -> keyed k').
      { intros k' Hk Hp. destruct Hkeyed as (key & Hkey & Hderived).
        exists key. by rewrite Hk, Hp. }
      split; cbn.
      * done.
      * done.
      * intros t' call' Ht'.
        destruct (Hcalls _ _ (Hrest _ _ Ht')) as [Hle' Hcurrent']. split; [done|].
        intros Heq. destruct (Hcurrent' Heq) as [Hp _]. split; [done|].
        intros _. by apply Hkeyed'.
      * intros _ _. split; [by apply Hkeyed'|]. rewrite Hpw. split; [done|].
        rewrite bool_decide_eq_false_2 by apply hashRoomId_not_empty.
        by rewrite !last_snoc.
Qed.

Lemma versioned_run events :
  versioned (list.last (applied events)) (Page.key_run Page.start events).
Proof.
  induction events as [|e events IH] using rev_ind.
  - apply versioned_start.
  - unfold Page.key_run. rewrite foldl_app. cbn [foldl]. rewrite applied_snoc.
    destruct e as [typed|t]; cbn [Page.key_step].
    + rewrite last_snoc. by eapply versioned_Apply.
    + rewrite app_nil_r. by apply versioned_Derived.
Qed.

Lemma failures_run events : Page.failures (Page.key_run Page.start events) = [].
Proof.
  induction events as [|e events IH] using rev_ind; [done|].
  unfold Page.key_run in *. rewrite foldl_app. cbn [foldl].
  destruct e as [typed|t]; cbn [Page.key_step].
  - unfold Page.applyPassword. cbv zeta. by case_match.
  - unfold Page.proceed. destruct (Page.applying _ !! t) as [call|]; [|done].
    cbv zeta. destruct (Page.a_stage call).
    + rewrite deriveKey_succeeds. by case_bool_decide.
    + by case_bool_decide.
Qed.

End Versions.

Section VersionsStated.
Context {platform : WebPlatform}.

(** X12: however the calls of [applyPassword] and the settling of their
    derivations interleave, the passphrase in force, and the one in
    storage, is the last one applied, normalized; and as soon as the call
    made for it is no longer suspended, the key is the one derived from it,
    the room is its fingerprint, and the last history loaded and the last
    connection opened are that room's: a derivation that settles late never
    overwrites a newer one. No derivation fails. Assumes a 256-bit digest. *)
Theorem last_passphrase_wins :
  digest_is_256_bits ->
  forall (events : list Page.KeyEvent) (typed : option jsstring),
    list.last (applied events) = Some typed ->
    let k := Page.key_run Page.start events in
    let password := normalizePassword typed in
    Page.currentPassword k = password /\
    Page.storedPassword k = Some password /\
    Page.failures k = [] /\
    (~ pending k ->
       Page.cryptoKey k = Some {| raw := digest_SHA256 (TextEncoder_encode password) |} /\
       Page.currentRoomId k = hashRoomId password /\
       list.last (Page.loaded k) = Some (hashRoomId password) /\
       list.last (Page.connected k) = Some (hashRoomId password)).
Proof.
  intros Hdigest events typed Hlast. cbv zeta.
  pose proof (versioned_run Hdigest events) as [_ Hpassword _ Hsettled].
  rewrite Hlast in Hpassword, Hsettled.
  destruct (Hpassword typed eq_refl) as [Hcurrent Hstored].
  split; [done|]. split; [done|]. split; [by apply failures_run|].
  intros Hquiet.
  destruct (Hsettled Hquiet) as ((key & Hkey & Hderived) & Hroom & Hconnected & Hloaded);
    [done|].
  rewrite Hcurrent in *. rewrite (deriveKey_succeeds Hdigest) in Hderived.
  injection Hderived as <-. done.
Qed.

End VersionsStated.

Section VersionsSample.
Import Sample.
#[local] Existing Instance sample_platform.

Lemma last_passphrase_wins_witness :
  let events := [Page.Apply (Some (lit " a ")); Page.Apply (Some (lit "b"));
                 Page.Derived 0; Page.Derived 1; Page.Derived 1] in
  let k := Page.key_run Page.start events in
  list.last (applied events) = Some (Some (lit "b")) /\
  ~ pending k /\
  Page.currentPassword k = normalizePassword (Some (lit "b")) /\
  Page.storedPassword k = Some (normalizePassword (Some (lit "b"))) /\
  Page.failures k = [] /\
  (~ pending k ->
     Page.cryptoKey k =
       Some {| raw := digest_SHA256
                        (TextEncoder_encode (normalizePassword (Some (lit "b")))) |} /\
     Page.currentRoomId k = hashRoomId (normalizePassword (Some (lit "b"))) /\
     list.last (Page.loaded k) = Some (hashRoomId (normalizePassword (Some (lit "b")))) /\
     list.last (Page.connected k)
       = Some (hashRoomId (normalizePassword (Some (lit "b"))))).
Proof.
  cbv zeta. split; [reflexivity|]. split.
  { intros (t & call & Ht & _). vm_compute in Ht. discriminate. }
  exact (last_passphrase_wins sample_digest_256
           [Page.Apply (Some (lit " a ")); Page.Apply (Some (lit "b"));
            Page.Derived 0; Page.Derived 1; Page.Derived 1]
           (Some (lit "b")) eq_refl).
Defined.

End VersionsSample.

(** ** Sizes as the page writes them *)

Section Sizes.

Lemma scale_small bytes : bytes < 1024 -> Page.scale 2 bytes 1 0 = (bytes, 1, 0%nat).
Proof.
  intros Hsmall. cbn [Page.scale]. by rewrite (proj2 (Z.leb_gt _ _)) by lia.
Qed.

Lemma scale_kilo bytes :
  1024 <= bytes < 1024 * 1024 -> Page.scale 2 bytes 1 0 = (bytes, 1024, 1%nat).
Proof.
  intros Hkilo. cbn [Page.scale].
  rewrite (proj2 (Z.leb_le _ _)) by lia. cbn [andb Nat.ltb Nat.leb Page.units length Nat.sub].
  by rewrite (proj2 (Z.leb_gt _ _)) by lia.
Qed.

Lemma scale_mega bytes :
  1024 * 1024 <= bytes -> Page.scale 2 bytes 1 0 = (bytes, 1024 * 1024, 2%nat).
Proof.
  intros Hmega. cbn [Page.scale].
  rewrite (proj2 (Z.leb_le _ _)) by lia. cbn [andb Nat.ltb Nat.leb Page.units length Nat.sub].
  by rewrite (proj2 (Z.leb_le _ _)) by lia.
Qed.

(** The integer that [toFixed] writes is within half a unit of the last
    place. *)
Lemma toFixed_positive num den f :
  0 < num -> 0 < den ->
  exists n, Page.toFixed num den f = Page.point f (Page.decimal (Z.to_N n)) /\
            0 <= n /\ Z.abs (n * den - num * 10 ^ Z.of_nat f) * 2 <= den.
Proof.
  intros Hnum Hden. unfold Page.toFixed. cbv zeta.
  rewrite (proj2 (Z.ltb_ge _ _)) by lia. rewrite Z.abs_eq by lia.
  set (scaled := num * 10 ^ Z.of_nat f).
  assert (Hscaled : 0 <= scaled) by (unfold scaled; apply Z.mul_nonneg_nonneg; lia).
  replace (2 * num * 10 ^ Z.of_nat f) with (2 * scaled) by (unfold scaled; lia).
  exists ((2 * scaled + den) / (2 * den)). split; [done|].
  pose proof (Z.div_mod (2 * scaled + den) (2 * den)) as Hdm.
  pose proof (Z.mod_pos_bound (2 * scaled + den) (2 * den)) as Hmod.
  split; [apply Z.div_pos; lia|]. lia.
Qed.

(** X13: [formatBytes] writes a positive whole number of bytes (below
    2^53) as a number and a unit: B below 1024, KB below 1024 * 1024, MB from
    there on, however large; the number has one decimal when the unit is not
    B and the size is below ten units, none otherwise; and it is the size in
    that unit rounded to that place, within half a unit of it, so a size in
    B is exact. Zero is written [0 B], and the limit of 5 MB [5.0 MB]. *)
Theorem formatBytes_rounds :
  forall bytes : Z,
    0 < bytes < 2 ^ 53 ->
    (exists (k f : nat) (n : Z),
       Page.formatBytes bytes =
         Page.point f (Page.decimal (Z.to_N n)) ++ lit " " ++ default [] (Page.units !! k) /\
       (k = 0%nat <-> bytes < 1024) /\
       (k = 1%nat <-> 1024 <= bytes < 1024 * 1024) /\
       (k = 2%nat <-> 1024 * 1024 <= bytes) /\
       (f = 1%nat <-> k ≠ 0%nat /\ bytes < 10 * 1024 ^ Z.of_nat k) /\
       (f = 0%nat <-> ~ (k ≠ 0%nat /\ bytes < 10 * 1024 ^ Z.of_nat k)) /\
       0 <= n /\
       Z.abs (n * 1024 ^ Z.of_nat k - bytes * 10 ^ Z.of_nat f) * 2 <= 1024 ^ Z.of_nat k /\
       (k = 0%nat -> n = bytes)) /\
    Page.formatBytes 0 = lit "0 B" /\
    Page.formatBytes MAX_FILE_BYTES = lit "5.0 MB".
Proof.
  intros bytes [Hpos _]. split; [|by split]. unfold Page.formatBytes.
  rewrite (proj2 (Z.eqb_neq bytes 0)) by lia.
  destruct (Z.lt_ge_cases bytes 1024) as [Hsmall|Hkilo].
  { rewrite scale_small by done.
    destruct (toFixed_positive bytes 1 0 Hpos ltac:(lia)) as (n & Hn & Hn0 & Hclose).
    rewrite orb_true_r, Hn. exists 0%nat, 0%nat, n. cbn in Hclose.
    repeat split; try done; try lia. }
  destruct (Z.lt_ge_cases bytes (1024 * 1024)) as [Hbelow|Hmega].
  - rewrite scale_kilo by lia. cbn [Nat.eqb orb].
    destruct (Z.leb_spec (10 * 1024) bytes) as [Hten|Hten]; cbn [orb].
    + destruct (toFixed_positive bytes 1024 0 Hpos ltac:(lia)) as (n & Hn & Hn0 & Hclose).
      rewrite Hn. exists 1%nat, 0%nat, n. cbn in Hclose |- *.
      repeat split; try done; try lia.
    + destruct (toFixed_positive bytes 1024 1 Hpos ltac:(lia)) as (n & Hn & Hn0 & Hclose).
      rewrite Hn. exists 1%nat, 1%nat, n. cbn in Hclose |- *.
      repeat split; try done; try lia.
  - rewrite scale_mega by lia. cbn [Nat.eqb orb].
    destruct (Z.leb_spec (10 * (1024 * 1024)) bytes) as [Hten|Hten]; cbn [orb].
    + destruct (toFixed_positive bytes (1024 * 1024) 0 Hpos ltac:(lia))
        as (n & Hn & Hn0 & Hclose).
      rewrite Hn. exists 2%nat, 0%nat, n. cbn in Hclose |- *.
      repeat split; try done; try lia.
    + destruct (toFixed_positive bytes (1024 * 1024) 1 Hpos ltac:(lia))
        as (n & Hn & Hn0 & Hclose).
      rewrite Hn. exists 2%nat, 1%nat, n. cbn in Hclose |- *.
      repeat split; try done; try lia.
Qed.

Lemma formatBytes_rounds_witness :
  0 < 1536 < 2 ^ 53 /\ Page.formatBytes 1536 = lit "1.5 KB" /\
  (exists (k f : nat) (n : Z),
     Page.formatBytes 1536 =
       Page.point f (Page.decimal (Z.to_N n)) ++ lit " " ++ default [] (Page.units !! k) /\
     (k = 0%nat <-> 1536 < 1024) /\
     (k = 1%nat <-> 1024 <= 1536 < 1024 * 1024) /\
     (k = 2%nat <-> 1024 * 1024 <= 1536) /\
     (f = 1%nat <-> k ≠ 0%nat /\ 1536 < 10 * 1024 ^ Z.of_nat k) /\
     (f = 0%nat <-> ~ (k ≠ 0%nat /\ 1536 < 10 * 1024 ^ Z.of_nat k)) /\
     0 <= n /\
     Z.abs (n * 1024 ^ Z.of_nat k - 1536 * 10 ^ Z.of_nat f) * 2 <= 1024 ^ Z.of_nat k /\
     (k = 0%nat -> n = 1536)) /\
  Page.formatBytes 0 = lit "0 B" /\
    Page.formatBytes MAX_FILE_BYTES = lit "5.0 MB".
Proof.
  split; [lia|]. split; [reflexivity|].
  apply (formatBytes_rounds 1536). lia.
Defined.

End Sizes.

(** ** Messages from page to page *)

Section Desks.
Context {platform : WebPlatform} {json : Page.JsonPlatform}.

Local Ltac desk :=
  cbn [Page.session Page.clientId Page.roomId Page.ws Page.outbox Page.messageInput
       Page.messageStore Page.localStorage Page.entries Page.notices Page.waiting
       Page.next_waiting Page.draws Page.rejected].

Lemma fromCharCode_not_empty bytes : bytes ≠ [] -> fromCharCode bytes ≠ [].
Proof. by destruct bytes. Qed.

Lemma encryptBytes_not_empty key draw plain encrypted :
  base64_not_empty -> nonce_length -> ciphertext_not_empty ->
  encryptBytes (Some key) draw plain = Normal encrypted ->
  e_iv encrypted ≠ [] /\ e_data encrypted ≠ [].
Proof.
  intros Hb64 Hnonce Htag. unfold encryptBytes. rewrite !bytesToBase64_binary.
  destruct (btoa (fromCharCode (getRandomValues draw 12))) as [iv64|] eqn:Hiv; [|done].
  cbn -[fromCharCode].
  destruct (btoa (fromCharCode (AES_GCM_encrypt key (getRandomValues draw 12) plain)))
    as [data64|] eqn:Hdata; [|done].
  cbn. intros [= <-]. cbn. split.
  - eapply Hb64; [|done]. apply fromCharCode_not_empty. intros Hnil.
    apply (f_equal length) in Hnil. by rewrite Hnonce in Hnil.
  - eapply Hb64; [|done]. apply fromCharCode_not_empty, Htag.
Qed.

Lemma code_units_trim s : code_units s -> code_units (trim s).
Proof.
  assert (Hstart : forall t, code_units t -> code_units (trim_start t)).
  { unfold code_units. intros t Ht. induction Ht as [|c t Hc Ht IH]; [done|]. cbn.
    destruct (is_white_space c); [done|]. by apply Forall_cons_2. }
  intros Hs. unfold trim, trim_end. apply Forall_rev, Hstart, Forall_rev, Hstart, Hs.
Qed.

Lemma trim_head s c : head (trim s) = Some c -> is_white_space c = false.
Proof.
  unfold trim. intros Hhead.
  destruct (trim_start_head s) as [Hnone|(c' & Hc' & Hplain)].
  - rewrite trim_end_head in Hhead by by left. congruence.
  - rewrite trim_end_head in Hhead by (right; by exists c'). congruence.
Qed.

Lemma toWellFormed_nil s : toWellFormed s = [] -> s = [].
Proof.
  destruct s as [|c rest]; [done|]. cbn [toWellFormed].
  destruct (is_high_surrogate c).
  - destruct rest as [|d rest']; [done|]. by destruct (is_low_surrogate d).
  - by destruct (is_low_surrogate c).
Qed.

(** A trimmed text is read back without loss of a byte order mark. *)
Lemma trimmed_round_trip s :
  code_units s ->
  TextDecoder_decode (TextEncoder_encode (trim s)) = toWellFormed (trim s).
Proof.
  intros Hunits. rewrite utf8_round_trip by by apply code_units_trim.
  destruct (toWellFormed (trim s)) as [|c t] eqn:Hwf; [done|].
  destruct (decide (c = 0xFEFF%N)) as [->|Hother].
  - destruct (toWellFormed_bom _ _ Hwf) as [s' Hs'].
    assert (Hwhite : is_white_space 0xFEFF = false) by (apply (trim_head s); by rewrite Hs').
    done.
  - unfold without_bom. destruct c as [|p]; [done|].
    repeat (destruct p as [p|p|]; try done).
Qed.

(** The four ways of a frame that [handleIncoming] does not drop. *)
Lemma handleIncoming_kept raw d payload :
  Page.JSON_parse raw = Some payload ->
  p_sender payload ≠ JString (Page.clientId d) ->
  p_data payload ≠ [] -> p_iv payload ≠ [] ->
  Page.handleIncoming raw d =
    let type := Page.payloadType payload in
    if bool_decide (type = lit "image_chunk" \/ type = lit "file_chunk") then
      Page.with_session (fun c => step c (Receive payload)) d
    else if bool_decide (type = lit "file" \/ type = lit "image") then
      Page.await (Page.IncomingFile payload type
                    (decrypt_or_null (cryptoKey (Page.session d)) payload)) d
    else if bool_decide (type ≠ [] /\ type ≠ lit "text") then
      Page.addTextMessage (Some Page.unknown_type) (p_time payload) false true d
    else
      Page.await (Page.IncomingText payload
                    (catch (decryptText (cryptoKey (Page.session d)) (p_iv payload)
                              (p_data payload)) None)) d.
Proof.
  intros Hparse Hsender Hdata Hiv. unfold Page.handleIncoming. rewrite Hparse.
  rewrite (bool_decide_eq_false_2 _ Hsender), (bool_decide_eq_false_2 _ Hdata),
    (bool_decide_eq_false_2 _ Hiv). cbn [orb]. cbv zeta.
  repeat case_bool_decide; cbn [orb andb negb]; try done; tauto.
Qed.

(** X14: a text typed on a page with a key, a room and an open socket is
    sent by [sendMessage] as one frame, the envelope of its ciphertext, and
    shown at once as the page's own; the room forwards the frame as it is
    to every other open socket, if it is within the size limit; and a page
    with the same key and another identity that is handed a frame read as
    that envelope shows, once its decryption has settled, the trimmed text
    that was typed (with U+FFFD for each surrogate that is not paired), as a
    peer's and not as a failure, and puts it in its store. *)
Theorem text_message_arrives :
  cipher_round_trip -> base64_round_trip ->
  base64_not_empty -> nonce_length -> ciphertext_not_empty ->
  forall (a b : Page.Desk) (key : CryptoKey),
    cryptoKey (Page.session a) = Some key -> cryptoKey (Page.session b) = Some key ->
    Page.roomId a ≠ [] -> Page.ws a = Page.Open ->
    Page.clientId a ≠ Page.clientId b ->
    code_units (Page.messageInput a) -> trim (Page.messageInput a) ≠ [] ->
    let text := trim (Page.messageInput a) in
    let a' := Page.continue (Page.next_waiting a) (Page.sendMessage a) in
    exists encrypted,
      let payload := text_payload (Page.clientId a) (clock (Page.session a)) encrypted in
      Page.outbox a' = Page.outbox a ++ [Page.JSON_stringify payload] /\
      Page.entries a' =
        Page.entries a ++ [Page.TextEntry (Some text) (p_time payload) true false] /\
      Page.messageStore a' =
        Page.messageStore a ++ [{| Page.i_payload := payload; Page.i_mine := true |}] /\
      Page.messageInput a' = [] /\
      (forall (room : ChatRoom) (from to : nat) (s : WebSocket),
         accepted room !! to = Some s -> readyState s = OPEN -> to ≠ from ->
         js_length (Page.JSON_stringify payload) <= maxMessageSize room ->
         accepted (webSocketMessage from (MsgString (Page.JSON_stringify payload)) room)
           !! to =
           Some {| readyState := OPEN;
                   sent := sent s ++ [Page.JSON_stringify payload];
                   closeFrame := closeFrame s |}) /\
      forall raw,
        Page.JSON_parse raw = Some payload ->
        let b' := Page.continue (Page.next_waiting b) (Page.handleIncoming raw b) in
        Page.entries b' =
          Page.entries b ++
            [Page.TextEntry (Some (toWellFormed text)) (p_time payload) false false] /\
        Page.messageStore b' =
          Page.messageStore b ++ [{| Page.i_payload := payload; Page.i_mine := false |}] /\
        Page.outbox b' = Page.outbox b.
Proof.
  intros Hcipher Hb64 Hfull Hnonce Htag a b key Hka Hkb Hroom Hws Hids Hunits Htext.
  cbv zeta.
  destruct (encrypt_decrypt_round_trip Hcipher Hb64 key (Page.draws a)
              (TextEncoder_encode (trim (Page.messageInput a))))
    as (encrypted & Henc & Hdec).
  destruct (encryptBytes_not_empty _ _ _ _ Hfull Hnonce Htag Henc) as [Hiv Hdata].
  exists encrypted. split; [|split; [|split; [|split; [|split]]]].
  1-4: unfold Page.sendMessage; cbv zeta;
       rewrite (bool_decide_eq_false_2 _ Htext), Hka;
       rewrite (bool_decide_eq_true_2 (is_Some (Some key))) by (by eexists);
       rewrite (bool_decide_eq_false_2 _ Hroom);
       rewrite (bool_decide_eq_true_2 _ Hws);
       cbn [negb orb]; unfold encryptText; rewrite Henc;
       unfold Page.continue, Page.await; desk;
       rewrite lookup_insert_eq; cbv zeta; unfold Page.ws_send, Page.forget;
       desk; rewrite Hws;
       unfold Page.clear_input, Page.addTextMessage, Page.addEntry, Page.saveHistory,
         Page.push; desk;
       rewrite ?(bool_decide_eq_false_2 _ Hroom); desk; try done.
  { intros room from to s Hs Hopen Hother Hfits.
    rewrite webSocketMessage_lookup, Hs. cbn [message_text].
    destruct (Z.gtb_spec (js_length (Page.JSON_stringify
                (text_payload (Page.clientId a) (clock (Page.session a)) encrypted)))
                (maxMessageSize room)) as [Hover|_]; [lia|].
    cbn. unfold delivered_to. by rewrite decide_True. }
  intros raw Hparse.
  rewrite (handleIncoming_kept raw b _ Hparse); [|cbn; congruence|done|done].
  cbv zeta. change (Page.payloadType (text_payload _ _ encrypted)) with (lit "text").
  rewrite !bool_decide_eq_false_2 by (intros [?|?] || intros [? ?]; done).
  unfold Page.continue, Page.await; desk.
  rewrite lookup_insert_eq. cbv zeta.
  rewrite Hkb. unfold decryptText. cbn [p_iv p_data text_payload]. rewrite Hdec.
  cbn [bind catch]. rewrite trimmed_round_trip by done.
  destruct (toWellFormed (trim (Page.messageInput a))) as [|c shown] eqn:Hshown.
  { by apply toWellFormed_nil in Hshown. }
  unfold Page.saveHistory, Page.push, Page.addTextMessage, Page.addEntry, Page.forget.
  desk. by case_bool_decide.
Qed.

(** X15: a file of at most one chunk, sent by [sendFile] under a key and
    an open connection, goes out as one frame of type [file]; and a page
    with the same key and another identity that is handed a frame read as
    that envelope shows, once its decryption has settled, the bytes that
    were sent, as a peer's, with the sender's time, name, type and size
    (the sender's fallbacks standing for an empty name or type); the file
    reaches neither the store of messages nor the storage, and nothing is
    sent back. *)
Theorem small_file_arrives :
  cipher_round_trip -> base64_round_trip ->
  base64_not_empty -> nonce_length -> ciphertext_not_empty ->
  forall (sender roomId : jsstring) (key : CryptoKey) (draw : nat) (bytes : list byte)
         (name type : jsstring) (time : Z) (b : Page.Desk),
    Z.of_nat (length bytes) <= MAX_CHUNK_BYTES -> roomId ≠ [] ->
    cryptoKey (Page.session b) = Some key -> Page.clientId b ≠ sender ->
    exists payload,
      sendFile sender (Some key) roomId true draw bytes name type time
        = inr ([payload], Normal tt) /\
      forall raw,
        Page.JSON_parse raw = Some payload ->
        let b' := Page.continue (Page.next_waiting b) (Page.handleIncoming raw b) in
        Page.entries b' =
          Page.entries b ++
            [Page.FileEntry bytes (JNumber time) false
               (JString (if bool_decide (name = []) then default_name else name))
               (JString (if bool_decide (type = [])
                         then lit "application/octet-stream" else type))
               (JNumber (Z.of_nat (length bytes)))] /\
        Page.messageStore b' = Page.messageStore b /\
        Page.localStorage b' = Page.localStorage b /\
        Page.outbox b' = Page.outbox b /\
        Page.session b' = Page.session b.
Proof.
  intros Hcipher Hb64 Hfull Hnonce Htag sender roomId key draw bytes name type time b
    Hsize Hroom Hkb Hids.
  destruct (encrypt_decrypt_round_trip Hcipher Hb64 key draw bytes)
    as (encrypted & Henc & Hdec).
  destruct (encryptBytes_not_empty _ _ _ _ Hfull Hnonce Htag Henc) as [Hiv Hdata].
  eexists. split.
  { unfold sendFile.
    destruct (Z.gtb_spec (Z.of_nat (length bytes)) MAX_FILE_BYTES) as [Hbig|_].
    { unfold MAX_FILE_BYTES, MAX_CHUNK_BYTES in *. lia. }
    rewrite bool_decide_eq_true_2 by by eexists.
    rewrite bool_decide_eq_false_2 by done. cbn [negb orb].
    rewrite (proj2 (Z.leb_le _ _)) by done. by rewrite Henc. }
  intros raw Hparse.
  rewrite (handleIncoming_kept raw b _ Hparse); [|cbn; congruence|done|done].
  cbv zeta.
  change (Page.payloadType (file_payload (lit "file") _ _ _ _ _ encrypted _))
    with (lit "file").
  rewrite (bool_decide_eq_false_2 (lit "file" = lit "image_chunk" \/ _))
    by (by intros [?|?]).
  rewrite (bool_decide_eq_true_2 (lit "file" = lit "file" \/ _)) by by left.
  unfold Page.continue, Page.await; desk. rewrite lookup_insert_eq. cbv zeta.
  rewrite Hkb. unfold decrypt_or_null. cbn [p_iv p_data file_payload]. rewrite Hdec.
  cbn [catch]. unfold Page.addEntry, Page.forget. desk.
  cbn [p_time p_name p_mime p_size file_payload f_name f_mime f_size].
  rewrite (bool_decide_eq_false_2 (lit "file" = lit "image")) by done.
  assert (Hname : js_or (JString (if bool_decide (name = []) then default_name else name))
                    (JString default_name)
                  = JString (if bool_decide (name = []) then default_name else name)).
  { apply truthy_js_or. cbn [truthy]. apply negb_true_iff, bool_decide_eq_false_2.
    by destruct (bool_decide (name = [])) eqn:Hn; [|apply bool_decide_eq_false in Hn]. }
  assert (Hmime : js_or (JString (if bool_decide (type = [])
                                  then lit "application/octet-stream" else type))
                    (JString (lit "application/octet-stream"))
                  = JString (if bool_decide (type = [])
                             then lit "application/octet-stream" else type)).
  { apply truthy_js_or. cbn [truthy]. apply negb_true_iff, bool_decide_eq_false_2.
    by destruct (bool_decide (type = [])) eqn:Ht; [|apply bool_decide_eq_false in Ht]. }
  assert (Hsz : js_or (JNumber (Z.of_nat (length bytes)))
                  (JNumber (Z.of_nat (length bytes)))
                = JNumber (Z.of_nat (length bytes))).
  { unfold js_or. by destruct (truthy _). }
  by rewrite Hname, Hmime, Hsz.
Qed.

End Desks.

(** ** The store of messages and its copy in storage *)

Section Stores.
Context {platform : WebPlatform} {json : Page.JsonPlatform}.

Local Ltac desk :=
  cbn [Page.session Page.clientId Page.roomId Page.ws Page.outbox Page.messageInput
       Page.messageStore Page.localStorage Page.entries Page.notices Page.waiting
       Page.next_waiting Page.draws Page.rejected].

Lemma storageKey_inj roomId roomId' :
  Page.storageKey roomId = Page.storageKey roomId' -> roomId = roomId'.
Proof. unfold Page.storageKey. apply app_inv_head. Qed.

Lemma storageKey_password roomId : Page.storageKey roomId ≠ Page.STORAGE_PASSWORD.
Proof.
  unfold Page.storageKey. intros Heq. apply (f_equal (fun key => key !! 7%nat)) in Heq.
  vm_compute in Heq. discriminate.
Qed.

Lemma filter_all {A} (P : A -> Prop) `{forall x, Decision (P x)} (l : list A) :
  Forall P l -> filter P l = l.
Proof.
  induction 1 as [|x l Hx Hl IH]; [done|]. rewrite filter_cons_True by done. by f_equal.
Qed.

Lemma slice_last_length {A} (n : nat) (l : list A) : (length (Page.slice_last n l) <= n)%nat.
Proof. unfold Page.slice_last. rewrite length_drop. lia. Qed.

Lemma slice_last_short {A} (n : nat) (l : list A) :
  (length l <= n)%nat -> Page.slice_last n l = l.
Proof.
  intros Hshort. unfold Page.slice_last. replace (length l - n)%nat with 0%nat by lia. done.
Qed.

Lemma slice_last_suffix {A} (n : nat) (l : list A) : Page.slice_last n l `suffix_of` l.
Proof. unfold Page.slice_last. apply suffix_drop. Qed.

Lemma shelved_same d d' :
  Page.roomId d' = Page.roomId d -> Page.messageStore d' = Page.messageStore d ->
  Page.localStorage d' = Page.localStorage d -> shelved d d'.
Proof. intros. split; [done|]. by left. Qed.

Lemma shelved_push d item :
  Page.is_text item = true -> shelved d (Page.saveHistory (Page.push item d)).
Proof.
  intros Htext. split.
  - unfold Page.saveHistory. by case_bool_decide.
  - right. exists item. split; [done|]. unfold Page.saveHistory, Page.push. desk.
    by case_bool_decide.
Qed.

Lemma handleIncoming_shelved raw d : shelved d (Page.handleIncoming raw d).
Proof.
  unfold Page.handleIncoming.
  destruct (Page.JSON_parse raw) as [payload|]; [|by apply shelved_same].
  repeat case_match; by apply shelved_same.
Qed.

Lemma sendMessage_shelved d : shelved d (Page.sendMessage d).
Proof. unfold Page.sendMessage. cbv zeta. repeat case_match; by apply shelved_same. Qed.

Lemma shelved_trans d d' d'' :
  Page.roomId d' = Page.roomId d -> Page.messageStore d' = Page.messageStore d ->
  Page.localStorage d' = Page.localStorage d -> shelved d' d'' -> shelved d d''.
Proof. intros Hroom Hstore Hstorage. unfold shelved. by rewrite Hroom, Hstore, Hstorage. Qed.

Lemma shelved_wrap d d' d'' :
  shelved d d' ->
  Page.roomId d'' = Page.roomId d' -> Page.messageStore d'' = Page.messageStore d' ->
  Page.localStorage d'' = Page.localStorage d' -> shelved d d''.
Proof.
  intros Hshelved Hroom Hstore Hstorage. unfold shelved.
  by rewrite Hroom, Hstore, Hstorage.
Qed.

Lemma continue_shelved t d : shelved d (Page.continue t d).
Proof.
  unfold Page.continue. destruct (Page.waiting d !! t) as [w|]; [|by apply shelved_same].
  cbv zeta. destruct w as [payload text|payload type [bytes|]|text [encrypted|e]].
  - apply (shelved_trans d
             (Page.addTextMessage text (p_time payload) false
                match text with Some (_ :: _) => false | _ => true end
                (Page.forget t d))); [done..|].
    by apply shelved_push.
  - by apply shelved_same.
  - by apply shelved_same.
  - unfold Page.ws_send. change (Page.ws (Page.forget t d)) with (Page.ws d).
    destruct (Page.ws d) eqn:Hws; try by apply shelved_same.
    + set (d1 := {| Page.session := _ |}). set (item := {| Page.i_payload := _ |}).
      apply (shelved_wrap d (Page.saveHistory (Page.push item d1))); [|reflexivity..].
      apply (shelved_trans d d1); [reflexivity..|]. by apply shelved_push.
    + set (d1 := Page.forget t d). set (item := {| Page.i_payload := _ |}).
      apply (shelved_wrap d (Page.saveHistory (Page.push item d1))); [|reflexivity..].
      apply (shelved_trans d d1); [reflexivity..|]. by apply shelved_push.
  - by apply shelved_same.
Qed.

Lemma desk_step_shelved d e : shelved d (Page.desk_step d e).
Proof.
  destruct e; cbn [Page.desk_step];
    [apply handleIncoming_shelved|by apply shelved_same|apply sendMessage_shelved
    |apply continue_shelved|by apply shelved_same..].
Qed.

(** X16: on a page whose store of messages starts empty, whatever frames
    arrive, whatever is typed and sent, and however the calls interleave,
    the store holds text messages only (no file, chunk or notice gets
    there); the room's entry in storage, once something was stored, is the
    history of the last 200 of them, in order; and no other entry of the
    storage is written: not another room's history, not the passphrase. *)
Theorem history_is_the_last_texts :
  forall (d0 : Page.Desk) (events : list Page.DeskEvent),
    Page.messageStore d0 = [] ->
    let d := Page.desk_run d0 events in
    let kept := Page.slice_last Page.MAX_HISTORY (Page.messageStore d) in
    Page.roomId d = Page.roomId d0 /\
    Forall (fun item => Page.is_text item = true) (Page.messageStore d) /\
    (Page.roomId d0 ≠ [] -> Page.messageStore d ≠ [] ->
       Page.localStorage d !! Page.storageKey (Page.roomId d0)
         = Some (Page.JSON_stringify_items kept)) /\
    (length kept <= 200)%nat /\ kept `suffix_of` Page.messageStore d /\
    ((length (Page.messageStore d) <= 200)%nat -> kept = Page.messageStore d) /\
    (forall key, key ≠ Page.storageKey (Page.roomId d0) ->
       Page.localStorage d !! key = Page.localStorage d0 !! key) /\
    (forall roomId, roomId ≠ Page.roomId d0 ->
       Page.localStorage d !! Page.storageKey roomId
         = Page.localStorage d0 !! Page.storageKey roomId) /\
    Page.localStorage d !! Page.STORAGE_PASSWORD
      = Page.localStorage d0 !! Page.STORAGE_PASSWORD.
Proof.
  intros d0 events Hempty. cbv zeta.
  assert (Hinv : Page.roomId (Page.desk_run d0 events) = Page.roomId d0 /\
            Forall (fun item => Page.is_text item = true)
              (Page.messageStore (Page.desk_run d0 events)) /\
            (Page.roomId d0 ≠ [] -> Page.messageStore (Page.desk_run d0 events) ≠ [] ->
               Page.localStorage (Page.desk_run d0 events)
                 !! Page.storageKey (Page.roomId d0)
               = Some (Page.JSON_stringify_items
                         (Page.slice_last Page.MAX_HISTORY
                            (Page.messageStore (Page.desk_run d0 events))))) /\
            (forall key, key ≠ Page.storageKey (Page.roomId d0) ->
               Page.localStorage (Page.desk_run d0 events) !! key
               = Page.localStorage d0 !! key)).
  { induction events as [|e events IH] using rev_ind.
    - cbn. rewrite Hempty. by repeat split.
    - unfold Page.desk_run in *. rewrite foldl_app. cbn [foldl].
      destruct IH as (Hroom & Htexts & Hsaved & Hothers).
      destruct (desk_step_shelved (foldl Page.desk_step d0 events) e)
        as [Hroom' [[Hstore Hstorage]|(item & Hitem & Hstore & Hstorage)]].
      + rewrite Hroom', Hstore, Hstorage. by repeat split.
      + rewrite Hroom', Hstore, Hstorage, Hroom.
        assert (Hall : Forall (fun item => Page.is_text item = true)
                         (Page.messageStore (foldl Page.desk_step d0 events) ++ [item])).
        { apply Forall_app. split; [done|]. by apply Forall_singleton. }
        split; [done|]. split; [done|]. split.
        * intros Hr _. rewrite bool_decide_eq_false_2 by done.
          rewrite lookup_insert_eq. by rewrite filter_all.
        * intros key Hkey. destruct (bool_decide (Page.roomId d0 = [])); [by apply Hothers|].
          rewrite lookup_insert_ne by done. by apply Hothers. }
  destruct Hinv as (Hroom & Htexts & Hsaved & Hothers).
  split; [done|]. split; [done|]. split; [done|].
  split; [apply slice_last_length|]. split; [apply slice_last_suffix|].
  split; [apply slice_last_short|]. split; [done|]. split.
  - intros roomId Hother. apply Hothers. intros Heq. by apply storageKey_inj in Heq.
  - apply Hothers. apply not_eq_sym, storageKey_password.
Qed.

End Stores.

(** ** Runs of the page on the stand-ins *)

Section DeskSamples.
Import Sample.
#[local] Existing Instance sample_platform.
#[local] Existing Instance Page.Sample.sample_json.

Lemma read_value_write v rest :
  Page.Sample.read_value (Page.Sample.write_value v ++ rest) = Some (v, rest).
Proof.
  destruct v as [| |b|n| |s]; try reflexivity.
  - by destruct b.
  - cbn. destruct (Z.ltb_spec n 0) as [Hneg|Hpos]; cbn; rewrite Z2N.id by lia;
      do 3 f_equal; lia.
  - cbn. rewrite Nat2N.id.
    rewrite (proj2 (Nat.leb_le _ _)) by (rewrite length_app; lia).
    by rewrite take_app_length, drop_app_length.
Qed.

Lemma read_string_write s rest :
  Page.Sample.read_string (Page.Sample.write_value (JString s) ++ rest) = Some (s, rest).
Proof. unfold Page.Sample.read_string. by rewrite read_value_write. Qed.

Lemma sample_json_round_trip p : Page.JSON_parse (Page.JSON_stringify p) = Some p.
Proof.
  cbn [Page.JSON_parse Page.JSON_stringify Page.Sample.sample_json].
  unfold Page.Sample.sample_parse, Page.Sample.read_payload, Page.Sample.write_payload.
  rewrite <- (app_nil_r (Page.Sample.write_value (p_size p))).
  repeat (rewrite ?read_value_write, ?read_string_write; cbn [mbind option_bind]).
  by destruct p.
Qed.

Lemma sample_base64_not_empty : @base64_not_empty sample_platform.
Proof.
  intros binary encoded Hfull. cbn. unfold sample_b64.
  destruct (forallb _ binary); [|done]. by intros [= <-].
Qed.

Lemma sample_nonce_length : @nonce_length sample_platform.
Proof. intros draw n. cbn. apply length_replicate. Qed.

Lemma sample_ciphertext_not_empty : @ciphertext_not_empty sample_platform.
Proof. by intros k iv plain. Qed.

Lemma text_message_arrives_witness :
  let a := Page.Sample.sample_desk (lit "alice") (lit " hello ") in
  let b := Page.Sample.sample_desk (lit "bob") [] in
  trim (Page.messageInput a) = lit "hello" /\
  exists frame,
    Page.outbox (Page.continue 0 (Page.sendMessage a)) = [frame] /\
    Page.entries (Page.continue 0 (Page.handleIncoming frame b)) =
      [Page.TextEntry (Some (lit "hello")) (JNumber 0) false false].
Proof.
  cbv zeta. split; [reflexivity|].
  destruct (text_message_arrives sample_cipher_round_trip sample_base64_round_trip
              sample_base64_not_empty sample_nonce_length sample_ciphertext_not_empty
              (Page.Sample.sample_desk (lit "alice") (lit " hello "))
              (Page.Sample.sample_desk (lit "bob") []) sample_key)
    as (encrypted & Hsent & _ & _ & _ & _ & Hread); try reflexivity; try discriminate.
  { unfold code_units. cbn. repeat constructor. }
  eexists. split; [exact Hsent|].
  destruct (Hread _ (sample_json_round_trip _)) as (Hentries & _).
  exact Hentries.
Defined.

Lemma small_file_arrives_witness :
  let b := Page.Sample.sample_desk (lit "bob") [] in
  exists payload,
    sendFile (lit "alice") (Some sample_key) (lit "room") true 0 [x41; x42]
      (lit "a.bin") [] 7 = inr ([payload], Normal tt) /\
    Page.entries (Page.continue 0 (Page.handleIncoming (Page.JSON_stringify payload) b)) =
      [Page.FileEntry [x41; x42] (JNumber 7) false (JString (lit "a.bin"))
         (JString (lit "application/octet-stream")) (JNumber 2)].
Proof.
  cbv zeta.
  destruct (small_file_arrives sample_cipher_round_trip sample_base64_round_trip
              sample_base64_not_empty sample_nonce_length sample_ciphertext_not_empty
              (lit "alice") (lit "room") sample_key 0%nat [x41; x42] (lit "a.bin") [] 7
              (Page.Sample.sample_desk (lit "bob") []))
    as (payload & Hsent & Hread); try reflexivity; try discriminate.
  exists payload. split; [exact Hsent|].
  destruct (Hread _ (sample_json_round_trip _)) as (Hentries & _).
  exact Hentries.
Defined.

Lemma history_is_the_last_texts_witness :
  let d0 := Page.Sample.sample_desk (lit "bob") [] in
  let d := Page.desk_run d0 [Page.Edit (lit " hi "); Page.Send; Page.Continue 0] in
  Page.messageStore d0 = [] /\
  length (Page.messageStore d) = 1%nat /\
  Page.localStorage d !! Page.storageKey (lit "room")
    = Some (Page.JSON_stringify_items (Page.messageStore d)).
Proof.
  cbv zeta. split; [reflexivity|]. split; [reflexivity|].
  destruct (history_is_the_last_texts (Page.Sample.sample_desk (lit "bob") [])
              [Page.Edit (lit " hi "); Page.Send; Page.Continue 0] eq_refl)
    as (_ & _ & Hsaved & _ & _ & Hall & _).
  rewrite Hall in Hsaved by (vm_compute; lia).
  apply Hsaved; [discriminate|]. intros Hnil. apply (f_equal length) in Hnil.
  vm_compute in Hnil. discriminate.
Defined.

End DeskSamples.
